(** * chibivue: the dependency cell [Dep] and the component set-up phase

    A shallow embedding of the two source modules

    - the [Dep] class (module-level counter [uid], static slot
      [Dep.target], methods [addSub], [depend], [notify]) together with
      the [DepTarget] interface, and
    - [packages/runtime-core/component.ts] ([getCurrentInstance],
      [setCurrentInstance], [unsetCurrentInstance], [setupComponent]),

    followed by the properties proved about them.

    JavaScript objects live in a heap indexed by references, mutable
    module-level variables are fields of a world record, and every
    function of the source is a computation in a small monad that threads
    the world, propagates thrown exceptions and records the calls the
    function makes to code outside of itself. *)

From Stdlib Require Import ZArith String.
From stdpp Require Import base tactics option list gmap.

Set Default Proof Using "Type".
Local Open Scope Z_scope.

(** ** Completions, and the monad of the embedding *)

(** A thrown JavaScript value; only its identity matters here. *)
Definition exn : Type := string.

(** How an evaluation ends: normally with a value, or abruptly. *)
Inductive completion (A : Type) : Type :=
  | Normal (a : A)
  | Throw (e : exn).
Arguments Normal {A} a.
Arguments Throw {A} e.

(** A computation over worlds [W] that makes outside calls drawn from
    [Ev]: it ends in a completion, a final world, and the list of the
    outside calls it made, oldest first. *)
Definition M (W Ev A : Type) : Type := W → completion A * W * list Ev.

(** Code outside the embedded module (a method of an interface, a user
    callback, an imported helper): it sees and changes the world, and is
    not itself traced. *)
Definition extern (W A : Type) : Type := W → completion A * W.

Section monad.
Context {W Ev : Type}.

Definition ret {A} (a : A) : M W Ev A := λ w, (Normal a, w, []).

Definition bind {A B} (m : M W Ev A) (k : A → M W Ev B) : M W Ev B :=
  λ w, match m w with
       | (Normal a, w1, l1) =>
           match k a w1 with (r, w2, l2) => (r, w2, l1 ++ l2) end
       | (Throw e, w1, l1) => (Throw e, w1, l1)
       end.

Definition throw {A} (e : exn) : M W Ev A := λ w, (Throw e, w, []).

(** Read, respectively overwrite, a part of the world. *)
Definition gets {A} (f : W → A) : M W Ev A := λ w, (Normal (f w), w, []).
Definition modify (f : W → W) : M W Ev unit := λ w, (Normal tt, f w, []).

(** An outside call: recorded as [ev], then left to [f]. *)
Definition call {A} (ev : Ev) (f : extern W A) : M W Ev A :=
  λ w, match f w with (r, w1) => (r, w1, [ev]) end.

(** [try { m } finally { fin }] for a [fin] that completes normally. *)
Definition finally {A} (m : M W Ev A) (fin : W → W) : M W Ev A :=
  λ w, match m w with (r, w1, l) => (r, fin w1, l) end.

(** [Array.prototype.forEach] over an array that nothing else can reach
    while the loop runs: the elements in index order. *)
Fixpoint forEach {A} (l : list A) (cb : A → M W Ev unit) : M W Ev unit :=
  match l with
  | [] => ret tt
  | x :: l' => bind (cb x) (λ _, forEach l' cb)
  end.

(** What a traced computation looks like from outside. *)
Definition untraced {A} (m : M W Ev A) : extern W A := λ w, (m w).1.
End monad.

Notation "x <- m ;; k" := (bind m (λ x, k))
  (at level 100, m at next level, right associativity,
   format "'[v' x  <-  m  ;;  '/' k ']'").
Notation "m ;;; k" := (bind m (λ _, k))
  (at level 100, right associativity, format "'[v' m  ;;;  '/' k ']'").

(** Projections of a finished run. *)
Definition outcome {A W Ev} (x : completion A * W * list Ev) : completion A := x.1.1.
Definition world_after {A W Ev} (x : completion A * W * list Ev) : W := x.1.2.
Definition calls {A W Ev} (x : completion A * W * list Ev) : list Ev := x.2.

(** What [m], started in [w], establishes: [Q] of its value, final world
    and calls if it ends normally; if it throws, then [N] is refuted.
    With [N := False] this says what holds if [m] returns; with [N] the
    assumption that outside code returns, it also says that [m] returns. *)
Definition wp {W Ev A : Type} (N : Prop) (m : M W Ev A)
    (Q : A → W → list Ev → Prop) (w : W) : Prop :=
  match m w with
  | (Normal a, w', l) => Q a w' l
  | (Throw _, _, _) => ¬ N
  end.

(** Object references. *)
Definition ref : Type := positive.

(** The error of using [null] or a vanished object as an object. *)
Definition TypeError : exn := "TypeError"%string.

(** ** JavaScript numbers, as far as [uid] needs them

    [uid] is a [number], an IEEE-754 binary64 value.  It starts at [0] and
    is only ever incremented, so it is always a non-negative integer.
    Every integer up to [2^53] is a binary64 value; between [2^53] and
    [2^54] only the even ones are, and a sum that falls on an odd integer
    is rounded to the neighbour whose significand is even. *)
Module Number.
Definition two53 : Z := 2 ^ 53.

(** Rounding to binary64 of an integer [0 <= z < 2^54]. *)
Definition round (z : Z) : Z :=
  if decide (z ≤ two53) then z
  else if Z.even z then z
  else if Z.even (z / 2) then z - 1 else z + 1.

(** [n + 1] for a number [n]. *)
Definition succ (n : Z) : Z := round (n + 1).
End Number.
Arguments Number.two53 : simpl never.
Arguments Number.succ : simpl never.

(** ** The [Dep] class *)

(** [DepTarget | null | undefined], the type of the static [Dep.target]. *)
Inductive slot (A : Type) : Type :=
  | undefined
  | null
  | object (a : A).
Arguments undefined {A}.
Arguments null {A}.
Arguments object {A} a.

(** Truthiness, as tested by [if (Dep.target)]. *)
Definition truthy {A} (s : slot A) : bool :=
  match s with object _ => true | _ => false end.

(** An instance of [Dep]: [id: number] and
    [subs: Array<DepTarget | null>], where [None] is a [null] entry. *)
Record Dep : Type := mkDep { id : Z; subs : list (option ref) }.

(** The world of the [Dep] module: the module-level [uid], the static
    [Dep.target], the [Dep] objects, and whatever else ([U]) the targets
    keep. *)
Record World (U : Type) : Type := mkWorld {
  uid : Z;
  Dep_target : slot ref;
  heap : gmap ref Dep;
  user : U;
}.
Arguments mkWorld {U} _ _ _ _.
Arguments uid {U} _.
Arguments Dep_target {U} _.
Arguments heap {U} _.
Arguments user {U} _.

(** The calls a [Dep] makes to its targets. *)
Inductive event : Type :=
  | EvAddDep (target dep : ref)     (* target.addDep(dep) *)
  | EvUpdate (target : ref).        (* target.update() *)

Global Instance event_eq_dec : EqDecision event.
Proof. solve_decision. Defined.

(** [Boolean(s)] for an entry of [subs]. *)
Definition Boolean (s : option ref) : bool :=
  match s with Some _ => true | None => false end.

(** The entries of an array that are not [null], in index order. *)
Definition live (l : list (option ref)) : list ref := omap (λ s, s) l.

Section Dep.
Context {U : Type}.
#[local] Abbreviation World := (World U).
#[local] Abbreviation M := (M World event).

(** The two methods of the [DepTarget] interface, for each target. *)
Variable addDep_of : ref → ref → extern World unit.
Variable update_of : ref → extern World unit.

Definition set_uid (n : Z) (w : World) : World :=
  mkWorld n (Dep_target w) (heap w) (user w).
Definition set_target (t : slot ref) (w : World) : World :=
  mkWorld (uid w) t (heap w) (user w).
Definition set_heap (h : gmap ref Dep) (w : World) : World :=
  mkWorld (uid w) (Dep_target w) h (user w).
Definition set_user (u : U) (w : World) : World :=
  mkWorld (uid w) (Dep_target w) (heap w) u.

(** Reading the object behind [this].  In a world that a program has
    built every reference leads to its object; the other branch is there
    to make the function total. *)
Definition deref (d : ref) : M Dep :=
  λ w, match heap w !! d with
       | Some o => (Normal o, w, [])
       | None => (Throw TypeError, w, [])
       end.

(** [constructor() { this.id = uid++; this.subs = []; }] *)
Definition new_Dep : M ref :=
  λ w, let d := fresh (dom (heap w)) in
       let n := uid w in
       (Normal d,
        set_heap (<[d := mkDep n []]> (heap w)) (set_uid (Number.succ n) w),
        []).

(** [addSub(sub) { this.subs.push(sub); }] *)
Definition addSub (d : ref) (sub : ref) : M unit :=
  this <- deref d ;;
  modify (λ w, set_heap (<[d := mkDep (id this) (subs this ++ [Some sub])]> (heap w)) w).

(** [depend() { if (Dep.target) { Dep.target.addDep(this); } }] *)
Definition depend (d : ref) : M unit :=
  t <- gets Dep_target ;;
  if truthy t then
    match t with
    | object tgt => call (EvAddDep tgt d) (addDep_of tgt d)
    | _ => throw TypeError
    end
  else ret tt.

(** [sub.update()] for an element of the filtered array; on [null] the
    member access would throw. *)
Definition invoke_update (sub : option ref) : M unit :=
  match sub with
  | Some tgt => call (EvUpdate tgt) (update_of tgt)
  | None => throw TypeError
  end.

(** [notify() {
      const subs = this.subs.filter((s): s is DepTarget => Boolean(s));
      subs.forEach((sub) => { sub.update(); });
    }] *)
Definition notify (d : ref) : M unit :=
  this <- deref d ;;
  let subs := List.filter Boolean (subs this) in
  forEach subs invoke_update.
End Dep.

(** The loop of [notify] over a snapshot [l] of targets. *)
Definition dispatch {U : Type} (update_of : ref → extern (World U) unit)
    (l : list ref) : M (World U) event unit :=
  forEach (Some <$> l) (invoke_update update_of).

(** The spec's words for what [notify()] does with its snapshot, "invoke
    [update()] on each in snapshot order", written out on worlds: the
    [update()] of each target of [l] in turn, each started in the world
    that the one before it left, up to the first that throws.  The result
    is how the last one ended, the world it left, and the targets whose
    [update()] was started. *)
Fixpoint update_each_in_order {U : Type} (update_of : ref → extern (World U) unit)
    (l : list ref) (w : World U) : completion unit * World U * list ref :=
  match l with
  | [] => (Normal tt, w, [])
  | t :: l' =>
      match update_of t w with
      | (Normal _, w1) =>
          match update_each_in_order update_of l' w1 with
          | (r, w2, ts) => (r, w2, t :: ts)
          end
      | (Throw e, w1) => (Throw e, w1, [t])
      end
  end.

(** The module as it is when loaded: [let uid = 0], no target, no cell. *)
Definition initial {U} (u : U) : World U := mkWorld 0 undefined ∅ u.

(** ** The Reactive Effect *)

(** Modelled from the spec: the wrapped function of an effect ("an
    arbitrary side-effecting function" whose "reactive reads can be
    conditional"), by what it can do to the reactive state: read a cell
    (which calls the cell's [depend()]), write one ("a reactive write
    calls [Dep.notify()]"), run an effect ("an effect's function may
    itself trigger a run of a different effect"), read and change data of
    its own ([D]) on which its branches depend, end, or raise. *)
Inductive body (D : Type) : Type :=
  | Done
  | Raise (e : exn)
  | Read (c : ref) (k : body D)
  | Write (c : ref) (k : body D)
  | Run (e : ref) (k : body D)
  | Get (k : D → body D)
  | Put (d : D) (k : body D).
Arguments Done {D}.
Arguments Raise {D} e.
Arguments Read {D} c k.
Arguments Write {D} c k.
Arguments Run {D} e k.
Arguments Get {D} k.
Arguments Put {D} d k.

(** Modelled from the spec: the Reactive Effect, whose source
    ([reactivity/effect]) is not among the files.  An effect has an id, the
    wrapped function, the set of cells it is currently linked to, and the
    active/stopped flag. *)
Record Effect (D : Type) : Type := mkEffect {
  eid : Z;
  fn : body D;
  deps : gset ref;
  active : bool;
}.
Arguments mkEffect {D} _ _ _ _.
Arguments eid {D} _.
Arguments fn {D} _.
Arguments deps {D} _.
Arguments active {D} _.

(** What happened, for the statements to speak about: a run of the
    effect [e] begins ([Started e], written when [run()] has found the
    effect active), and the wrapped function of [e] reads the cell [c]
    ([ReadBy e c], written at the read itself).  Nothing reads the
    journal. *)
Inductive entry : Type :=
  | Started (e : ref)
  | ReadBy (e c : ref).

#[global] Instance entry_eq_dec : EqDecision entry.
Proof. solve_decision. Defined.

(** What the targets keep: the effect objects, and the data the wrapped
    functions work on; and the journal. *)
Record Store (D : Type) : Type := mkStore {
  effects : gmap ref (Effect D);
  data : D;
  journal : list entry;
}.
Arguments mkStore {D} _ _ _.
Arguments effects {D} _.
Arguments data {D} _.
Arguments journal {D} _.

(** Nested runs deeper than the call stack allows end in this error. *)
Definition RangeError : exn := "RangeError"%string.

(** Modelled from the spec: removal from a subscriber list leaves "a
    tombstone (null), so that removal does not shift other subscribers'
    indices". *)
Definition tombstone (e : ref) (l : list (option ref)) : list (option ref) :=
  (λ s, if decide (s = Some e) then None else s) <$> l.
Arguments tombstone : simpl never.

Section ReactiveEffect.
Context {D : Type}.
#[local] Abbreviation World := (World (Store D)).
#[local] Abbreviation M := (M World event).

Definition get_effect (e : ref) : M (Effect D) :=
  λ w, match effects (user w) !! e with
       | Some x => (Normal x, w, [])
       | None => (Throw TypeError, w, [])
       end.

Definition set_effect (e : ref) (x : Effect D) (w : World) : World :=
  set_user (mkStore (<[e := x]> (effects (user w))) (data (user w)) (journal (user w))) w.

Definition set_data (d : D) (w : World) : World :=
  set_user (mkStore (effects (user w)) d (journal (user w))) w.

(** One more line in the journal. *)
Definition note (x : entry) (w : World) : World :=
  set_user (mkStore (effects (user w)) (data (user w)) (journal (user w) ++ [x])) w.

(** Modelled from the spec: removing a subscriber from a cell ("remove
    this effect from that Cell's subscriber list", by "tombstoning slots
    rather than mutating array length"). *)
Definition removeSub (c : ref) (e : ref) : M unit :=
  this <- deref c ;;
  modify (λ w, set_heap (<[c := mkDep (id this) (tombstone e (subs this))]> (heap w)) w).

(** Modelled from the spec: [addDep(cell)]: "If cell is not already in
    this effect's current link set, add it to both the effect's link set
    and the cell's subscriber list; otherwise no-op." *)
Definition addDep (e : ref) (c : ref) : M unit :=
  eff <- get_effect e ;;
  if decide (c ∈ deps eff) then ret tt
  else
    (modify (set_effect e (mkEffect (eid eff) (fn eff) ({[c]} ∪ deps eff) (active eff))) ;;;
     addSub c e).

(** Modelled from the spec: step (1) of [run()]: "for every Cell
    currently linked to this effect, remove this effect from that Cell's
    subscriber list, then clear this effect's own link set". *)
Definition cleanup (e : ref) : M unit :=
  eff <- get_effect e ;;
  forEach (elements (deps eff)) (λ c, removeSub c e) ;;;
  modify (set_effect e (mkEffect (eid eff) (fn eff) ∅ (active eff))).

(** The [addDep] method that a cell finds on a target that is an effect. *)
Definition effect_addDep (t d : ref) : extern World unit := untraced (addDep t d).

(** Modelled from the spec: step (3) of [run()], "execute the wrapped
    function", for the wrapped function [b] of the effect [e].  A read
    goes through [Dep.depend] of the source and a write through
    [Dep.notify], whose targets are effects, updated by [rerun]
    ("[update()]: default behavior is [run()]"); a run inside the function
    is [rerun] as well. *)
Fixpoint exec (rerun : ref → M unit) (e : ref) (b : body D) : M unit :=
  match b with
  | Done => ret tt
  | Raise x => throw x
  | Read c k =>
      modify (note (ReadBy e c)) ;;; depend effect_addDep c ;;; exec rerun e k
  | Write c k => notify (λ t, untraced (rerun t)) c ;;; exec rerun e k
  | Run e' k => rerun e' ;;; exec rerun e k
  | Get k => d <- gets (λ w, data (user w)) ;; exec rerun e (k d)
  | Put d k => modify (set_data d) ;;; exec rerun e k
  end.

(** Modelled from the spec: [run()]: "fails silently (returns without
    tracking) if the effect is stopped.  Otherwise: (1) clean up; (2) push
    this effect onto the Tracking Context stack as the active target; (3)
    execute the wrapped function, which may raise; the Tracking Context
    must still be restored; (4) pop the Tracking Context back to the
    previous value; (5) return the function's result (or propagate its
    failure after unwind)."  Runs nest, through the writes and runs of the
    wrapped functions; [n] is the depth of nesting that the call stack
    allows, and a run nested deeper throws. *)
Fixpoint run (n : nat) (e : ref) : M unit :=
  match n with
  | O => throw RangeError
  | S n' =>
      eff <- get_effect e ;;
      if active eff then
        (modify (note (Started e)) ;;;
         cleanup e ;;;
         prev <- gets Dep_target ;;
         modify (set_target (object e)) ;;;
         finally (exec (run n') e (fn eff)) (set_target prev))
      else ret tt
  end.

(** Modelled from the spec: [update()]: "default behavior is [run()]". *)
Definition update (n : nat) (e : ref) : M unit := run n e.

(** The [update] method that a cell finds on a target that is an effect. *)
Definition effect_update (n : nat) (t : ref) : extern World unit :=
  untraced (update n t).
End ReactiveEffect.

(** ** [runtime-core/component.ts] *)

Module Component.

(** JavaScript values, as far as the set-up phase tells them apart. *)
Inductive Value : Type :=
  | VUndefined
  | VNull
  | VBoolean (b : bool)
  | VNumber (z : Z)
  | VString (s : string)
  | VObject (r : ref)
  | VFunction (f : ref)
  | VSetupContext (emit : Value)      (* the object [{ emit }] *)
  | VProxy (target : Value).          (* [new Proxy(target, PublicInstanceProxyHandlers)] *)

(** The fields of [ComponentOptions] that the set-up phase reads. *)
Record ComponentOptions : Type := mkOptions {
  setup : option ref;
  render : option ref;
  template : option string;
}.

(** [VNode], by its [props]. *)
Record VNode : Type := mkVNode { vprops : Value }.

(** [ComponentInternalInstance], by the fields the set-up phase touches.
    [vprops] is [vnode.props]; [irender] is the instance's own [render]. *)
Record ComponentInternalInstance : Type := mkInstance {
  type : ComponentOptions;
  vnode : VNode;
  proxy : Value;
  scope : ref;
  irender : Value;
  ctx : Value;
  props : Value;
  emit : Value;
  setupState : Value;
  setupContext : Value;
}.

(** Modelled from the spec: the Effect Scope, whose source
    ([reactivity/effectScope]) is not among the files; it has "a parent
    reference" and "active/stopped flags". *)
Record EffectScope : Type := mkScope {
  parent : option ref;
  scope_active : bool;
}.

(** The world of the module: [currentInstance], the registered [compile],
    the instances, the ambient scope and the scopes, and the rest ([X]). *)
Record World (X : Type) : Type := mkWorld {
  currentInstance : option ref;
  compile : option ref;
  instances : gmap ref ComponentInternalInstance;
  activeEffectScope : option ref;
  scopes : gmap ref EffectScope;
  rest : X;
}.
Arguments mkWorld {X} _ _ _ _ _ _.
Arguments currentInstance {X} _.
Arguments compile {X} _.
Arguments instances {X} _.
Arguments activeEffectScope {X} _.
Arguments scopes {X} _.
Arguments rest {X} _.

(** The calls the module makes to code outside of itself. *)
Inductive event : Type :=
  | EvInitProps (instance : ref)       (* initProps(instance, props) *)
  | EvScopeOn (s : ref)                (* scope.on() *)
  | EvScopeOff (s : ref)               (* scope.off() *)
  | EvScopeRun (s : ref)               (* scope.run(fn) *)
  | EvSetup (f : ref)                  (* setup(props, setupContext) *)
  | EvProxyRefs                        (* proxyRefs(setupResult) *)
  | EvCompile (f : ref)                (* compile(template) *)
  | EvApplyOptions (instance : ref).   (* applyOptions(instance) *)

#[global] Instance event_eq_dec : EqDecision event.
Proof. solve_decision. Defined.

Section Component.
Context {X : Type}.
#[local] Abbreviation World := (World X).
#[local] Abbreviation M := (M World event).

(** Imported from modules that are not among the files. *)
Variable initProps : ref → Value → extern World unit.
Variable applyOptions : ref → extern World unit.
Variable proxyRefs : Value → extern World Value.
Variable isFunction : Value → bool.
Variable isObject : Value → bool.
(** Calling a function value: the user's [setup], the registered compiler. *)
Variable apply : ref → list Value → extern World Value.

Definition set_currentInstance (c : option ref) (w : World) : World :=
  mkWorld c (compile w) (instances w) (activeEffectScope w) (scopes w) (rest w).
Definition set_compile (c : option ref) (w : World) : World :=
  mkWorld (currentInstance w) c (instances w) (activeEffectScope w) (scopes w) (rest w).
Definition set_instances (h : gmap ref ComponentInternalInstance) (w : World) : World :=
  mkWorld (currentInstance w) (compile w) h (activeEffectScope w) (scopes w) (rest w).
Definition set_activeEffectScope (s : option ref) (w : World) : World :=
  mkWorld (currentInstance w) (compile w) (instances w) s (scopes w) (rest w).

Definition set_proxy (v : Value) (i : ComponentInternalInstance) :=
  mkInstance (type i) (vnode i) v (scope i) (irender i) (ctx i) (props i)
    (emit i) (setupState i) (setupContext i).
Definition set_render (v : Value) (i : ComponentInternalInstance) :=
  mkInstance (type i) (vnode i) (proxy i) (scope i) v (ctx i) (props i)
    (emit i) (setupState i) (setupContext i).
Definition set_setupState (v : Value) (i : ComponentInternalInstance) :=
  mkInstance (type i) (vnode i) (proxy i) (scope i) (irender i) (ctx i) (props i)
    (emit i) v (setupContext i).
Definition set_setupContext (v : Value) (i : ComponentInternalInstance) :=
  mkInstance (type i) (vnode i) (proxy i) (scope i) (irender i) (ctx i) (props i)
    (emit i) (setupState i) v.

(** Reading the object behind an instance reference. *)
Definition deref (instance : ref) : M ComponentInternalInstance :=
  λ w, match instances w !! instance with
       | Some i => (Normal i, w, [])
       | None => (Throw TypeError, w, [])
       end.

(** An assignment to a field of [instance]. *)
Definition assign (instance : ref)
    (f : ComponentInternalInstance → ComponentInternalInstance) : M unit :=
  modify (λ w, set_instances (alter f instance (instances w)) w).

(** Modelled from the spec: [on()] and [off()] of an Effect Scope,
    "explicit enter/leave of ambient scope without wrapping a callback":
    [on()] makes the scope the ambient one, [off()] hands the ambient
    position back to the scope's parent. *)
Definition EffectScope_on (s : ref) : extern World unit :=
  λ w, (Normal tt, set_activeEffectScope (Some s) w).
Definition EffectScope_off (s : ref) : extern World unit :=
  λ w, (Normal tt, set_activeEffectScope (scopes w !! s ≫= parent) w).

(** [export const getCurrentInstance = () => currentInstance;] *)
Definition getCurrentInstance : M (option ref) := gets currentInstance.

(** [export const setCurrentInstance = (instance) => {
      currentInstance = instance;
      instance.scope.on();
    };] *)
Definition setCurrentInstance (instance : ref) : M unit :=
  modify (set_currentInstance (Some instance)) ;;;
  i <- deref instance ;;
  call (EvScopeOn (scope i)) (EffectScope_on (scope i)).

(** [export const unsetCurrentInstance = () => {
      currentInstance && currentInstance.scope.off();
      currentInstance = null;
    };] *)
Definition unsetCurrentInstance : M unit :=
  cur <- gets currentInstance ;;
  match cur with
  | Some c => i <- deref c ;; call (EvScopeOff (scope i)) (EffectScope_off (scope i))
  | None => ret tt
  end ;;;
  modify (set_currentInstance None).

(** [export function createSetupContext(instance) {
      return { emit: instance.emit };
    }] *)
Definition createSetupContext (instance : ref) : M Value :=
  i <- deref instance ;;
  ret (VSetupContext (emit i)).

(** Truthiness of a string: [if (template)]. *)
Definition nonempty (s : string) : bool :=
  match s with EmptyString => false | _ => true end.

(** [export const setupComponent = (instance) => { ... }] *)
Definition setupComponent (instance : ref) : M unit :=
  i <- deref instance ;;
  let props0 := vprops (vnode i) in
  call (EvInitProps instance) (initProps instance props0) ;;;
  i <- deref instance ;;
  let Component := type i in
  assign instance (set_proxy (VProxy (ctx i))) ;;;
  (* Composition API *)
  match setup Component with
  | Some setup_fn =>
      sc <- createSetupContext instance ;;
      assign instance (set_setupContext sc) ;;;
      setCurrentInstance instance ;;;
      i <- deref instance ;;
      setupResult <- call (EvSetup setup_fn) (apply setup_fn [props i; sc]) ;;
      (if isFunction setupResult then
         assign instance (set_render setupResult)
       else if isObject setupResult then
         (v <- call EvProxyRefs (proxyRefs setupResult) ;;
          assign instance (set_setupState v))
       else ret tt) ;;;
      unsetCurrentInstance
  | None => ret tt
  end ;;;
  c <- gets compile ;;
  match c, render Component with
  | Some compile_fn, None =>
      let template := default EmptyString (template Component) in
      if nonempty template then
        (r <- call (EvCompile compile_fn) (apply compile_fn [VString template]) ;;
         assign instance (set_render r))
      else ret tt
  | _, _ => ret tt
  end ;;;
  (* Options API *)
  setCurrentInstance instance ;;;
  call (EvApplyOptions instance) (applyOptions instance) ;;;
  unsetCurrentInstance.

(** [export function registerRuntimeCompiler(_compile) { compile = _compile; }] *)
Definition registerRuntimeCompiler (_compile : option ref) : M unit :=
  modify (set_compile _compile).
End Component.

(** What outside code called during the set-up phase leaves in place when
    it follows the discipline of the runtime: [currentInstance] is back to
    what it was, and every instance is still there with its [type] and
    its [scope]. *)
Definition frame {X : Type} (w w' : World X) : Prop :=
  currentInstance w' = currentInstance w
  ∧ ∀ k i, instances w !! k = Some i →
      ∃ i', instances w' !! k = Some i' ∧ type i' = type i ∧ scope i' = scope i.

Definition respects_frame {X A : Type} (f : extern (World X) A) : Prop :=
  ∀ w, frame w (f w).2.

Definition returns {X A : Type} (f : extern (World X) A) : Prop :=
  ∀ w, ∃ a, (f w).1 = Normal a.

(** The imported functions and the function values of the program
    follow that discipline, respectively return. *)
Definition externals_respect_frame {X : Type}
    (initProps : ref → Value → extern (World X) unit)
    (applyOptions : ref → extern (World X) unit)
    (proxyRefs : Value → extern (World X) Value)
    (apply : ref → list Value → extern (World X) Value) : Prop :=
  (∀ k v, respects_frame (initProps k v))
  ∧ (∀ k, respects_frame (applyOptions k))
  ∧ (∀ v, respects_frame (proxyRefs v))
  ∧ (∀ f args, respects_frame (apply f args)).

Definition externals_return {X : Type}
    (initProps : ref → Value → extern (World X) unit)
    (applyOptions : ref → extern (World X) unit)
    (proxyRefs : Value → extern (World X) Value)
    (apply : ref → list Value → extern (World X) Value) : Prop :=
  (∀ k v, returns (initProps k v))
  ∧ (∀ k, returns (applyOptions k))
  ∧ (∀ v, returns (proxyRefs v))
  ∧ (∀ f args, returns (apply f args)).

(** ** The set-up phase in the words of its description

    A second reading of [setupComponent], to compare the source with: the
    instance's scope is activated across each of the two parts of the
    phase by a [scope.on()] before the part and a [scope.off()] after
    it. *)
Section as_described.
Context {X : Type}.
#[local] Abbreviation World := (World X).
#[local] Abbreviation M := (M World event).
Variable initProps : ref → Value → extern World unit.
Variable applyOptions : ref → extern World unit.
Variable proxyRefs : Value → extern World Value.
Variable isFunction : Value → bool.
Variable isObject : Value → bool.
Variable apply : ref → list Value → extern World Value.

(** "calling [scope.on()] before" [m] "and [scope.off()] after" [m]
    returns, for the instance [k] and its scope [s], written out on
    worlds.  [m] is started with [k] as the current instance and [s] as
    the ambient scope.  When [m] has returned, the ambient position goes
    to the parent of [s], which is what [off()] does, and no instance is
    current.  When [m] throws, nothing follows it. *)
Definition between_on_and_off {A} (k s : ref) (m : M A) : M A :=
  λ w, match m (set_activeEffectScope (Some s) (set_currentInstance (Some k) w)) with
       | (Normal a, w', l) =>
           (Normal a,
            set_currentInstance None (set_activeEffectScope (scopes w' !! s ≫= parent) w'),
            EvScopeOn s :: l ++ [EvScopeOff s])
       | (Throw e, w', l) => (Throw e, w', EvScopeOn s :: l)
       end.

(** What [setupComponent] does with the result of [setup]. *)
Definition use_setupResult (instance : ref) (setupResult : Value) : M unit :=
  if isFunction setupResult then
    assign instance (set_render setupResult)
  else if isObject setupResult then
    (v <- call EvProxyRefs (proxyRefs setupResult) ;;
     assign instance (set_setupState v))
  else ret tt.

(** The part of [setupComponent] between the Composition API and the
    Options API: the template is compiled if a compiler is registered and
    the component has no [render]. *)
Definition compile_template (instance : ref) (Component : ComponentOptions) : M unit :=
  c <- gets compile ;;
  match c, render Component with
  | Some compile_fn, None =>
      let template := default EmptyString (template Component) in
      if nonempty template then
        (r <- call (EvCompile compile_fn) (apply compile_fn [VString template]) ;;
         assign instance (set_render r))
      else ret tt
  | _, _ => ret tt
  end.

(** The set-up phase of the instance [k], whose fields when the phase
    starts are [i] and whose [setup] function is [f]: [initProps], the
    proxy and the set-up context; then [setup] and the use of its result
    between [on()] and [off()] of the scope of [i]; then the template; then
    [applyOptions] between [on()] and [off()] of the same scope. *)
Definition setup_phase_as_described (k : ref) (i : ComponentInternalInstance)
    (f : ref) : M unit :=
  call (EvInitProps k) (initProps k (vprops (vnode i))) ;;;
  i1 <- deref k ;;
  assign k (set_proxy (VProxy (ctx i1))) ;;;
  sc <- createSetupContext k ;;
  assign k (set_setupContext sc) ;;;
  between_on_and_off k (scope i)
    (i2 <- deref k ;;
     setupResult <- call (EvSetup f) (apply f [props i2; sc]) ;;
     use_setupResult k setupResult) ;;;
  compile_template k (type i) ;;;
  between_on_and_off k (scope i) (call (EvApplyOptions k) (applyOptions k)).

(** The set-up phase of an instance whose component has no [setup]:
    [initProps], the proxy, the template, and [applyOptions] between
    [on()] and [off()] of the scope of [i]. *)
Definition plain_phase_as_described (k : ref) (i : ComponentInternalInstance) : M unit :=
  call (EvInitProps k) (initProps k (vprops (vnode i))) ;;;
  i1 <- deref k ;;
  assign k (set_proxy (VProxy (ctx i1))) ;;;
  compile_template k (type i) ;;;
  between_on_and_off k (scope i) (call (EvApplyOptions k) (applyOptions k)).
End as_described.

(** The calls of one set-up phase of instance [k], with scope [s] and
    [setup] function [f]: [mid1] is what handling the result of [setup]
    calls, [mid2] what compiling the template calls. *)
Definition setup_calls (k s f : ref) (mid1 mid2 : list event) : list event :=
  [EvInitProps k; EvScopeOn s; EvSetup f] ++ mid1 ++ [EvScopeOff s]
  ++ mid2 ++ [EvScopeOn s; EvApplyOptions k; EvScopeOff s].

(** Instance [k] is there with scope [s] and options [ty], and the
    current instance is [cur]. *)
Definition inst_at {X : Type} (k s : ref) (ty : ComponentOptions)
    (cur : option ref) (w : World X) : Prop :=
  currentInstance w = cur
  ∧ ∃ i, instances w !! k = Some i ∧ scope i = s ∧ type i = ty.

(** A component with a [setup] function and a template, its instance
    (number [1], with scope [5]), and a world that holds them and a
    registered compiler. *)
Definition scn_options : ComponentOptions :=
  mkOptions (Some 20%positive) None (Some "<p/>"%string).
Definition scn_instance : ComponentInternalInstance :=
  mkInstance scn_options (mkVNode VNull) VUndefined 5%positive VNull
    (VObject 2%positive) VNull (VFunction 30%positive) VUndefined VNull.
Definition scn_world : World unit :=
  mkWorld None (Some 40%positive) {[ 1%positive := scn_instance ]} None
    {[ 5%positive := mkScope (Some 6%positive) true ]} tt.
(** The same world while instance [1] is the current one. *)
Definition scn_current : World unit :=
  mkWorld (Some 1%positive) (Some 40%positive) {[ 1%positive := scn_instance ]}
    (Some 5%positive) {[ 5%positive := mkScope (Some 6%positive) true ]} tt.

(** Outside code that returns [a] and changes nothing. *)
Definition quiet {X A : Type} (a : A) : extern (World X) A := λ w, (Normal a, w).

(** Imported functions that do nothing, a [proxyRefs] that hands its
    argument back, and function values that all return the object [9]. *)
Definition scn_initProps (k : ref) (v : Value) : extern (World unit) unit := quiet tt.
Definition scn_applyOptions (k : ref) : extern (World unit) unit := quiet tt.
Definition scn_proxyRefs (v : Value) : extern (World unit) Value := quiet v.
Definition scn_apply (f : ref) (args : list Value) : extern (World unit) Value :=
  quiet (VObject 9%positive).

(** [typeof val === 'function'], and
    [val !== null && typeof val === 'object']. *)
Definition scn_isFunction (v : Value) : bool :=
  match v with VFunction _ => true | _ => false end.
Definition scn_isObject (v : Value) : bool :=
  match v with VObject _ | VSetupContext _ | VProxy _ => true | _ => false end.

(** A child component without [setup], its instance (number [3], with
    scope [7], a child of scope [5]), and the world that holds both
    instances. *)
Definition scn_child : ComponentInternalInstance :=
  mkInstance (mkOptions None None None) (mkVNode VNull) VUndefined 7%positive VNull
    (VObject 4%positive) VNull (VFunction 31%positive) VUndefined VNull.
Definition scn_family : World unit :=
  mkWorld None (Some 40%positive)
    {[ 1%positive := scn_instance; 3%positive := scn_child ]} None
    {[ 5%positive := mkScope (Some 6%positive) true;
       7%positive := mkScope (Some 5%positive) true ]} tt.

(** Function values of which the [setup] function [20] sets up the child
    itself, by a set-up phase of instance [3] inside its own, and returns
    [undefined]; the others return the object [9]. *)
Definition scn_nesting (f : ref) (args : list Value) : extern (World unit) Value :=
  λ w, if decide (f = 20%positive) then
         match setupComponent scn_initProps scn_applyOptions scn_proxyRefs
                 scn_isFunction scn_isObject scn_apply 3%positive w with
         | (Normal _, w', _) => (Normal VUndefined, w')
         | (Throw e, w', _) => (Throw e, w')
         end
       else scn_apply f args w.

End Component.

(** How often [x] occurs in [l]. *)
Definition occurrences {A : Type} `{EqDecision A} (x : A) (l : list A) : nat :=
  length (filter (λ y, y = x) l).

(** ** Histories of the [Dep] module *)

(** One step of a program that uses the module.  It either constructs a
    cell, or does anything else: [uid] is private to the module and only
    the constructor assigns it, only the constructor creates cells, and
    nothing in the module assigns [id] after construction. *)
Inductive step {U : Type} : World U → World U → Prop :=
  | step_new w :
      step w (world_after (new_Dep w))
  | step_other w w' :
      uid w' = uid w →
      (∀ r, id <$> heap w' !! r = id <$> heap w !! r) →
      step w w'.

(** The worlds a program can be in. *)
Definition reachable {U : Type} (w : World U) : Prop :=
  ∃ u, rtc step (initial u) w.

(** What every history keeps: the counter stays within [0, 2^53], every
    id is at most the counter and below it unless the counter is stuck,
    and two cells share an id only if the id is [2^53]. *)
Definition uid_inv {U : Type} (w : World U) : Prop :=
  0 ≤ uid w ≤ Number.two53
  ∧ (∀ r o, heap w !! r = Some o →
       0 ≤ id o ≤ uid w ∧ (id o = uid w → uid w = Number.two53))
  ∧ (∀ r1 r2 o1 o2, r1 ≠ r2 → heap w !! r1 = Some o1 → heap w !! r2 = Some o2 →
       id o1 < Number.two53 → id o1 ≠ id o2).

(** [n] constructions in a row. *)
Definition construct_many {U : Type} (n : N) (w : World U) : World U :=
  N.iter n (λ w, world_after (new_Dep w)) w.

(** The world after [2^53] constructions. *)
Definition saturated : World unit :=
  construct_many (Z.to_N Number.two53) (initial tt).

(** ** Invariants that tie cells and effects together *)

(** No target is in two live slots of a cell. *)
Definition no_dup {U : Type} (w : World U) : Prop :=
  ∀ c o, heap w !! c = Some o → NoDup (live (subs o)).

(** An effect that sits in a cell's list has the cell in its link set. *)
Definition tracked {D : Type} (w : World (Store D)) : Prop :=
  ∀ e x c o, effects (user w) !! e = Some x → heap w !! c = Some o →
    Some e ∈ subs o → c ∈ deps x.

(** A cell in an effect's link set exists and lists the effect. *)
Definition linked {D : Type} (w : World (Store D)) : Prop :=
  ∀ e x c, effects (user w) !! e = Some x → c ∈ deps x →
    ∃ o, heap w !! c = Some o ∧ Some e ∈ subs o.

Definition consistent {D : Type} (w : World (Store D)) : Prop :=
  no_dup w ∧ tracked w ∧ linked w.

(** The link set that the effect [e] has after what the lines [seg] of
    the journal tell, if it was [d] before: the start of a run of [e]
    clears it, a read by [e] adds the cell. *)
Fixpoint replay (e : ref) (seg : list entry) (d : gset ref) : gset ref :=
  match seg with
  | [] => d
  | Started e' :: seg => replay e seg (if decide (e' = e) then ∅ else d)
  | ReadBy e' c :: seg => replay e seg (if decide (e' = e) then {[c]} ∪ d else d)
  end.

(** What the effects keep from a world [w] to a later world [w']: the
    tracking context is back to what it was, the journal has grown by
    some lines, and every effect is still there, with its function and
    its flag, and with the link set that these lines tell. *)
Definition evolves {D : Type} (w w' : World (Store D)) : Prop :=
  Dep_target w' = Dep_target w
  ∧ ∃ seg, journal (user w') = journal (user w) ++ seg
      ∧ ∀ e x, effects (user w) !! e = Some x →
          ∃ x', effects (user w') !! e = Some x' ∧ fn x' = fn x
                ∧ active x' = active x ∧ deps x' = replay e seg (deps x).

(** ** A small scenario *)

(** One cell, numbered [1], with the entries [10], [null], [11]; the
    tracking context holds target [7]. *)
Definition scn_cell : Dep := mkDep 0 [Some 10%positive; None; Some 11%positive].
Definition scn_world : World unit :=
  mkWorld 1 (object 7%positive) {[ 1%positive := scn_cell ]} tt.

(** The same world outside of any tracked computation. *)
Definition scn_idle : World unit := set_target null scn_world.

(** Targets whose [addDep] subscribes without looking. *)
Definition scn_addDep (t d : ref) : extern (World unit) unit :=
  untraced (addSub d t).

(** Targets of which number [10], when updated, stops [11] (whose slot in
    cell [1] becomes [null]) and subscribes a new target [12]; the others
    do nothing. *)
Definition scn_update (t : ref) : extern (World unit) unit :=
  λ w, if decide (t = 10%positive) then
         (Normal tt,
          set_heap (alter (λ o, mkDep (id o) (tombstone 11%positive (subs o) ++ [Some 12%positive]))
                      1%positive (heap w)) w)
       else (Normal tt, w).

(** An effect, numbered [7], over a flag: while the flag is set it reads
    cell [1] and clears the flag, afterwards it reads cell [2]. *)
Definition scn_body : body bool :=
  Get (λ flag : bool, if flag then Read 1%positive (Put false Done)
                      else Read 2%positive Done).
Definition scn_effect : Effect bool := mkEffect 0 scn_body ∅ true.
Definition scn_reactive : World (Store bool) :=
  mkWorld 2 undefined
    {[ 1%positive := mkDep 0 []; 2%positive := mkDep 1 [] ]}
    (mkStore {[ 7%positive := scn_effect ]} true []).
(** The same world while the effect is the active target. *)
Definition scn_tracking : World (Store bool) :=
  set_target (object 7%positive) scn_reactive.

(** Two effects: number [7] reads cell [1] and then writes cell [2];
    number [8] reads cell [2], and is linked to it. *)
Definition scn_pair : World (Store bool) :=
  mkWorld 2 undefined
    {[ 1%positive := mkDep 0 []; 2%positive := mkDep 1 [Some 8%positive] ]}
    (mkStore {[ 7%positive := mkEffect 0 (Read 1%positive (Write 2%positive Done)) ∅ true;
                8%positive := mkEffect 1 (Read 2%positive Done) {[ 2%positive ]} true ]}
       true []).

(** An effect, numbered [7], that writes what it has read: while the flag
    is set it clears the flag, reads cell [1], writes cell [1] and reads
    cell [3]; afterwards it reads cell [2]. *)
Definition scn_self_body : body bool :=
  Get (λ flag : bool,
         if flag then Put false (Read 1%positive (Write 1%positive (Read 3%positive Done)))
         else Read 2%positive Done).
Definition scn_self : World (Store bool) :=
  mkWorld 3 undefined
    {[ 1%positive := mkDep 0 []; 2%positive := mkDep 1 []; 3%positive := mkDep 2 [] ]}
    (mkStore {[ 7%positive := mkEffect 0 scn_self_body ∅ true ]} true []).

(** The first cell ever made, and the world with the second one. *)
Definition one_cell : World unit := world_after (new_Dep (initial tt)).
Definition two_cells : World unit := world_after (new_Dep one_cell).

(** A cell whose only live entry is [11], between two [null]s. *)
Definition scn_quiet : World unit :=
  mkWorld 1 null {[ 1%positive := mkDep 0 [None; Some 11%positive; None] ]} tt.

(** ** Further scenarios and notions *)

(** Targets of which number [10] throws when updated; the others do
    nothing. *)
Definition scn_throwing (t : ref) : extern (World unit) unit :=
  λ w, if decide (t = 10%positive) then (Throw "boom"%string, w) else (Normal tt, w).

(** A cell with the live entries [11], [10], [12], in this order. *)
Definition scn_three : World unit :=
  mkWorld 1 null
    {[ 1%positive := mkDep 0 [Some 11%positive; None; Some 10%positive; Some 12%positive] ]} tt.

(** What [m], started in [w], establishes: [Q] if it ends normally, [R]
    if it throws. *)
Definition wpe {W Ev A : Type} (m : M W Ev A)
    (Q : A → W → list Ev → Prop) (R : exn → W → list Ev → Prop) (w : W) : Prop :=
  match m w with
  | (Normal a, w', l) => Q a w' l
  | (Throw e, w', l) => R e w' l
  end.

(** Notions for the set-up phase as a whole. *)
Module ComponentNotions.
Import Component.

(** Outside code that, besides restoring [currentInstance] and keeping
    every instance with its [type] and [scope], leaves the registered
    compiler and the [render] and [setupState] of every instance alone. *)
Definition keeps {X : Type} (w w' : World X) : Prop :=
  currentInstance w' = currentInstance w
  ∧ compile w' = compile w
  ∧ ∀ k i, instances w !! k = Some i →
      ∃ i', instances w' !! k = Some i' ∧ type i' = type i ∧ scope i' = scope i
            ∧ irender i' = irender i ∧ setupState i' = setupState i.

Definition externals_keep {X : Type}
    (initProps : ref → Value → extern (World X) unit)
    (applyOptions : ref → extern (World X) unit)
    (proxyRefs : Value → extern (World X) Value)
    (apply : ref → list Value → extern (World X) Value) : Prop :=
  (∀ k v w, keeps w (initProps k v w).2)
  ∧ (∀ k w, keeps w (applyOptions k w).2)
  ∧ (∀ v w, keeps w (proxyRefs v w).2)
  ∧ (∀ f args w, keeps w (apply f args w).2).

(** [f] returns nothing but [a]. *)
Definition returns_only {X A : Type} (f : extern (World X) A) (a : A) : Prop :=
  ∀ w a' w', f w = (Normal a', w') → a' = a.

(** Instance [k] is there with scope [s], options [ty], render [rv] and
    set-up state [sv]; the current instance is [cur] and the registered
    compiler [cmp]. *)
Definition inst_is {X : Type} (k s : ref) (ty : ComponentOptions)
    (cur cmp : option ref) (rv sv : Value) (w : World X) : Prop :=
  currentInstance w = cur ∧ compile w = cmp
  ∧ ∃ i, instances w !! k = Some i ∧ scope i = s ∧ type i = ty
         ∧ irender i = rv ∧ setupState i = sv.

(** The compiler that [setupComponent] calls, if any: there is one when
    a compiler is registered, the component has no [render] of its own
    and its template is a non-empty string. *)
Definition will_compile (cmp : option ref) (ty : ComponentOptions) : option ref :=
  match cmp, render ty with
  | Some c, None =>
      if nonempty (default EmptyString (template ty)) then Some c else None
  | _, _ => None
  end.

Section expected.
Variable isFunction isObject : Value → bool.
(** What each function value returns, and what [proxyRefs] makes of a value. *)
Variable res : ref → Value.
Variable pr : Value → Value.

(** The calls of the Composition-API part. *)
Definition setup_part (s : ref) (ty : ComponentOptions) : list event :=
  match setup ty with
  | Some f =>
      [EvScopeOn s; EvSetup f]
      ++ (if isFunction (res f) then []
          else if isObject (res f) then [EvProxyRefs] else [])
      ++ [EvScopeOff s]
  | None => []
  end.

(** The calls of the template part. *)
Definition compile_part (cmp : option ref) (ty : ComponentOptions) : list event :=
  match will_compile cmp ty with Some c => [EvCompile c] | None => [] end.

(** [instance.render] at the end, from its value [rv] at the start. *)
Definition render_after (cmp : option ref) (ty : ComponentOptions) (rv : Value) : Value :=
  match will_compile cmp ty with
  | Some c => res c
  | None =>
      match setup ty with
      | Some f => if isFunction (res f) then res f else rv
      | None => rv
      end
  end.

(** [instance.setupState] at the end, from its value [sv] at the start. *)
Definition setupState_after (ty : ComponentOptions) (sv : Value) : Value :=
  match setup ty with
  | Some f =>
      if isFunction (res f) then sv
      else if isObject (res f) then pr (res f) else sv
  | None => sv
  end.
End expected.

(** Function values that throw when called. *)
Definition scn_failing (f : ref) (args : list Value) : extern (World unit) Value :=
  λ w, (Throw "setup failed"%string, w).

(** A component without [setup], [render] or template, and a world with
    an instance of it. *)
Definition scn_plain_options : ComponentOptions := mkOptions None None None.
Definition scn_plain_instance : ComponentInternalInstance :=
  mkInstance scn_plain_options (mkVNode VNull) VUndefined 5%positive VNull
    (VObject 2%positive) VNull (VFunction 30%positive) VUndefined VNull.
Definition scn_plain_world : World unit :=
  mkWorld None (Some 40%positive) {[ 1%positive := scn_plain_instance ]} None
    {[ 5%positive := mkScope (Some 6%positive) true ]} tt.

End ComponentNotions.

(** ** [createComponentInstance] *)

Module Creation.
#[local] Abbreviation Value := Component.Value.

(** [ComponentOptions], by the set-up phase's view of it and the two
    fields read at creation. *)
Module Options.
Record t : Type := mk {
  setup_view : Component.ComponentOptions;
  props : option Value;      (* type.props *)
  emits : option Value;      (* type.emits *)
}.
End Options.

(** [VNode]: [type], [props] and [appContext: AppContext | null]. *)
Module VNode.
Record t : Type := mk {
  type : Options.t;
  props : Value;
  appContext : option ref;
}.
End VNode.

(** [AppContext], by its [provides] object. *)
Module AppContext.
Record t : Type := mk { provides : ref }.
End AppContext.

(** A plain object: its prototype and its own properties, in order. *)
Module Obj.
Record t : Type := mk {
  proto : option ref;
  own : list (string * Value);
}.
End Obj.

(** [ComponentInternalInstance], with all fields of the interface; [null]
    and [null!] fields hold [VNull]. *)
Module Instance.
Record t : Type := mk {
  type : Options.t;
  vnode : ref;
  appContext : ref;
  next : Value;
  proxy : Value;
  effect : Value;
  scope : ref;
  subTree : Value;
  update : Value;
  render : Value;
  provides : ref;
  components : Value;
  propsOptions : Value;
  emitsOptions : Value;
  emit : Value;
  ctx : Value;
  data : Value;
  props : Value;
  setupState : Value;
  setupContext : Value;
  isMounted : bool;
  m : Value;
}.
End Instance.

(** The objects that creation reads and makes, and the rest ([X]). *)
Record World (X : Type) : Type := mkWorld {
  instances : gmap ref Instance.t;
  vnodes : gmap ref VNode.t;
  appContexts : gmap ref AppContext.t;
  objects : gmap ref Obj.t;
  rest : X;
}.
Arguments mkWorld {X} _ _ _ _ _.
Arguments instances {X} _.
Arguments vnodes {X} _.
Arguments appContexts {X} _.
Arguments objects {X} _.
Arguments rest {X} _.

(** The calls creation makes to code outside of the module. *)
Inductive event : Type :=
  | EvCreateAppContext       (* createAppContext() *)
  | EvNewEffectScope.        (* new EffectScope() *)

#[global] Instance event_eq_dec : EqDecision event.
Proof. solve_decision. Defined.

Section Creation.
Context {X : Type}.
#[local] Abbreviation World := (World X).
#[local] Abbreviation M := (M World event).

(** Imported from modules that are not among the files: the two
    constructors, and [emit], of which only [emit.bind(null, instance)] is
    used, the function value that this gives for an instance. *)
Variable createAppContext : extern World ref.
Variable new_EffectScope : extern World ref.
Variable bound_emit : ref → Value.

Definition set_instances (h : gmap ref Instance.t) (w : World) : World :=
  mkWorld h (vnodes w) (appContexts w) (objects w) (rest w).
Definition set_objects (h : gmap ref Obj.t) (w : World) : World :=
  mkWorld (instances w) (vnodes w) (appContexts w) h (rest w).

(** The references in use. *)
Definition used (w : World) : gset ref :=
  dom (instances w) ∪ dom (vnodes w) ∪ dom (appContexts w) ∪ dom (objects w).

Definition deref_vnode (r : ref) : M VNode.t :=
  λ w, match vnodes w !! r with
       | Some v => (Normal v, w, [])
       | None => (Throw TypeError, w, [])
       end.
Definition deref_instance (r : ref) : M Instance.t :=
  λ w, match instances w !! r with
       | Some i => (Normal i, w, [])
       | None => (Throw TypeError, w, [])
       end.
Definition deref_appContext (r : ref) : M AppContext.t :=
  λ w, match appContexts w !! r with
       | Some a => (Normal a, w, [])
       | None => (Throw TypeError, w, [])
       end.

(** A new plain object: an object literal, or [Object.create(proto)]. *)
Definition new_object (o : Obj.t) : M ref :=
  λ w, let r := fresh (used w) in
       (Normal r, set_objects (<[r := o]> (objects w)) w, []).

(** [{}] *)
Definition empty_object : M Value :=
  r <- new_object (Obj.mk None []) ;; ret (Component.VObject r).

(** Truthiness of a value, as [||] tests it: [undefined], [null],
    [false], [0] and the empty string are falsy. *)
Definition truthy_value (v : Value) : bool :=
  match v with
  | Component.VUndefined | Component.VNull => false
  | Component.VBoolean b => b
  | Component.VNumber z => negb (Z.eqb z 0)
  | Component.VString s => negb (String.eqb s EmptyString)
  | _ => true
  end.

(** [x || {}] for an optional property [x]: the value of [x] if it is
    there and truthy, a new empty object otherwise. *)
Definition or_empty_object (x : option Value) : M Value :=
  match x with
  | Some v => if truthy_value v then ret v else empty_object
  | None => empty_object
  end.

(** The object literal of [createComponentInstance] and the two
    assignments after it, for the [type] and [appContext] computed before.
    The fields are evaluated in the order of the literal; the instance
    object itself gets its reference when they are done, which no outside
    code can tell apart from getting it first. *)
Definition build (vnode : ref) (parent : option ref)
    (type : Options.t) (appContext : ref) : M ref :=
  scope <- call EvNewEffectScope new_EffectScope ;;
  provides <- match parent with
              | Some p => pi <- deref_instance p ;; ret (Instance.provides pi)
              | None =>
                  ac <- deref_appContext appContext ;;
                  new_object (Obj.mk (Some (AppContext.provides ac)) [])
              end ;;
  propsOptions <- or_empty_object (Options.props type) ;;
  emitsOptions <- or_empty_object (Options.emits type) ;;
  ctx <- empty_object ;;
  data <- empty_object ;;
  props <- empty_object ;;
  setupState <- empty_object ;;
  instance <- (λ w, let r := fresh (used w) in
                 (Normal r,
                  set_instances
                    (<[r := Instance.mk type vnode appContext Component.VNull
                            Component.VNull Component.VNull scope Component.VNull
                            Component.VNull Component.VNull provides Component.VNull
                            propsOptions emitsOptions Component.VNull ctx data props
                            setupState Component.VNull false Component.VNull]>
                       (instances w)) w, [])) ;;
  (* instance.ctx = { _: instance } *)
  ctx' <- new_object (Obj.mk None [("_"%string, Component.VObject instance)]) ;;
  modify (λ w, set_instances
                 (alter (λ i, Instance.mk (Instance.type i) (Instance.vnode i)
                     (Instance.appContext i) (Instance.next i) (Instance.proxy i)
                     (Instance.effect i) (Instance.scope i) (Instance.subTree i)
                     (Instance.update i) (Instance.render i) (Instance.provides i)
                     (Instance.components i) (Instance.propsOptions i)
                     (Instance.emitsOptions i) (Instance.emit i) (Component.VObject ctx')
                     (Instance.data i) (Instance.props i) (Instance.setupState i)
                     (Instance.setupContext i) (Instance.isMounted i) (Instance.m i))
                    instance (instances w)) w) ;;;
  (* instance.emit = emit.bind(null, instance) *)
  modify (λ w, set_instances
                 (alter (λ i, Instance.mk (Instance.type i) (Instance.vnode i)
                     (Instance.appContext i) (Instance.next i) (Instance.proxy i)
                     (Instance.effect i) (Instance.scope i) (Instance.subTree i)
                     (Instance.update i) (Instance.render i) (Instance.provides i)
                     (Instance.components i) (Instance.propsOptions i)
                     (Instance.emitsOptions i) (bound_emit instance) (Instance.ctx i)
                     (Instance.data i) (Instance.props i) (Instance.setupState i)
                     (Instance.setupContext i) (Instance.isMounted i) (Instance.m i))
                    instance (instances w)) w) ;;;
  ret instance.

(** [export function createComponentInstance(vnode, parent) { ... }] *)
Definition createComponentInstance (vnode : ref) (parent : option ref) : M ref :=
  vn <- deref_vnode vnode ;;
  let type := VNode.type vn in
  (* (parent ? parent.appContext : vnode.appContext) || createAppContext() *)
  found <- match parent with
           | Some p => pi <- deref_instance p ;; ret (Some (Instance.appContext pi))
           | None => ret (VNode.appContext vn)
           end ;;
  appContext <- match found with
                | Some a => ret a
                | None => call EvCreateAppContext createAppContext
                end ;;
  build vnode parent type appContext.
End Creation.

(** The value of an optional property if it is there and truthy. *)
Definition if_truthy (x : option Component.Value) : option Component.Value :=
  match x with
  | Some v => if truthy_value v then Some v else None
  | None => None
  end.

(** Outside code that only adds objects: whatever was there is there
    still, unchanged. *)
Definition extends {X : Type} (w w' : World X) : Prop :=
  instances w ⊆ instances w' ∧ vnodes w ⊆ vnodes w'
  ∧ appContexts w ⊆ appContexts w' ∧ objects w ⊆ objects w'.

(** Outside code that only adds objects, wherever it is called. *)
Definition adds_only {X A : Type} (f : extern (World X) A) : Prop :=
  ∀ w, extends w (f w).2.

(** What a constructor of app contexts returns in [w], if it returns, is
    an app context. *)
Definition makes_appContext {X : Type} (f : extern (World X) ref) (w : World X) : Prop :=
  ∀ a w', f w = (Normal a, w') → is_Some (appContexts w' !! a).

(** The arguments denote objects: the parent if there is one, else the
    vnode's app context if it has one. *)
Definition ready {X : Type} (w : World X) (parent : option ref) (vn : VNode.t) : Prop :=
  match parent with
  | Some p => is_Some (instances w !! p)
  | None => match VNode.appContext vn with
            | Some a => is_Some (appContexts w !! a)
            | None => True
            end
  end.

(** [(parent ? parent.appContext : vnode.appContext) || createAppContext()]
    started in [w] gives [a], leaves the world [w0] and makes the calls
    [l0]. *)
Definition resolved {X : Type} (createAppContext : extern (World X) ref)
    (w : World X) (parent : option ref) (vn : VNode.t)
    (a : ref) (w0 : World X) (l0 : list event) : Prop :=
  match parent with
  | Some p => ∃ pi, instances w !! p = Some pi ∧ a = Instance.appContext pi
                    ∧ w0 = w ∧ l0 = []
  | None => match VNode.appContext vn with
            | Some a' => a = a' ∧ w0 = w ∧ l0 = []
            | None => createAppContext w = (Normal a, w0) ∧ l0 = [EvCreateAppContext]
            end
  end.

(** In [w'] the reference [r] holds the instance that the object literal
    and the two assignments describe, for the vnode, type, app context
    [a] and scope [s]; [w0] is the world in which its fields were read,
    and [u] a set of references against which its new objects are fresh. *)
Definition made {X : Type} (bound_emit : ref → Value) (u : gset ref)
    (w0 w' : World X) (vnode : ref) (parent : option ref) (type : Options.t)
    (a s r : ref) : Prop :=
  ∃ pvd po eo cv dv pv sv,
    instances w' !! r
    = Some (Instance.mk type vnode a Component.VNull Component.VNull
              Component.VNull s Component.VNull Component.VNull
              Component.VNull pvd Component.VNull po eo (bound_emit r)
              (Component.VObject cv) (Component.VObject dv)
              (Component.VObject pv) (Component.VObject sv)
              Component.VNull false Component.VNull)
    ∧ objects w' !! cv = Some (Obj.mk None [("_"%string, Component.VObject r)])
    ∧ objects w' !! dv = Some (Obj.mk None [])
    ∧ objects w' !! pv = Some (Obj.mk None [])
    ∧ objects w' !! sv = Some (Obj.mk None [])
    ∧ NoDup [cv; dv; pv; sv]
    ∧ Forall (λ x, x ∉ u) [cv; dv; pv; sv]
    ∧ match parent with
      | Some p => ∃ pi, instances w0 !! p = Some pi ∧ pvd = Instance.provides pi
      | None => ∃ ac, appContexts w0 !! a = Some ac ∧ (pvd ∉ u)
                      ∧ objects w' !! pvd
                        = Some (Obj.mk (Some (AppContext.provides ac)) [])
      end
    ∧ match if_truthy (Options.props type) with
      | Some v => po = v
      | None => ∃ o, po = Component.VObject o ∧ (o ∉ u)
                     ∧ objects w' !! o = Some (Obj.mk None [])
      end
    ∧ match if_truthy (Options.emits type) with
      | Some v => eo = v
      | None => ∃ o, eo = Component.VObject o ∧ (o ∉ u)
                     ∧ objects w' !! o = Some (Obj.mk None [])
      end.

(** A root vnode (number [1]) without an app context, a child vnode
    (number [2]), an app context (number [3]) with its [provides] object
    (number [4]), and a parent instance (number [5]) with its objects:
    [provides] (number [6], with prototype [4]), the [emits] of its type
    (number [7]; its [props] is [null]) and [propsOptions], [ctx], [data], [props], [setupState]
    (numbers [9] to [13]).  Effect scopes are not among the objects here;
    their numbers ([30] and [31]) are apart. *)
Definition scn_type : Options.t :=
  Options.mk (Component.mkOptions None None None) (Some Component.VNull)
    (Some (Component.VObject 7%positive)).
Definition scn_vnode : VNode.t := VNode.mk scn_type Component.VNull None.
Definition scn_parent : Instance.t :=
  Instance.mk scn_type 1%positive 3%positive Component.VNull Component.VNull
    Component.VNull 31%positive Component.VNull Component.VNull Component.VNull
    6%positive Component.VNull (Component.VObject 9%positive)
    (Component.VObject 7%positive) (Component.VFunction 5%positive)
    (Component.VObject 10%positive)
    (Component.VObject 11%positive) (Component.VObject 12%positive)
    (Component.VObject 13%positive) Component.VNull false Component.VNull.
Definition scn_world : World unit :=
  mkWorld {[ 5%positive := scn_parent ]}
    {[ 1%positive := scn_vnode; 2%positive := scn_vnode ]}
    {[ 3%positive := AppContext.mk 4%positive ]}
    {[ 4%positive := Obj.mk None []; 6%positive := Obj.mk (Some 4%positive) [];
       7%positive := Obj.mk None []; 9%positive := Obj.mk None [];
       10%positive := Obj.mk None [("_"%string, Component.VObject 5%positive)];
       11%positive := Obj.mk None []; 12%positive := Obj.mk None [];
       13%positive := Obj.mk None [] ]}
    tt.

(** A [createAppContext] that returns the app context [3], an
    [EffectScope] constructor that returns the scope [30] and one that
    throws; none of them changes the objects here. *)
Definition scn_createAppContext : extern (World unit) ref :=
  λ w, (Normal 3%positive, w).
Definition scn_new_EffectScope : extern (World unit) ref :=
  λ w, (Normal 30%positive, w).
Definition scn_failing_EffectScope : extern (World unit) ref :=
  λ w, (Throw "no scope"%string, w).
Definition scn_bound_emit (i : ref) : Value := Component.VFunction i.

End Creation.

(** * Properties *)

(** ** The monad *)

Section monad_facts.
Context {W Ev : Type}.
Implicit Types w : W.

Lemma bind_normal {A B} (m : M W Ev A) (k : A → M W Ev B) w a w1 l1 :
  m w = (Normal a, w1, l1) →
  bind m k w = ((k a w1).1.1, (k a w1).1.2, l1 ++ (k a w1).2).
Proof. intros Hm. unfold bind. rewrite Hm. by destruct (k a w1) as [[??]?]. Qed.

Lemma bind_assoc {A B C} (m : M W Ev A) (k : A → M W Ev B) (h : B → M W Ev C) w :
  bind (bind m k) h w = bind m (λ a, bind (k a) h) w.
Proof.
  unfold bind. destruct (m w) as [[[a|e] w1] l1]; [|done].
  destruct (k a w1) as [[[b|e] w2] l2]; [|done].
  destruct (h b w2) as [[r w3] l3]. by rewrite app_assoc.
Qed.

Lemma bind_inv_normal {A B} (m : M W Ev A) (k : A → M W Ev B) w b w2 l :
  bind m k w = (Normal b, w2, l) →
  ∃ a w1 l1 l2, m w = (Normal a, w1, l1) ∧ k a w1 = (Normal b, w2, l2) ∧ l = l1 ++ l2.
Proof.
  unfold bind. destruct (m w) as [[[a|e] w1] l1]; [|done].
  destruct (k a w1) as [[r w2'] l2] eqn:E. intros [= -> -> <-]. by exists a, w1, l1, l2.
Qed.

(** Two continuations that agree after [m] give the same computation. *)
Lemma bind_cong {A B} (m : M W Ev A) (k k' : A → M W Ev B) w :
  (∀ a w1 l1, m w = (Normal a, w1, l1) → k a w1 = k' a w1) →
  bind m k w = bind m k' w.
Proof.
  intros H. unfold bind. destruct (m w) as [[[a|e] w1] l1]; [|done].
  by rewrite (H a w1 l1).
Qed.

Lemma bind_cong_l {A B} (m m' : M W Ev A) (k : A → M W Ev B) w :
  m w = m' w → bind m k w = bind m' k w.
Proof. intros H. unfold bind. by rewrite H. Qed.

(** A step that only computes a value. *)
Lemma bind_det {A B} (m : M W Ev A) (k : A → M W Ev B) w a :
  m w = (Normal a, w, []) → bind m k w = k a w.
Proof. intros H. unfold bind. rewrite H. by destruct (k a w) as [[??]?]. Qed.

(** A [forEach] loop keeps whatever every iteration keeps. *)
Lemma forEach_invariant {A} (P : W → Prop) (cb : A → M W Ev unit) l w :
  (∀ x w0, x ∈ l → P w0 → P (world_after (cb x w0))) →
  P w → P (world_after (forEach l cb w)).
Proof.
  revert w. induction l as [|x l IH]; intros w Hcb Hw; [done|].
  cbn [forEach]. unfold bind.
  specialize (Hcb x w) as Hx. destruct (cb x w) as [[[[]|e] w1] l1] eqn:E.
  - specialize (IH w1). destruct (forEach l cb w1) as [[r w2] l2] eqn:E2.
    unfold world_after in *; cbn in *. apply IH.
    + intros y w0 Hy. apply Hcb. by right.
    + apply Hx; [by left | done].
  - unfold world_after in *; cbn in *. apply Hx; [by left | done].
Qed.

Lemma wp_ret {A} N (a : A) (Q : A → W → list Ev → Prop) w :
  Q a w [] → wp N (ret a) Q w.
Proof. done. Qed.

Lemma wp_gets {A} N (f : W → A) (Q : A → W → list Ev → Prop) w :
  Q (f w) w [] → wp N (gets f) Q w.
Proof. done. Qed.

Lemma wp_modify N (f : W → W) (Q : unit → W → list Ev → Prop) w :
  Q tt (f w) [] → wp N (modify f) Q w.
Proof. done. Qed.

Lemma wp_call {A} N ev (f : extern W A) (Q : A → W → list Ev → Prop) w :
  match f w with
  | (Normal a, w') => Q a w' [ev]
  | (Throw _, _) => ¬ N
  end →
  wp N (call ev f) Q w.
Proof. unfold wp, call. by destruct (f w) as [[a|e] w']. Qed.

Lemma wp_bind {A B} N (m : M W Ev A) (k : A → M W Ev B)
    (Q : B → W → list Ev → Prop) w :
  wp N m (λ a w1 l1, wp N (k a) (λ b w2 l2, Q b w2 (l1 ++ l2)) w1) w →
  wp N (bind m k) Q w.
Proof.
  unfold wp, bind. destruct (m w) as [[[a|e] w1] l1]; [|done].
  by destruct (k a w1) as [[[b|e] w2] l2].
Qed.

Lemma wp_mono {A} N (m : M W Ev A) (Q Q' : A → W → list Ev → Prop) w :
  (∀ a w' l, Q a w' l → Q' a w' l) → wp N m Q w → wp N m Q' w.
Proof. unfold wp. intros HQ. destruct (m w) as [[[a|e] w1] l1]; eauto. Qed.

Lemma wp_inv {A} N (m : M W Ev A) (Q : A → W → list Ev → Prop) w a w1 l1 :
  wp N m Q w → m w = (Normal a, w1, l1) → Q a w1 l1.
Proof. unfold wp. intros H E. by rewrite E in H. Qed.

(** What [wp] says about a run. *)
Lemma wp_normal {A} N (m : M W Ev A) (Q : A → W → list Ev → Prop) w :
  wp N m Q w →
  (∀ a, outcome (m w) = Normal a → Q a (world_after (m w)) (calls (m w)))
  ∧ (N → ∃ a, outcome (m w) = Normal a).
Proof.
  unfold wp, outcome, world_after, calls.
  destruct (m w) as [[[a|e] w1] l1]; cbn; intros H; split.
  - by intros ? [= <-].
  - eauto.
  - done.
  - intros HN. by destruct H.
Qed.
End monad_facts.


(** ** [live] and [Boolean] *)

Lemma filter_Boolean_live (l : list (option ref)) :
  List.filter Boolean l = Some <$> live l.
Proof.
  induction l as [|[t|] l IH]; cbn; [done| |done].
  by rewrite IH.
Qed.

Lemma elem_of_live (l : list (option ref)) t : t ∈ live l ↔ Some t ∈ l.
Proof.
  unfold live. rewrite list_elem_of_omap. split.
  - intros (s & Hs & ->). done.
  - intros H. by exists (Some t).
Qed.

Lemma occurrences_live (l : list (option ref)) t :
  occurrences (EvUpdate t) (EvUpdate <$> live l) = occurrences (Some t) l.
Proof.
  unfold occurrences, live.
  induction l as [|[s|] l IH].
  - done.
  - rewrite filter_cons. change (omap (λ s, s) (Some s :: l)) with (s :: omap (λ s, s) l).
    rewrite fmap_cons, filter_cons. destruct (decide (s = t)) as [->|Hne].
    + rewrite !decide_True by done. cbn [length]. by rewrite IH.
    + rewrite !decide_False by congruence. done.
  - rewrite filter_cons, decide_False by done. done.
Qed.

(** ** [Dep.addSub] *)

Lemma addSub_run {U} (w : World U) d o t :
  heap w !! d = Some o →
  addSub d t w
  = (Normal tt, set_heap (<[d := mkDep (id o) (subs o ++ [Some t])]> (heap w)) w, []).
Proof. intros Hd. unfold addSub, bind, deref, modify. by rewrite Hd. Qed.

(** C6. [addSub(target)] appends [target] at the end of the cell's
    subscriber list, whatever the list holds already, and touches nothing
    else; called twice in a row with the same target it leaves the target
    in the list twice. *)
Theorem addSub_appends_unconditionally {U} (w : World U) d o t :
  heap w !! d = Some o →
  addSub d t w
  = (Normal tt, set_heap (<[d := mkDep (id o) (subs o ++ [Some t])]> (heap w)) w, [])
  ∧ (addSub d t ;;; addSub d t) w
    = (Normal tt,
       set_heap (<[d := mkDep (id o) (subs o ++ [Some t; Some t])]> (heap w)) w, [])
  ∧ occurrences (Some t) (subs o ++ [Some t; Some t]) = S (S (occurrences (Some t) (subs o))).
Proof.
  intros Hd. split; [by apply addSub_run|]. split.
  - unfold bind. rewrite (addSub_run w d o t Hd).
    erewrite addSub_run; last by (cbn; apply lookup_insert_eq).
    cbn. unfold set_heap; cbn. rewrite insert_insert_eq, <- app_assoc. done.
  - unfold occurrences. rewrite filter_app, length_app.
    rewrite !filter_cons, !decide_True by done. cbn. lia.
Qed.

Lemma addSub_appends_unconditionally_witness :
  heap scn_world !! 1%positive = Some scn_cell
  ∧ world_after ((addSub 1%positive 11%positive ;;; addSub 1%positive 11%positive) scn_world)
    = set_heap {[ 1%positive :=
          mkDep 0 [Some 10%positive; None; Some 11%positive; Some 11%positive; Some 11%positive] ]}
        scn_world.
Proof.
  split; [reflexivity|].
  destruct (addSub_appends_unconditionally scn_world 1%positive scn_cell 11%positive)
    as (_ & -> & _); [reflexivity|].
  reflexivity.
Defined.

(** ** [Dep.depend] *)

(** C5. With no active target [depend()] does nothing at all: it
    returns, makes no call, and leaves the whole world, the cell's
    subscriber list included, as it was.  With an active target its one
    action is the call [target.addDep(this)]: exactly that call is made,
    and the completion and the world afterwards are those of the call, so
    the cell's list is changed only if [addDep] changes it. *)
Theorem depend_frame {U} (addDep_of : ref → ref → extern (World U) unit)
    (w : World U) d :
  (truthy (Dep_target w) = false → depend addDep_of d w = (Normal tt, w, []))
  ∧ (∀ t, Dep_target w = object t →
       depend addDep_of d w
       = ((addDep_of t d w).1, (addDep_of t d w).2, [EvAddDep t d])).
Proof.
  split.
  - intros Hf. unfold depend, bind, gets. rewrite Hf. done.
  - intros t Ht. unfold depend, bind, gets, call. rewrite Ht. cbn.
    by destruct (addDep_of t d w).
Qed.

Lemma depend_frame_witness :
  truthy (Dep_target scn_idle) = false
  ∧ Dep_target scn_world = object 7%positive
  ∧ depend scn_addDep 1%positive scn_idle = (Normal tt, scn_idle, [])
  ∧ calls (depend scn_addDep 1%positive scn_world) = [EvAddDep 7%positive 1%positive].
Proof.
  destruct (depend_frame scn_addDep scn_idle 1%positive) as [Hidle _].
  destruct (depend_frame scn_addDep scn_world 1%positive) as [_ Hactive].
  split; [reflexivity|]. split; [reflexivity|]. split.
  - apply Hidle. reflexivity.
  - rewrite (Hactive 7%positive); reflexivity.
Defined.

(** ** [Dep.notify] *)

Section notify_facts.
Context {U : Type} (update_of : ref → extern (World U) unit).
Implicit Types w : World U.

#[local] Abbreviation dispatch := (dispatch update_of).

Lemma notify_dispatch w d o :
  heap w !! d = Some o → notify update_of d w = dispatch (live (subs o)) w.
Proof.
  intros Hd. unfold notify, bind, deref. rewrite Hd, filter_Boolean_live.
  unfold dispatch. by destruct (forEach _ _ w) as [[??]?].
Qed.

Lemma notify_no_cell w d :
  heap w !! d = None → notify update_of d w = (Throw TypeError, w, []).
Proof. intros Hd. unfold notify, bind, deref. by rewrite Hd. Qed.

Lemma dispatch_cons t l w :
  dispatch (t :: l) w
  = match update_of t w with
    | (Normal _, w1) =>
        ((dispatch l w1).1.1, (dispatch l w1).1.2, EvUpdate t :: (dispatch l w1).2)
    | (Throw e, w1) => (Throw e, w1, [EvUpdate t])
    end.
Proof.
  unfold dispatch. cbn. unfold bind, call.
  destruct (update_of t w) as [[[]|e] w1]; [|done].
  by destruct (forEach _ _ w1) as [[??]?].
Qed.

Lemma dispatch_app l1 l2 w :
  dispatch (l1 ++ l2) w = bind (dispatch l1) (λ _, dispatch l2) w.
Proof.
  revert w. induction l1 as [|t l1 IH]; intros w.
  - change ([] ++ l2) with l2. unfold bind.
    change (dispatch [] w) with (@ret (World U) event _ tt w). unfold ret.
    by destruct (dispatch l2 w) as [[??]?].
  - change ((t :: l1) ++ l2) with (t :: (l1 ++ l2)).
    unfold bind. rewrite !dispatch_cons.
    destruct (update_of t w) as [[[]|e] w1]; [|done].
    rewrite IH. unfold bind.
    destruct (dispatch l1 w1) as [[[[]|e1] w2] k1]; cbn; [|done].
    by destruct (dispatch l2 w2) as [[??]?].
Qed.

Lemma dispatch_trace l w :
  calls (dispatch l w) `prefix_of` (EvUpdate <$> l)
  ∧ (outcome (dispatch l w) = Normal tt → calls (dispatch l w) = EvUpdate <$> l)
  ∧ ((∀ t w0, t ∈ l → (update_of t w0).1 = Normal tt) →
     outcome (dispatch l w) = Normal tt).
Proof.
  revert w. induction l as [|t l IH]; intros w.
  - by cbn.
  - rewrite dispatch_cons.
    destruct (update_of t w) as [[[]|e] w1] eqn:Et.
    + destruct (IH w1) as (Hp & Hn & Ha).
      unfold calls, outcome in *; cbn. split; [by apply prefix_cons|]. split.
      * intros Hr. by rewrite Hn.
      * intros Hall. apply Ha. intros t' w0 Ht'. apply Hall. by right.
    + unfold calls, outcome; cbn. split; [|split].
      * apply prefix_cons, prefix_nil.
      * done.
      * intros Hall. specialize (Hall t w (list_elem_of_here _ _)).
        by rewrite Et in Hall.
Qed.

(** The loop is the updates themselves, one after the other. *)
Lemma dispatch_update_each l w :
  dispatch l w
  = (outcome (update_each_in_order update_of l w),
     world_after (update_each_in_order update_of l w),
     EvUpdate <$> calls (update_each_in_order update_of l w)).
Proof.
  revert w. induction l as [|t l IH]; intros w; [done|].
  rewrite dispatch_cons. cbn [update_each_in_order].
  destruct (update_of t w) as [[[]|e] w1]; [|done].
  rewrite IH. by destruct (update_each_in_order update_of l w1) as [[??]?].
Qed.

Lemma dispatch_invariant (P : World U → Prop) l w :
  (∀ t w0, t ∈ l → P w0 → P (update_of t w0).2) →
  P w → P (world_after (dispatch l w)).
Proof.
  intros Hcb. apply forEach_invariant.
  intros [t|] w0 Hx Hw0.
  - apply list_elem_of_fmap in Hx as (t' & [= ->] & Ht').
    unfold invoke_update, call, world_after. specialize (Hcb t' w0 Ht' Hw0).
    by destruct (update_of t' w0).
  - done.
Qed.
End notify_facts.

(** C3. [notify()] invokes [update()] on the entries of the subscriber
    array that are not [null], one invocation per such entry, in the order
    of the array, skipping the [null]s.  What [notify()] does is exactly
    these updates, run one after the other, each in the world the one
    before it left: its completion and final world are theirs, and its
    calls are the targets whose [update()] was started.  So the calls are
    always an initial part of the sequence of live entries, they are the
    whole of it whenever [notify()] returns, and it returns whenever the
    [update()]s do; each target is updated as often as it has slots in
    the array, once if it has one. *)
Theorem notify_updates_live_in_order {U} (update_of : ref → extern (World U) unit)
    (w : World U) d o :
  heap w !! d = Some o →
  notify update_of d w
  = (outcome (update_each_in_order update_of (live (subs o)) w),
     world_after (update_each_in_order update_of (live (subs o)) w),
     EvUpdate <$> calls (update_each_in_order update_of (live (subs o)) w))
  ∧ calls (notify update_of d w) `prefix_of` (EvUpdate <$> live (subs o))
  ∧ (outcome (notify update_of d w) = Normal tt →
       calls (notify update_of d w) = EvUpdate <$> live (subs o)
       ∧ ∀ t, occurrences (EvUpdate t) (calls (notify update_of d w))
              = occurrences (Some t) (subs o))
  ∧ ((∀ t w0, Some t ∈ subs o → (update_of t w0).1 = Normal tt) →
       outcome (notify update_of d w) = Normal tt).
Proof.
  intros Hd. rewrite (notify_dispatch update_of w d o Hd).
  split; [apply dispatch_update_each|].
  destruct (dispatch_trace update_of (live (subs o)) w) as (Hp & Hn & Ha).
  split; [done|]. split.
  - intros Hr. rewrite (Hn Hr). split; [done|]. intros t. apply occurrences_live.
  - intros Hall. apply Ha. intros t w0 Ht. apply Hall. by apply elem_of_live.
Qed.

Lemma notify_updates_live_in_order_witness :
  heap scn_world !! 1%positive = Some scn_cell
  ∧ calls (notify scn_update 1%positive scn_world)
    = [EvUpdate 10%positive; EvUpdate 11%positive]
  ∧ heap (world_after (notify scn_update 1%positive scn_world)) !! 1%positive
    = Some (mkDep 0 [Some 10%positive; None; None; Some 12%positive]).
Proof.
  split; [reflexivity|].
  destruct (notify_updates_live_in_order scn_update scn_world 1%positive scn_cell)
    as (-> & _); [reflexivity|].
  split; reflexivity.
Defined.



(** C9. [notify()] changes nothing by itself.  Whatever every
    [update()] of its live subscribers keeps, [notify()] keeps; if those
    calls leave the world alone, the world after [notify()] is the world
    before it, tombstones and order of the array included; and with no
    live subscriber [notify()] returns at once. *)
Theorem notify_changes_only_through_update {U}
    (update_of : ref → extern (World U) unit) (w : World U) d o :
  heap w !! d = Some o →
  (∀ P : World U → Prop,
     (∀ t w0, Some t ∈ subs o → P w0 → P (update_of t w0).2) →
     P w → P (world_after (notify update_of d w)))
  ∧ ((∀ t w0, Some t ∈ subs o → (update_of t w0).2 = w0) →
     world_after (notify update_of d w) = w)
  ∧ (live (subs o) = [] → notify update_of d w = (Normal tt, w, [])).
Proof.
  intros Hd. rewrite (notify_dispatch update_of w d o Hd).
  assert (∀ P : World U → Prop,
     (∀ t w0, Some t ∈ subs o → P w0 → P (update_of t w0).2) →
     P w → P (world_after (dispatch update_of (live (subs o)) w))) as Hinv.
  { intros P Hcb. apply dispatch_invariant.
    intros t w0 Ht. apply Hcb. by apply elem_of_live. }
  split; [done|]. split.
  - intros Hid. apply (Hinv (λ w', w' = w)); [|done].
    intros t w0 Ht ->. by apply Hid.
  - intros ->. done.
Qed.

Lemma notify_changes_only_through_update_witness :
  heap scn_quiet !! 1%positive = Some (mkDep 0 [None; Some 11%positive; None])
  ∧ world_after (notify scn_update 1%positive scn_quiet) = scn_quiet.
Proof.
  split; [reflexivity|].
  destruct (notify_changes_only_through_update scn_update scn_quiet 1%positive
              (mkDep 0 [None; Some 11%positive; None])) as (_ & Hsame & _);
    [reflexivity|].
  apply Hsame. intros t w0 Ht. unfold scn_update.
  destruct (decide (t = 10%positive)) as [->|]; [|reflexivity].
  apply list_elem_of_In in Ht. cbn in Ht.
  destruct Ht as [?|[?|[?|[]]]]; discriminate.
Defined.

(** ** The counter [uid] *)

Lemma succ_below n : 0 ≤ n < Number.two53 → Number.succ n = n + 1.
Proof. intros Hn. unfold Number.succ, Number.round. rewrite decide_True; lia. Qed.

Lemma succ_at_two53 : Number.succ Number.two53 = Number.two53.
Proof. reflexivity. Qed.

Lemma succ_bounds n :
  0 ≤ n ≤ Number.two53 →
  n ≤ Number.succ n ≤ Number.two53 ∧ (n < Number.two53 → n < Number.succ n).
Proof.
  intros Hn. destruct (decide (n < Number.two53)) as [Hlt|Hge].
  - rewrite succ_below by lia. lia.
  - assert (n = Number.two53) as -> by lia. rewrite succ_at_two53. lia.
Qed.

Section uid_facts.
Context {U : Type}.
Implicit Types w : World U.

Lemma new_Dep_run w :
  new_Dep w
  = (Normal (fresh (dom (heap w))),
     set_heap (<[fresh (dom (heap w)) := mkDep (uid w) []]> (heap w))
       (set_uid (Number.succ (uid w)) w), []).
Proof. done. Qed.

Lemma new_Dep_fresh w : heap w !! fresh (dom (heap w)) = None.
Proof. apply not_elem_of_dom, is_fresh. Qed.


Lemma uid_inv_initial (u : U) : uid_inv (initial u).
Proof.
  unfold uid_inv, initial; cbn. split; [by compute|].
  split; intros *; rewrite ?lookup_empty; done.
Qed.

Lemma uid_inv_new w : uid_inv w → uid_inv (world_after (new_Dep w)).
Proof.
  intros (Hu & Hid & Hne). rewrite new_Dep_run. unfold world_after; cbn.
  pose proof (succ_bounds (uid w) Hu) as [Hs Hlt].
  pose proof (new_Dep_fresh w) as Hfresh.
  unfold uid_inv; cbn. split; [lia|]. split.
  - intros r o. rewrite lookup_insert. case_decide as Hr.
    + intros [= <-]; cbn. split; [lia|]. intros Heq. lia.
    + intros Ho. destruct (Hid r o Ho) as [Hle Hst]. split; [lia|].
      intros Heq. destruct (decide (uid w < Number.two53)); lia.
  - intros r1 r2 o1 o2 Hr. rewrite !lookup_insert.
    repeat case_decide; subst; try done.
    + intros [= <-] Ho2 Hlt1; cbn in *. destruct (Hid r2 o2 Ho2) as [Hle Hst]. lia.
    + intros Ho1 [= <-] Hlt1; cbn in *. destruct (Hid r1 o1 Ho1) as [Hle Hst]. lia.
    + by apply Hne.
Qed.

Lemma uid_inv_step w w' : step w w' → uid_inv w → uid_inv w'.
Proof.
  intros [w0|w0 w1 Huid Hids]; [apply uid_inv_new|].
  intros (Hu & Hid & Hne).
  assert (∀ r o', heap w1 !! r = Some o' → ∃ o, heap w0 !! r = Some o ∧ id o = id o') as Hback.
  { intros r o' Ho'. specialize (Hids r). rewrite Ho' in Hids.
    destruct (heap w0 !! r) as [o|]; [|done]. exists o. by injection Hids as ->. }
  unfold uid_inv. split; [by rewrite Huid|]. split.
  - intros r o' Ho'. destruct (Hback r o' Ho') as (o & Ho & <-). rewrite Huid. eauto.
  - intros r1 r2 o1' o2' Hr Ho1' Ho2'.
    destruct (Hback r1 o1' Ho1') as (o1 & Ho1 & <-).
    destruct (Hback r2 o2' Ho2') as (o2 & Ho2 & <-). eauto.
Qed.

(** What a history adds to the world it starts from. *)
Lemma history_grows w w' :
  rtc step w w' → uid_inv w →
  uid_inv w'
  ∧ uid w ≤ uid w'
  ∧ (∀ r o, heap w !! r = Some o → id <$> heap w' !! r = Some (id o))
  ∧ (∀ r o', heap w !! r = None → heap w' !! r = Some o' → uid w ≤ id o').
Proof.
  intros Hrtc Hw. revert w' Hrtc. apply rtc_ind_r.
  - split; [done|]. split; [lia|]. split.
    + intros r o ->. done.
    + intros r o' -> [=].
  - intros w1 w2 Hrtc Hstep IH.
    destruct IH as (Hinv1 & Hle & Hold & Hnew).
    split; [by eapply uid_inv_step|].
    destruct Hstep as [w0|w0 w1 Huid Hids].
    + rewrite new_Dep_run. unfold world_after; cbn.
      destruct Hinv1 as (Hu & Hid & _).
      pose proof (succ_bounds (uid w0) Hu) as [Hs _].
      pose proof (new_Dep_fresh w0) as Hfresh.
      split; [lia|]. split.
      * intros r o Ho. rewrite lookup_insert. case_decide as Hr; [|eauto].
        subst r. specialize (Hold _ _ Ho). by rewrite Hfresh in Hold.
      * intros r o' Hnone. rewrite lookup_insert. case_decide as Hr; [|eauto].
        intros [= <-]; cbn. done.
    + split; [lia|]. split.
      * intros r o Ho. rewrite Hids. eauto.
      * intros r o' Hnone Ho'. specialize (Hids r). rewrite Ho' in Hids.
        destruct (heap w0 !! r) as [o|] eqn:Ho; [|done].
        injection Hids as ->. eauto.
Qed.

Lemma reachable_inv w : reachable w → uid_inv w.
Proof.
  intros [u Hrtc]. by apply (history_grows _ _ Hrtc), uid_inv_initial.
Qed.

Lemma construct_many_succ n w :
  construct_many (N.succ n) w = world_after (new_Dep (construct_many n w)).
Proof. unfold construct_many. by rewrite N.iter_succ. Qed.

Lemma construct_many_history n w : rtc step w (construct_many n w).
Proof.
  induction n as [|n IH] using N.peano_ind; [done|].
  rewrite construct_many_succ. eapply rtc_r; [exact IH|]. constructor.
Qed.

Lemma construct_many_uid n (u : U) :
  uid (construct_many n (initial u)) = Z.min (Z.of_N n) Number.two53.
Proof.
  induction n as [|n IH] using N.peano_ind; [done|].
  rewrite construct_many_succ, new_Dep_run. unfold world_after; cbn.
  rewrite IH. assert (0 < Number.two53) by done.
  destruct (decide (Z.of_N n < Number.two53)).
  - rewrite Z.min_l by lia. rewrite succ_below by lia. lia.
  - rewrite Z.min_r by lia. rewrite succ_at_two53. lia.
Qed.

(** From a world whose counter is stuck, two constructions in a row give
    two cells with one id. *)
Lemma stuck_counter_repeats w :
  uid w = Number.two53 →
  ∃ d1 d2 o1 o2,
    outcome (new_Dep w) = Normal d1
    ∧ outcome (new_Dep (world_after (new_Dep w))) = Normal d2
    ∧ d1 ≠ d2
    ∧ heap (world_after (new_Dep (world_after (new_Dep w)))) !! d1 = Some o1
    ∧ heap (world_after (new_Dep (world_after (new_Dep w)))) !! d2 = Some o2
    ∧ id o1 = Number.two53 ∧ id o2 = Number.two53.
Proof.
  intros Hu. rewrite !new_Dep_run. unfold world_after, outcome; cbn.
  set (d1 := fresh (dom (heap w))).
  set (d2 := fresh (dom (<[d1 := mkDep (uid w) []]> (heap w)))).
  assert (d1 ≠ d2) as Hne.
  { intros Heq. pose proof (is_fresh (dom (<[d1 := mkDep (uid w) []]> (heap w)))) as Hf.
    fold d2 in Hf. apply Hf. rewrite <- Heq. apply elem_of_dom.
    rewrite lookup_insert_eq. eauto. }
  exists d1, d2, (mkDep (uid w) []), (mkDep (Number.succ (uid w)) []).
  split; [done|]. split; [done|]. split; [done|]. split.
  - rewrite lookup_insert_ne by done. by rewrite lookup_insert_eq.
  - split; [by rewrite lookup_insert_eq|]. cbn. rewrite Hu. done.
Qed.
End uid_facts.

(** C7, as the code has it.  A cell gets its id at construction from the
    module-wide counter, which then moves on by one as long as it is
    below [2^53].  In every world a program can reach, two different
    cells have different ids if one of the ids is below [2^53], and a cell
    made later than another has an id that is at least as great, and
    strictly greater if the earlier id is below [2^53]. *)
Theorem ids_unique_and_increasing_below_two53 {U} (w w' : World U) :
  reachable w → rtc step w w' →
  (∃ d, new_Dep w = (Normal d, world_after (new_Dep w), [])
        ∧ heap w !! d = None
        ∧ heap (world_after (new_Dep w)) !! d = Some (mkDep (uid w) [])
        ∧ uid (world_after (new_Dep w)) = Number.succ (uid w)
        ∧ (uid w < Number.two53 → uid (world_after (new_Dep w)) = uid w + 1))
  ∧ (∀ r1 r2 o1 o2, r1 ≠ r2 → heap w !! r1 = Some o1 → heap w !! r2 = Some o2 →
       id o1 < Number.two53 → id o1 ≠ id o2)
  ∧ (∀ r1 r2 o1 o2, heap w !! r1 = Some o1 → heap w !! r2 = None →
       heap w' !! r2 = Some o2 →
       id o1 ≤ id o2 ∧ (id o1 < Number.two53 → id o1 < id o2)).
Proof.
  intros Hreach Hrtc. pose proof (reachable_inv w Hreach) as Hinv.
  destruct (history_grows w w' Hrtc Hinv) as (_ & _ & _ & Hnew).
  destruct Hinv as (Hu & Hid & Hne). split; [|split].
  - exists (fresh (dom (heap w))). rewrite new_Dep_run. unfold world_after; cbn.
    split; [done|]. split; [apply new_Dep_fresh|].
    split; [by rewrite lookup_insert_eq|]. split; [done|].
    intros Hlt. apply succ_below. lia.
  - exact Hne.
  - intros r1 r2 o1 o2 Ho1 Hnone Ho2.
    destruct (Hid r1 o1 Ho1) as [Hle Hst]. specialize (Hnew r2 o2 Hnone Ho2).
    split; [lia|]. intros Hlt.
    destruct (decide (id o1 = uid w)) as [Heq|Hneq]; [|lia].
    specialize (Hst Heq). lia.
Qed.

Lemma ids_unique_and_increasing_below_two53_witness :
  reachable one_cell
  ∧ rtc step one_cell two_cells
  ∧ heap one_cell !! 1%positive = Some (mkDep 0 [])
  ∧ heap one_cell !! 2%positive = None
  ∧ heap two_cells !! 2%positive = Some (mkDep 1 [])
  ∧ id (mkDep 0 []) < id (mkDep 1 []).
Proof.
  assert (reachable one_cell) as Hreach.
  { exists tt. apply rtc_once. apply step_new. }
  assert (rtc step one_cell two_cells) as Hrtc.
  { apply rtc_once. apply step_new. }
  split; [exact Hreach|]. split; [exact Hrtc|].
  split; [reflexivity|]. split; [reflexivity|]. split; [reflexivity|].
  destruct (ids_unique_and_increasing_below_two53 one_cell two_cells Hreach Hrtc)
    as (_ & _ & Hlater).
  apply (Hlater 1%positive 2%positive); reflexivity.
Defined.

Lemma saturated_uid : uid saturated = Number.two53.
Proof.
  unfold saturated. rewrite construct_many_uid.
  rewrite Z2N.id by done. apply Z.min_id.
Qed.

Lemma saturated_reachable : reachable saturated.
Proof. exists tt. unfold saturated. apply construct_many_history. Qed.

Lemma reachable_new {U} (w : World U) :
  reachable w → reachable (world_after (new_Dep w)).
Proof. intros [u Hrtc]. exists u. eapply rtc_r; [exact Hrtc|]. apply step_new. Qed.

(** C7 fails once [2^53] cells have been made: the counter is stuck at
    [2^53], and the two cells made next are different cells with the same
    id. *)
Lemma ids_repeat_after_two53 :
  reachable (world_after (new_Dep (world_after (new_Dep saturated))))
  ∧ ∃ d1 d2 o1 o2,
      outcome (new_Dep saturated) = Normal d1
      ∧ outcome (new_Dep (world_after (new_Dep saturated))) = Normal d2
      ∧ d1 ≠ d2
      ∧ heap (world_after (new_Dep (world_after (new_Dep saturated)))) !! d1 = Some o1
      ∧ heap (world_after (new_Dep (world_after (new_Dep saturated)))) !! d2 = Some o2
      ∧ id o1 = Number.two53 ∧ id o2 = Number.two53.
Proof.
  split.
  - exact (reachable_new _ (reachable_new _ saturated_reachable)).
  - exact (stuck_counter_repeats saturated saturated_uid).
Qed.

(** ** The current instance *)

Module ComponentFacts.
Import Component.

Section current_instance.
Context {X : Type}.
Implicit Types w : World X.

Lemma set_currentInstance_same w :
  set_currentInstance (currentInstance w) w = w.
Proof. by destruct w. Qed.

Lemma setCurrentInstance_run w k i :
  instances w !! k = Some i →
  setCurrentInstance k w
  = (Normal tt,
     set_activeEffectScope (Some (scope i)) (set_currentInstance (Some k) w),
     [EvScopeOn (scope i)]).
Proof.
  intros Hk. unfold setCurrentInstance, bind, modify, deref, call; cbn.
  by rewrite Hk.
Qed.

Lemma unsetCurrentInstance_null w :
  currentInstance w = None → unsetCurrentInstance w = (Normal tt, w, []).
Proof.
  intros Hc. unfold unsetCurrentInstance, bind, gets, modify. rewrite Hc; cbn.
  by rewrite <- Hc, set_currentInstance_same.
Qed.

Lemma unsetCurrentInstance_run w c i :
  currentInstance w = Some c → instances w !! c = Some i →
  unsetCurrentInstance w
  = (Normal tt,
     set_currentInstance None
       (set_activeEffectScope (scopes w !! scope i ≫= parent) w),
     [EvScopeOff (scope i)]).
Proof.
  intros Hc Hi. unfold unsetCurrentInstance, bind, gets, modify, deref, call.
  rewrite Hc; cbn. by rewrite Hi.
Qed.
End current_instance.

(** C10. [getCurrentInstance] returns the value of [currentInstance] and
    changes nothing.  [unsetCurrentInstance] with an empty slot returns
    with nothing called and nothing changed; with an instance in the slot
    it calls [off()] of that instance's scope, once and nothing else, and
    then clears the slot.  Either way it returns normally and the slot is
    [null] afterwards. *)
Theorem currentInstance_slot {X} (w : World X) :
  getCurrentInstance w = (Normal (currentInstance w), w, [])
  ∧ (currentInstance w = None → unsetCurrentInstance w = (Normal tt, w, []))
  ∧ (∀ c i, currentInstance w = Some c → instances w !! c = Some i →
       unsetCurrentInstance w
       = (Normal tt,
          set_currentInstance None (EffectScope_off (scope i) w).2,
          [EvScopeOff (scope i)]))
  ∧ ((∀ c, currentInstance w = Some c → is_Some (instances w !! c)) →
       outcome (unsetCurrentInstance w) = Normal tt
       ∧ currentInstance (world_after (unsetCurrentInstance w)) = None).
Proof.
  split; [done|]. split; [apply unsetCurrentInstance_null|]. split.
  - intros c i Hc Hi. by rewrite (unsetCurrentInstance_run w c i).
  - intros Hlive. destruct (currentInstance w) as [c|] eqn:Hc.
    + destruct (Hlive c eq_refl) as [i Hi].
      by rewrite (unsetCurrentInstance_run w c i).
    + by rewrite unsetCurrentInstance_null.
Qed.

Lemma currentInstance_slot_witness :
  currentInstance (X:=unit) scn_world = None
  ∧ unsetCurrentInstance scn_world = (Normal tt, scn_world, [])
  ∧ currentInstance scn_current = Some 1%positive
  ∧ instances scn_current !! 1%positive = Some scn_instance
  ∧ unsetCurrentInstance scn_current
    = (Normal tt,
       mkWorld None (Some 40%positive) {[ 1%positive := scn_instance ]}
         (Some 6%positive) {[ 5%positive := mkScope (Some 6%positive) true ]} tt,
       [EvScopeOff 5%positive]).
Proof.
  destruct (currentInstance_slot scn_world) as (_ & Hnull & _).
  destruct (currentInstance_slot scn_current) as (_ & _ & Hset & _).
  split; [reflexivity|]. split; [apply Hnull; reflexivity|].
  split; [reflexivity|]. split; [reflexivity|].
  rewrite (Hset 1%positive scn_instance); reflexivity.
Defined.

(** ** [setupComponent] *)

Section setup.
Context {X : Type}.
Implicit Types w : World X.
Context (initProps : ref → Value → extern (World X) unit)
        (applyOptions : ref → extern (World X) unit)
        (proxyRefs : Value → extern (World X) Value)
        (isFunction isObject : Value → bool)
        (apply : ref → list Value → extern (World X) Value).
Context (N : Prop).

Lemma wp_deref k s ty cur w (Q : _ → _ → _ → Prop) :
  inst_at k s ty cur w →
  (∀ i, instances w !! k = Some i → scope i = s → type i = ty → Q i w []) →
  wp N (deref k) Q w.
Proof.
  intros (_ & i & Hi & Hs & Ht) HQ. unfold wp, deref. rewrite Hi. by apply HQ.
Qed.

Lemma wp_assign k g s ty cur w (Q : _ → _ → _ → Prop) :
  inst_at k s ty cur w →
  (∀ i, type (g i) = type i ∧ scope (g i) = scope i) →
  (∀ w', inst_at k s ty cur w' → Q tt w' []) →
  wp N (assign k g) Q w.
Proof.
  intros (Hc & i & Hi & Hs & Ht) Hg HQ. apply wp_modify, HQ.
  split; [done|]. exists (g i). cbn. rewrite lookup_alter_eq, Hi. cbn.
  destruct (Hg i) as [-> ->]. done.
Qed.

Lemma wp_extern {A} (ev : event) (f : extern (World X) A) k s ty cur w
    (Q : A → World X → list event → Prop) :
  respects_frame f → (N → returns f) →
  inst_at k s ty cur w →
  (∀ a w', inst_at k s ty cur w' → Q a w' [ev]) →
  wp N (call ev f) Q w.
Proof.
  intros Hf Hr (Hc & i & Hi & Hs & Ht) HQ. apply wp_call.
  destruct (Hf w) as [Hcur Hinst]. destruct (Hinst k i Hi) as (i' & Hi' & Ht' & Hs').
  destruct (f w) as [[a|e] w'] eqn:E; cbn in *.
  - apply HQ. split; [congruence|]. exists i'. split; [done|]. split; congruence.
  - intros HN. destruct (Hr HN w) as [a Ha]. rewrite E in Ha. done.
Qed.

Lemma wp_setCurrentInstance k s ty cur w (Q : _ → _ → _ → Prop) :
  inst_at k s ty cur w →
  (∀ w', inst_at k s ty (Some k) w' → Q tt w' [EvScopeOn s]) →
  wp N (setCurrentInstance k) Q w.
Proof.
  intros (Hc & i & Hi & Hs & Ht) HQ. unfold wp.
  rewrite (setCurrentInstance_run w k i Hi), Hs. apply HQ.
  split; [done|]. by exists i.
Qed.

Lemma wp_unsetCurrentInstance k s ty w (Q : _ → _ → _ → Prop) :
  inst_at k s ty (Some k) w →
  (∀ w', inst_at k s ty None w' → Q tt w' [EvScopeOff s]) →
  wp N unsetCurrentInstance Q w.
Proof.
  intros (Hc & i & Hi & Hs & Ht) HQ. unfold wp.
  rewrite (unsetCurrentInstance_run w k i Hc Hi), Hs. apply HQ.
  split; [done|]. by exists i.
Qed.

Lemma wp_createSetupContext k s ty cur w (Q : _ → _ → _ → Prop) :
  inst_at k s ty cur w →
  (∀ v, Q v w []) →
  wp N (createSetupContext k) Q w.
Proof.
  intros Hw HQ. unfold createSetupContext. apply wp_bind.
  apply (wp_deref k s ty cur); [done|]. intros i _ _ _. apply wp_ret, HQ.
Qed.

Lemma setupComponent_wp k s ty cur f w :
  externals_respect_frame initProps applyOptions proxyRefs apply →
  (N → externals_return initProps applyOptions proxyRefs apply) →
  inst_at k s ty cur w → setup ty = Some f →
  wp N (setupComponent initProps applyOptions proxyRefs isFunction isObject apply k)
    (λ _ w' l,
       currentInstance w' = None
       ∧ ∃ mid1 mid2, l = setup_calls k s f mid1 mid2
           ∧ (mid1 = [] ∨ mid1 = [EvProxyRefs])
           ∧ (mid2 = [] ∨ ∃ c, mid2 = [EvCompile c])) w.
Proof.
  intros (Fi & Fa & Fp & Ff) HN Hw Hsetup.
  assert (∀ g, (g = set_proxy ∨ g = set_render ∨ g = set_setupState ∨ g = set_setupContext) →
               ∀ v i, type (g v i) = type i ∧ scope (g v i) = scope i) as Hset.
  { intros g [->|[->|[->| ->]]] v i; done. }
  assert (N → ∀ k v, returns (initProps k v)) as Ri by (intros H; apply (HN H)).
  assert (N → ∀ k, returns (applyOptions k)) as Ra by (intros H; apply (HN H)).
  assert (N → ∀ v, returns (proxyRefs v)) as Rp by (intros H; apply (HN H)).
  assert (N → ∀ f args, returns (apply f args)) as Rf by (intros H; apply (HN H)).
  clear HN. unfold setupComponent.
  apply wp_bind, (wp_deref k s ty cur); [done|]. intros i1 _ _ _.
  apply wp_bind, (wp_extern _ _ k s ty cur); [done|auto|done|].
  intros [] w1 Hw1.
  apply wp_bind, (wp_deref k s ty cur); [done|]. intros i2 _ _ Hty.
  apply wp_bind, (wp_assign k _ s ty cur); [done|apply Hset; auto|].
  intros w2 Hw2. rewrite Hty, Hsetup.
  apply wp_bind.
  (* Composition API *)
  apply wp_bind, (wp_createSetupContext k s ty cur); [done|]. intros sc.
  apply wp_bind, (wp_assign k _ s ty cur); [done|apply Hset; auto|].
  intros w3 Hw3.
  apply wp_bind, (wp_setCurrentInstance k s ty cur); [done|]. intros w4 Hw4.
  apply wp_bind, (wp_deref k s ty (Some k)); [done|]. intros i3 _ _ _.
  apply wp_bind, (wp_extern _ _ k s ty (Some k)); [done|auto|done|].
  intros setupResult w5 Hw5.
  apply wp_bind.
  apply (wp_mono N _ (λ _ w' l, inst_at k s ty (Some k) w'
                                ∧ (l = [] ∨ l = [EvProxyRefs]))).
  2:{ destruct (isFunction setupResult); [|destruct (isObject setupResult)].
      - apply (wp_assign k _ s ty (Some k)); [done|apply Hset; auto|]. auto.
      - apply wp_bind, (wp_extern _ _ k s ty (Some k)); [done|auto|done|].
        intros v w6 Hw6.
        apply (wp_assign k _ s ty (Some k)); [done|apply Hset; auto|]. auto.
      - apply wp_ret. auto. }
  intros [] w6 mid1 [Hw6 Hmid1].
  apply (wp_unsetCurrentInstance k s ty); [done|]. intros w7 Hw7.
  (* the registered compiler *)
  apply wp_bind, wp_gets.
  apply wp_bind.
  apply (wp_mono N _ (λ _ w' l, inst_at k s ty None w'
                                ∧ (l = [] ∨ ∃ c, l = [EvCompile c]))).
  2:{ destruct (compile w7) as [c|]; [|apply wp_ret; auto].
      destruct (render ty); [apply wp_ret; auto|].
      destruct (nonempty _); [|apply wp_ret; auto].
      apply wp_bind, (wp_extern _ _ k s ty None); [done|auto|done|].
      intros r w8 Hw8.
      apply (wp_assign k _ s ty None); [done|apply Hset; auto|]. eauto. }
  intros [] w8 mid2 [Hw8 Hmid2].
  (* Options API *)
  apply wp_bind, (wp_setCurrentInstance k s ty None); [done|]. intros w9 Hw9.
  apply wp_bind, (wp_extern _ _ k s ty (Some k)); [done|auto|done|].
  intros [] w10 Hw10.
  apply (wp_unsetCurrentInstance k s ty); [done|]. intros w11 [Hcur _].
  split; [done|]. exists mid1, mid2. split; [|done].
  unfold setup_calls. cbn. by rewrite <- !app_assoc.
Qed.
End setup.

Section described.
Context {X : Type}.
Implicit Types w : World X.
Context (initProps : ref → Value → extern (World X) unit)
        (applyOptions : ref → extern (World X) unit)
        (proxyRefs : Value → extern (World X) Value)
        (isFunction isObject : Value → bool)
        (apply : ref → list Value → extern (World X) Value).

(** The pair [setCurrentInstance], [unsetCurrentInstance] around a part
    [m] that leaves the instance current is an [on()] and an [off()] of
    the instance's scope around [m]. *)
Lemma set_unset_between k s ty cur (m : M (World X) event unit) w :
  inst_at k s ty cur w →
  wp False m (λ _ w' _, inst_at k s ty (Some k) w')
    (set_activeEffectScope (Some s) (set_currentInstance (Some k) w)) →
  bind (setCurrentInstance k) (λ _, bind m (λ _, unsetCurrentInstance)) w
  = between_on_and_off k s m w.
Proof.
  intros (Hc & i & Hi & Hs & Ht) Hm. unfold between_on_and_off.
  unfold bind at 1. rewrite (setCurrentInstance_run w k i Hi), Hs.
  unfold wp in Hm. unfold bind.
  destruct (m _) as [[[[]|e] w1] l1]; [|done].
  destruct Hm as (Hc1 & i1 & Hi1 & Hs1 & _).
  by rewrite (unsetCurrentInstance_run w1 k i1 Hc1 Hi1), Hs1.
Qed.

(** The end of the phase: the template, and the Options API between
    [on()] and [off()]. *)
Lemma template_and_options_described k s ty cur w :
  externals_respect_frame initProps applyOptions proxyRefs apply →
  inst_at k s ty cur w →
  (c <- gets compile ;;
   match c, render ty with
   | Some compile_fn, None =>
       let template := default EmptyString (template ty) in
       if nonempty template then
         (r <- call (EvCompile compile_fn) (apply compile_fn [VString template]) ;;
          assign k (set_render r))
       else ret tt
   | _, _ => ret tt
   end ;;;
   setCurrentInstance k ;;;
   call (EvApplyOptions k) (applyOptions k) ;;;
   unsetCurrentInstance) w
  = (compile_template apply k ty ;;;
     between_on_and_off k s (call (EvApplyOptions k) (applyOptions k))) w.
Proof.
  intros (Fi & Fa & Fp & Ff) Hw.
  symmetry. unfold compile_template. rewrite bind_assoc. symmetry.
  apply bind_cong. intros c w6 l6 [= <- <- <-].
  apply bind_cong. intros [] w7 l7 E7.
  assert (inst_at k s ty cur w7) as Hw7.
  { assert (∀ w0 w0' l0, ret (W:=World X) (Ev:=event) tt w0 = (Normal tt, w0', l0) →
                          w0' = w0) as Hret by (by intros ??? [=]).
    destruct (compile w) as [cf|]; [|by rewrite (Hret _ _ _ E7)].
    destruct (render ty); [by rewrite (Hret _ _ _ E7)|].
    cbv zeta in E7. destruct (nonempty _); [|by rewrite (Hret _ _ _ E7)].
    apply bind_inv_normal in E7 as (r & w8 & l8 & l9 & Ec & Ea & _).
    refine (wp_inv False _ (λ _ w' _, inst_at k s ty cur w') w8 tt w7 l9 _ Ea).
    apply (wp_assign False k _ s ty cur); [|done|done].
    refine (wp_inv False _ (λ _ w' _, inst_at k s ty cur w') w r w8 l8 _ Ec).
    apply (wp_extern False _ _ k s ty cur); [done|by intros []|done|done]. }
  apply (set_unset_between k s ty cur); [done|].
  apply (wp_extern False _ _ k s ty (Some k)); [done|by intros []| |done].
  destruct Hw7 as (_ & i7 & ?). split; [done|]. by exists i7.
Qed.

(** The source and its description do the same, if the outside code
    leaves [currentInstance] and the instance's [type] and [scope] as it
    found them. *)
Lemma setupComponent_is_described k i f w :
  externals_respect_frame initProps applyOptions proxyRefs apply →
  instances w !! k = Some i → setup (type i) = Some f →
  setupComponent initProps applyOptions proxyRefs isFunction isObject apply k w
  = setup_phase_as_described initProps applyOptions proxyRefs isFunction isObject apply
      k i f w.
Proof.
  intros Hframe Hi Hsetup. pose proof Hframe as (Fi & Fa & Fp & Ff).
  set (s := scope i). set (ty := type i). set (cur := currentInstance w).
  assert (inst_at k s ty cur w) as Hw by (split; [done|by exists i]).
  assert (∀ A (ev : event) (g : extern (World X) A) c0 w0 a w1 l1,
            respects_frame g → inst_at k s ty c0 w0 →
            call ev g w0 = (Normal a, w1, l1) → inst_at k s ty c0 w1) as Hcall.
  { intros A ev g c0 w0 a w1 l1 Hg Hw0 E.
    refine (wp_inv False _ (λ _ w' _, inst_at k s ty c0 w') w0 a w1 l1 _ E).
    apply (wp_extern False ev g k s ty c0); [done|by intros []|done|done]. }
  assert (∀ g c0 w0 a w1 l1,
            (∀ i, type (g i) = type i ∧ scope (g i) = scope i) → inst_at k s ty c0 w0 →
            assign k g w0 = (Normal a, w1, l1) → inst_at k s ty c0 w1) as Hassign.
  { intros g c0 w0 a w1 l1 Hg Hw0 E.
    refine (wp_inv False _ (λ _ w' _, inst_at k s ty c0 w') w0 a w1 l1 _ E).
    apply (wp_assign False k g s ty c0); done. }
  unfold setupComponent, setup_phase_as_described.
  rewrite (bind_det (deref k) _ w i) by (unfold deref; by rewrite Hi).
  apply bind_cong. intros [] w1 l1 E1.
  pose proof (Hcall _ _ _ _ _ _ _ _ (Fi _ _) Hw E1) as Hw1.
  apply bind_cong. intros i1 w1' l1' E2.
  assert (w1' = w1 ∧ type i1 = ty) as [-> Hty].
  { destruct Hw1 as (_ & i' & Hi' & _ & Ht'). unfold deref in E2. rewrite Hi' in E2.
    by simplify_eq. }
  apply bind_cong. intros [] w2 l2 E3.
  pose proof (Hassign (set_proxy _) _ _ _ _ _ (λ _, conj eq_refl eq_refl) Hw1 E3) as Hw2.
  cbv zeta. rewrite Hty. unfold ty at 1. rewrite Hsetup.
  rewrite bind_assoc. apply bind_cong. intros sc w3 l3 E4.
  assert (w3 = w2) as ->.
  { unfold createSetupContext, bind, deref, ret in E4.
    destruct (instances w2 !! k); by simplify_eq. }
  rewrite bind_assoc. apply bind_cong. intros [] w4 l4 E5.
  pose proof (Hassign (set_setupContext _) _ _ _ _ _ (λ _, conj eq_refl eq_refl) Hw2 E5)
    as Hw4.
  (* the Composition API, between [on()] and [off()] *)
  set (m1 := i2 <- deref k ;;
             setupResult <- call (EvSetup f) (apply f [props i2; sc]) ;;
             use_setupResult proxyRefs isFunction isObject k setupResult).
  assert (wp False m1 (λ _ w' _, inst_at k s ty (Some k) w')
            (set_activeEffectScope (Some s) (set_currentInstance (Some k) w4))) as Hm1.
  { assert (inst_at k s ty (Some k)
              (set_activeEffectScope (Some s) (set_currentInstance (Some k) w4))) as Hon.
    { destruct Hw4 as (_ & i4 & ?). split; [done|]. by exists i4. }
    unfold m1. apply wp_bind, (wp_deref False k s ty (Some k)); [done|]. intros i2 _ _ _.
    apply wp_bind, (wp_extern False _ _ k s ty (Some k)); [done|by intros []|done|].
    intros r w5 Hw5. unfold use_setupResult.
    destruct (isFunction r); [|destruct (isObject r)].
    - apply (wp_assign False k _ s ty (Some k)); done.
    - apply wp_bind, (wp_extern False _ _ k s ty (Some k)); [done|by intros []|done|].
      intros v w6 Hw6. apply (wp_assign False k _ s ty (Some k)); done.
    - by apply wp_ret. }
  etrans.
  { apply bind_cong_l.
    etrans; [|exact (set_unset_between k s ty cur m1 w4 Hw4 Hm1)].
    apply bind_cong. intros [] w5 l5 _. symmetry. unfold m1.
    rewrite bind_assoc. apply bind_cong. intros i2 w6 l6 _.
    by rewrite bind_assoc. }
  apply bind_cong. intros [] w5 l5 E6.
  assert (inst_at k s ty None w5) as Hw5.
  { unfold between_on_and_off in E6. unfold wp in Hm1.
    destruct (m1 _) as [[[[]|e] w'] l']; [|done]. simplify_eq.
    destruct Hm1 as (_ & i' & ?). split; [done|]. by exists i'. }
  by apply (template_and_options_described k s ty None).
Qed.

Lemma setupComponent_plain_is_described k i w :
  externals_respect_frame initProps applyOptions proxyRefs apply →
  instances w !! k = Some i → setup (type i) = None →
  setupComponent initProps applyOptions proxyRefs isFunction isObject apply k w
  = plain_phase_as_described initProps applyOptions apply k i w.
Proof.
  intros Hframe Hi Hsetup. pose proof Hframe as (Fi & Fa & Fp & Ff).
  set (s := scope i). set (ty := type i). set (cur := currentInstance w).
  assert (inst_at k s ty cur w) as Hw by (split; [done|by exists i]).
  unfold setupComponent, plain_phase_as_described.
  rewrite (bind_det (deref k) _ w i) by (unfold deref; by rewrite Hi).
  apply bind_cong. intros [] w1 l1 E1.
  assert (inst_at k s ty cur w1) as Hw1.
  { refine (wp_inv False _ (λ _ w' _, inst_at k s ty cur w') w tt w1 l1 _ E1).
    apply (wp_extern False _ _ k s ty cur); [done|by intros []|done|done]. }
  apply bind_cong. intros i1 w1' l1' E2.
  assert (w1' = w1 ∧ type i1 = ty) as [-> Hty].
  { destruct Hw1 as (_ & i' & Hi' & _ & Ht'). unfold deref in E2. rewrite Hi' in E2.
    by simplify_eq. }
  apply bind_cong. intros [] w2 l2 E3.
  assert (inst_at k s ty cur w2) as Hw2.
  { refine (wp_inv False _ (λ _ w' _, inst_at k s ty cur w') w1 tt w2 l2 _ E3).
    apply (wp_assign False k _ s ty cur); done. }
  cbv zeta. rewrite Hty. unfold ty at 1. rewrite Hsetup.
  rewrite (bind_det (ret tt) _ w2 tt) by done.
  by apply (template_and_options_described k s ty cur).
Qed.

End described.

Lemma quiet_respects_frame {X A} (a : A) : respects_frame (X:=X) (quiet a).
Proof. intros w. split; [done|]. intros k i Hi. by exists i. Qed.

Lemma scn_externals_respect_frame :
  externals_respect_frame scn_initProps scn_applyOptions scn_proxyRefs scn_apply.
Proof. split; [|split; [|split]]; intros; apply quiet_respects_frame. Qed.

(** C8. For an instance whose component has a [setup] function, and
    outside code that leaves [currentInstance] and the instances' [type]
    and [scope] as it found them: [setupComponent] is [initProps], the
    proxy and the set-up context, then [setup] and the use of its result
    between a [scope.on()] and a [scope.off()] of the instance's scope,
    then the compilation of the template if there is one to compile, then
    [applyOptions] between a [scope.on()] and a [scope.off()] of the same
    scope.  [setup], [proxyRefs] and [applyOptions] are started with the
    instance current and its scope ambient, and what they do to the world
    is what the phase does.  So when [setupComponent] returns, the calls
    it made are exactly these, in this order, and no instance is current
    at the end; and it returns whenever the outside code does. *)
Theorem setupComponent_scope_on_off {X}
    (initProps : ref → Value → extern (World X) unit)
    (applyOptions : ref → extern (World X) unit)
    (proxyRefs : Value → extern (World X) Value)
    (isFunction isObject : Value → bool)
    (apply : ref → list Value → extern (World X) Value)
    (w : World X) (k : ref) (i : ComponentInternalInstance) (f : ref) :
  externals_respect_frame initProps applyOptions proxyRefs apply →
  instances w !! k = Some i →
  setup (type i) = Some f →
  setupComponent initProps applyOptions proxyRefs isFunction isObject apply k w
  = setup_phase_as_described initProps applyOptions proxyRefs isFunction isObject apply
      k i f w
  ∧ (outcome (setupComponent initProps applyOptions proxyRefs isFunction isObject apply k w)
     = Normal tt →
     (∃ mid1 mid2,
        calls (setupComponent initProps applyOptions proxyRefs isFunction isObject apply k w)
        = [EvInitProps k; EvScopeOn (scope i); EvSetup f] ++ mid1
          ++ [EvScopeOff (scope i)] ++ mid2
          ++ [EvScopeOn (scope i); EvApplyOptions k; EvScopeOff (scope i)]
        ∧ (mid1 = [] ∨ mid1 = [EvProxyRefs])
        ∧ (mid2 = [] ∨ ∃ c, mid2 = [EvCompile c]))
     ∧ currentInstance
         (world_after (setupComponent initProps applyOptions proxyRefs isFunction isObject apply k w))
       = None)
  ∧ (externals_return initProps applyOptions proxyRefs apply →
     outcome (setupComponent initProps applyOptions proxyRefs isFunction isObject apply k w)
     = Normal tt).
Proof.
  intros Hframe Hi Hsetup.
  split; [by apply setupComponent_is_described|].
  pose proof (setupComponent_wp initProps applyOptions proxyRefs isFunction isObject apply
                (externals_return initProps applyOptions proxyRefs apply)
                k (scope i) (type i) (currentInstance w) f w Hframe (λ H, H)) as Hwp.
  apply wp_normal in Hwp; [|split; [done|by exists i]|done].
  destruct Hwp as [Hpost Hret]. split.
  - intros Hout. destruct (Hpost tt Hout) as (Hcur & mid1 & mid2 & Hcalls & H1 & H2).
    split; [by exists mid1, mid2|done].
  - intros HN. destruct (Hret HN) as [[] Ha]. done.
Qed.

Lemma setupComponent_scope_on_off_witness :
  externals_respect_frame scn_initProps scn_applyOptions scn_proxyRefs scn_apply
  ∧ instances scn_world !! 1%positive = Some scn_instance
  ∧ setup (type scn_instance) = Some 20%positive
  ∧ setupComponent scn_initProps scn_applyOptions scn_proxyRefs
             scn_isFunction scn_isObject scn_apply 1%positive scn_world
    = setup_phase_as_described scn_initProps scn_applyOptions scn_proxyRefs
        scn_isFunction scn_isObject scn_apply 1%positive scn_instance 20%positive scn_world
  ∧ calls (setupComponent scn_initProps scn_applyOptions scn_proxyRefs
             scn_isFunction scn_isObject scn_apply 1%positive scn_world)
    = [EvInitProps 1%positive; EvScopeOn 5%positive; EvSetup 20%positive;
       EvProxyRefs; EvScopeOff 5%positive; EvCompile 40%positive;
       EvScopeOn 5%positive; EvApplyOptions 1%positive; EvScopeOff 5%positive].
Proof.
  split; [exact scn_externals_respect_frame|].
  split; [reflexivity|]. split; [reflexivity|].
  destruct (setupComponent_scope_on_off scn_initProps scn_applyOptions scn_proxyRefs
              scn_isFunction scn_isObject scn_apply scn_world 1%positive scn_instance
              20%positive scn_externals_respect_frame) as [Heq _];
    [reflexivity..|].
  split; [exact Heq|reflexivity].
Defined.

(** C8 as it was stated, without the condition on the outside code,
    fails.  The [setup] function of instance [1] sets up a child by a
    set-up phase of its own; that phase ends with [currentInstance = null],
    so the [unsetCurrentInstance()] after [setup] finds no current instance
    and makes no [scope.off()]: between the call of [setup] and the
    [scope.on()] of the Options API the scope of instance [1] is never
    left, and the phase is not the one described. *)
Lemma nested_setup_skips_scope_off :
  instances scn_family !! 1%positive = Some scn_instance
  ∧ setup (type scn_instance) = Some 20%positive
  ∧ outcome (setupComponent scn_initProps scn_applyOptions scn_proxyRefs
             scn_isFunction scn_isObject scn_nesting 1%positive scn_family) = Normal tt
  ∧ calls (setupComponent scn_initProps scn_applyOptions scn_proxyRefs
             scn_isFunction scn_isObject scn_nesting 1%positive scn_family)
    = [EvInitProps 1%positive; EvScopeOn 5%positive; EvSetup 20%positive;
       EvCompile 40%positive;
       EvScopeOn 5%positive; EvApplyOptions 1%positive; EvScopeOff 5%positive]
  ∧ ¬ (∃ mid1 mid2,
         calls (setupComponent scn_initProps scn_applyOptions scn_proxyRefs
             scn_isFunction scn_isObject scn_nesting 1%positive scn_family)
         = [EvInitProps 1%positive; EvScopeOn 5%positive; EvSetup 20%positive] ++ mid1
           ++ [EvScopeOff 5%positive] ++ mid2
           ++ [EvScopeOn 5%positive; EvApplyOptions 1%positive; EvScopeOff 5%positive])
  ∧ (setupComponent scn_initProps scn_applyOptions scn_proxyRefs
             scn_isFunction scn_isObject scn_nesting 1%positive scn_family)
    ≠ setup_phase_as_described scn_initProps scn_applyOptions scn_proxyRefs
        scn_isFunction scn_isObject scn_nesting 1%positive scn_instance 20%positive
        scn_family.
Proof.
  split; [reflexivity|]. split; [reflexivity|]. split; [reflexivity|].
  split; [reflexivity|]. split.
  - intros (mid1 & mid2 & H).
    change (calls _) with
      [EvInitProps 1%positive; EvScopeOn 5%positive; EvSetup 20%positive;
       EvCompile 40%positive;
       EvScopeOn 5%positive; EvApplyOptions 1%positive; EvScopeOff 5%positive] in H.
    cbn [app] in H. injection H as H.
    destruct mid1 as [|ev mid1]; [discriminate H|].
    apply (f_equal length) in H. cbn [app] in H.
    cbn [length] in H. rewrite !length_app in H. cbn [length] in H.
    rewrite !length_app in H. cbn [length] in H. lia.
  - intros H. apply (f_equal calls) in H. discriminate H.
Qed.

End ComponentFacts.

(** ** Cells and effects *)

Lemma world_after_bind {W Ev A B} (P : W → Prop) (m : M W Ev A) (k : A → M W Ev B) w :
  P (world_after (m w)) →
  (∀ a w1 l1, m w = (Normal a, w1, l1) → P (world_after (k a w1))) →
  P (world_after (bind m k w)).
Proof.
  unfold world_after, bind. destruct (m w) as [[[a|e] w1] l1]; cbn; [|done].
  intros _ Hk. specialize (Hk a w1 l1 eq_refl). by destruct (k a w1) as [[??]?].
Qed.

Lemma elem_of_tombstone e t l : Some t ∈ tombstone e l ↔ Some t ∈ l ∧ t ≠ e.
Proof.
  unfold tombstone. rewrite list_elem_of_fmap. split.
  - intros (s & Hs & Hin). case_decide as Hd; [done|]. subst s.
    split; [done|]. congruence.
  - intros [Hin Hne]. exists (Some t). split; [|done].
    rewrite decide_False; congruence.
Qed.

Lemma tombstone_idemp e l : tombstone e (tombstone e l) = tombstone e l.
Proof.
  unfold tombstone. induction l as [|s l IH]; [done|].
  rewrite !fmap_cons, IH. f_equal. repeat case_decide; congruence.
Qed.

Lemma live_tombstone e l : live (tombstone e l) = filter (λ t, t ≠ e) (live l).
Proof.
  unfold live, tombstone. induction l as [|[t|] l IH]; [done| |done].
  rewrite fmap_cons.
  change (omap (λ s, s) (Some t :: l)) with (t :: omap (λ s, s) l).
  rewrite filter_cons. destruct (decide (t = e)) as [->|Hne].
  - rewrite decide_True by done. rewrite decide_False by (intros H; by apply H).
    exact IH.
  - rewrite decide_False by congruence. rewrite decide_True by done.
    rewrite <- IH. done.
Qed.

Lemma live_snoc l t : live (l ++ [Some t]) = live l ++ [t].
Proof. unfold live. by rewrite omap_app. Qed.

Lemma NoDup_live_tombstone e l : NoDup (live l) → NoDup (live (tombstone e l)).
Proof. rewrite live_tombstone. apply NoDup_filter. Qed.

Lemma NoDup_live_snoc l t : NoDup (live l) → Some t ∉ l → NoDup (live (l ++ [Some t])).
Proof.
  intros Hnd Hnin. rewrite live_snoc. apply NoDup_app. split; [done|]. split.
  - intros t' Ht' ->%list_elem_of_singleton. by apply Hnin, elem_of_live.
  - apply NoDup_singleton.
Qed.

Lemma occurrences_absent {A} `{EqDecision A} (x : A) l :
  x ∉ l → occurrences x l = 0%nat.
Proof.
  unfold occurrences. induction l as [|y l IH]; [done|].
  intros [Hne Hnin]%not_elem_of_cons.
  rewrite filter_cons, decide_False by congruence. by apply IH.
Qed.

Lemma occurrences_NoDup_live l t :
  NoDup (live l) → Some t ∈ l → occurrences (Some t) l = 1%nat.
Proof.
  induction l as [|[s|] l IH]; intros Hnd Hin.
  - by apply elem_of_nil in Hin.
  - change (live (Some s :: l)) with (s :: live l) in Hnd.
    apply NoDup_cons in Hnd as [Hs Hnd].
    unfold occurrences. rewrite filter_cons. destruct (decide (s = t)) as [->|Hne].
    + rewrite decide_True by done. cbn [length]. f_equal.
      apply occurrences_absent. intros Ht. by apply Hs, elem_of_live.
    + rewrite decide_False by congruence. apply IH; [done|].
      apply elem_of_cons in Hin as [[=]|]; [congruence|done].
  - unfold occurrences. rewrite filter_cons, decide_False by done.
    apply IH; [done|]. by apply elem_of_cons in Hin as [[=]|].
Qed.

Lemma replay_app e seg1 seg2 d :
  replay e (seg1 ++ seg2) d = replay e seg2 (replay e seg1 d).
Proof.
  revert d. induction seg1 as [|[e'|e' c] seg1 IH]; intros d; cbn; [done|..]; apply IH.
Qed.

(** Without a new start, the link set only grows, by the cells read. *)
Lemma elem_of_replay e seg d c :
  Started e ∉ seg → (c ∈ replay e seg d ↔ c ∈ d ∨ ReadBy e c ∈ seg).
Proof.
  revert d. induction seg as [|[e'|e' c'] seg IH]; intros d Hno; cbn.
  - rewrite elem_of_nil. tauto.
  - apply not_elem_of_cons in Hno as [Hne Hno].
    rewrite decide_False by congruence. rewrite (IH d Hno), elem_of_cons.
    split; [tauto|]. intros [?|[[=]|?]]; tauto.
  - apply not_elem_of_cons in Hno as [_ Hno]. rewrite (IH _ Hno), elem_of_cons.
    destruct (decide (e' = e)) as [->|Hne].
    + rewrite elem_of_union, elem_of_singleton. split.
      * intros [[->|?]|?]; auto.
      * intros [?|[[= ->]|?]]; auto.
    + split; [tauto|]. intros [?|[[=]|?]]; [tauto|congruence|tauto].
Qed.

Lemma evolves_refl {D} (w : World (Store D)) : evolves w w.
Proof.
  split; [done|]. exists []. split; [by rewrite app_nil_r|].
  intros e x Hx. by exists x.
Qed.

Lemma evolves_trans {D} (w1 w2 w3 : World (Store D)) :
  evolves w1 w2 → evolves w2 w3 → evolves w1 w3.
Proof.
  intros (Ht1 & seg1 & Hj1 & He1) (Ht2 & seg2 & Hj2 & He2).
  split; [congruence|]. exists (seg1 ++ seg2).
  split; [by rewrite Hj2, Hj1, app_assoc|].
  intros e x Hx. destruct (He1 e x Hx) as (x1 & Hx1 & Hf1 & Ha1 & Hd1).
  destruct (He2 e x1 Hx1) as (x2 & Hx2 & Hf2 & Ha2 & Hd2).
  exists x2. split; [done|]. split; [congruence|]. split; [congruence|].
  by rewrite replay_app, <- Hd1.
Qed.


Section effect_facts.
Context {D : Type}.
Implicit Types w : World (Store D).
Implicit Types x : Effect D.

(** What [depend] hands to the target: the effect's own [addDep]. *)
#[local] Abbreviation addDep_ext := (effect_addDep (D:=D)).
(** The invariant behind "at most once". *)
#[local] Abbreviation sound := (λ w, no_dup w ∧ tracked w).

Lemma sound_set_target t w : sound w → sound (set_target t w).
Proof. done. Qed.

Lemma consistent_set_target t w : consistent w → consistent (set_target t w).
Proof. done. Qed.

Lemma sound_set_data d w : sound w → sound (set_data d w).
Proof. done. Qed.

Lemma consistent_set_data d w : consistent w → consistent (set_data d w).
Proof. done. Qed.

Lemma removeSub_run w c e o :
  heap w !! c = Some o →
  removeSub c e w
  = (Normal tt, set_heap (<[c := mkDep (id o) (tombstone e (subs o))]> (heap w)) w, []).
Proof. intros Hc. unfold removeSub, bind, deref, modify. by rewrite Hc. Qed.

Lemma removeSub_no_cell w c e :
  heap w !! c = None → removeSub c e w = (Throw TypeError, w, []).
Proof. intros Hc. unfold removeSub, bind, deref. by rewrite Hc. Qed.

Lemma removeSub_sound w c e : sound w → sound (world_after (removeSub c e w)).
Proof.
  intros [Hnd Htr]. destruct (heap w !! c) as [o|] eqn:Hc.
  2:{ by rewrite removeSub_no_cell. }
  rewrite (removeSub_run w c e o Hc). unfold world_after; cbn. split.
  - intros c' o'. cbn. rewrite lookup_insert. case_decide as Hd.
    + intros [= <-]. cbn. apply NoDup_live_tombstone. by eapply Hnd.
    + apply Hnd.
  - intros e' x' c' o' Hx'. cbn. rewrite lookup_insert. case_decide as Hd.
    + subst c'. intros [= <-]. cbn. intros [Hin _]%elem_of_tombstone.
      by eapply Htr.
    + by apply Htr.
Qed.

(** The loop of [cleanup], when it gets through. *)
Lemma removeSubs_normal cs e w w1 l :
  forEach cs (λ c, removeSub c e) w = (Normal tt, w1, l) →
  l = [] ∧ uid w1 = uid w ∧ Dep_target w1 = Dep_target w ∧ user w1 = user w
  ∧ ∀ c, heap w1 !! c
         = (λ o, if decide (c ∈ cs) then mkDep (id o) (tombstone e (subs o)) else o)
           <$> heap w !! c.
Proof.
  revert w l. induction cs as [|c0 cs IH]; intros w l.
  - intros [= <- <-]. repeat (split; [done|]). intros c.
    destruct (heap w !! c) as [o|]; cbn; [|done].
    rewrite decide_False; [done|]. apply not_elem_of_nil.
  - cbn [forEach]. intros (a & w0 & l1 & l2 & Hrm & Hrest & ->)%bind_inv_normal.
    destruct (heap w !! c0) as [o0|] eqn:Hc0.
    2:{ by rewrite removeSub_no_cell in Hrm. }
    rewrite (removeSub_run w c0 e o0 Hc0) in Hrm. simplify_eq.
    destruct (IH _ _ Hrest) as (-> & Hu & Ht & Hus & Hheap). cbn in Hu, Ht, Hus.
    do 4 (split; [done|]). intros c. rewrite Hheap. cbn.
    rewrite lookup_insert. destruct (decide (c0 = c)) as [<-|Hne].
    + rewrite Hc0. cbn. rewrite (decide_True (P:=c0 ∈ c0 :: cs)) by left.
      destruct (decide (c0 ∈ cs)); cbn; by rewrite ?tombstone_idemp.
    + destruct (heap w !! c) as [o|]; cbn; [|done]. f_equal.
      destruct (decide (c ∈ cs)) as [Hin|Hnin].
      * rewrite decide_True; [done|]. by right.
      * rewrite decide_False; [done|]. rewrite not_elem_of_cons. split; congruence.
Qed.
Lemma addDep_run w e c :
  addDep e c w
  = match effects (user w) !! e with
    | None => (Throw TypeError, w, [])
    | Some x =>
        if decide (c ∈ deps x) then (Normal tt, w, [])
        else
          let w1 := set_effect e (mkEffect (eid x) (fn x) ({[c]} ∪ deps x) (active x)) w in
          match heap w !! c with
          | None => (Throw TypeError, w1, [])
          | Some o =>
              (Normal tt,
               set_heap (<[c := mkDep (id o) (subs o ++ [Some e])]> (heap w)) w1, [])
          end
    end.
Proof.
  unfold addDep, bind at 1, get_effect.
  destruct (effects (user w) !! e) as [x|] eqn:Hx; [|done].
  destruct (decide (c ∈ deps x)) as [Hin|Hnin]; [done|].
  unfold bind, modify. destruct (heap w !! c) as [o|] eqn:Hc.
  - by rewrite (addSub_run _ c o e).
  - unfold addSub, bind, deref. cbn. by rewrite Hc.
Qed.

(** The four ways [addDep] can go. *)
Lemma addDep_cases w e c :
  (effects (user w) !! e = None ∧ addDep e c w = (Throw TypeError, w, []))
  ∨ (∃ x, effects (user w) !! e = Some x ∧ c ∈ deps x
          ∧ addDep e c w = (Normal tt, w, []))
  ∨ (∃ x, effects (user w) !! e = Some x ∧ (c ∉ deps x) ∧ heap w !! c = None
          ∧ addDep e c w
            = (Throw TypeError,
               set_effect e (mkEffect (eid x) (fn x) ({[c]} ∪ deps x) (active x)) w, []))
  ∨ (∃ x o, effects (user w) !! e = Some x ∧ (c ∉ deps x) ∧ heap w !! c = Some o
          ∧ addDep e c w
            = (Normal tt,
               set_heap (<[c := mkDep (id o) (subs o ++ [Some e])]> (heap w))
                 (set_effect e (mkEffect (eid x) (fn x) ({[c]} ∪ deps x) (active x)) w),
               [])).
Proof.
  rewrite addDep_run.
  destruct (effects (user w) !! e) as [x|] eqn:Hx; [|by left].
  right. destruct (decide (c ∈ deps x)) as [Hin|Hnin]; [left; by exists x|].
  right. destruct (heap w !! c) as [o|] eqn:Hc.
  - right. by exists x, o.
  - left. by exists x.
Qed.

Lemma addDep_sound w e c : sound w → sound (world_after (addDep e c w)).
Proof.
  intros [Hnd Htr].
  destruct (addDep_cases w e c)
    as [[_ ->]|[(x & _ & _ & ->)|[(x & Hx & Hnin & Hc & ->)|(x & o & Hx & Hnin & Hc & ->)]]];
    unfold world_after; cbn; [done|done| |].
  - split; [done|]. intros e' x' c' o'. cbn. rewrite lookup_insert.
    destruct (decide (e = e')) as [<-|Hne].
    + intros [= <-] Ho' Hin. cbn. apply elem_of_union_r. by eapply Htr.
    + by apply Htr.
  - split.
    + intros c' o'. cbn. rewrite lookup_insert. destruct (decide (c = c')) as [<-|Hne].
      * intros [= <-]. cbn. apply NoDup_live_snoc; [by eapply Hnd|].
        intros Hin. apply Hnin. by eapply Htr.
      * apply Hnd.
    + intros e' x' c' o'. cbn. rewrite !lookup_insert.
      destruct (decide (e = e')) as [<-|Hne], (decide (c = c')) as [<-|Hnc].
      * intros [= <-] _ _. cbn. apply elem_of_union_l. by apply elem_of_singleton.
      * intros [= <-] Ho' Hin. cbn. apply elem_of_union_r. by eapply Htr.
      * intros Hx' [= <-]. cbn. intros [Hin|Hin]%elem_of_app.
        -- by eapply Htr.
        -- apply list_elem_of_singleton in Hin. congruence.
      * by apply Htr.
Qed.

Lemma addDep_normal w e c x w' l :
  consistent w → effects (user w) !! e = Some x →
  addDep e c w = (Normal tt, w', l) →
  l = [] ∧ consistent w' ∧ Dep_target w' = Dep_target w
  ∧ journal (user w') = journal (user w)
  ∧ effects (user w')
    = <[e := mkEffect (eid x) (fn x) ({[c]} ∪ deps x) (active x)]> (effects (user w)).
Proof.
  intros (Hnd & Htr & Hli) Hx Hrun.
  pose proof (addDep_sound w e c (conj Hnd Htr)) as [Hnd' Htr'].
  rewrite Hrun in Hnd', Htr'. unfold world_after in Hnd', Htr'; cbn in Hnd', Htr'.
  destruct (addDep_cases w e c)
    as [[_ H]|[(x0 & Hx0 & Hin & H)|[(x0 & _ & _ & _ & H)|(x0 & o & Hx0 & Hnin & Hc & H)]]];
    rewrite H in Hrun; simplify_eq.
  - split; [done|]. split; [done|]. split; [done|]. split; [done|].
    assert ({[c]} ∪ deps x = deps x) as ->
      by (by apply subseteq_union_1_L, singleton_subseteq_l).
    symmetry. apply insert_id. by destruct x.
  - split; [done|]. split.
    2:{ done. }
    split; [done|]. split; [done|].
    intros e' x' c'. cbn. rewrite lookup_insert.
    destruct (decide (e = e')) as [<-|Hne].
    + intros [= <-]. cbn. intros [->%elem_of_singleton|Hin]%elem_of_union.
      * rewrite lookup_insert_eq. eexists. split; [done|]. cbn.
        apply elem_of_app. right. by apply list_elem_of_singleton.
      * destruct (Hli e x c' Hx Hin) as (o' & Ho' & Hin').
        rewrite lookup_insert. destruct (decide (c = c')) as [<-|Hnc]; [|eauto].
        eexists. split; [done|]. cbn. apply elem_of_app. left. congruence.
    + intros Hx' Hin. destruct (Hli e' x' c' Hx' Hin) as (o' & Ho' & Hin').
      rewrite lookup_insert. destruct (decide (c = c')) as [<-|Hnc]; [|eauto].
      eexists. split; [done|]. cbn. apply elem_of_app. left. congruence.
Qed.

(** After an [addDep] that went through, the same [addDep] is a no-op. *)
Lemma addDep_again w e c w1 l :
  addDep e c w = (Normal tt, w1, l) →
  l = [] ∧ Dep_target w1 = Dep_target w ∧ addDep e c w1 = (Normal tt, w1, []).
Proof.
  destruct (addDep_cases w e c)
    as [[_ H]|[(x & Hx & Hin & H)|[(x & _ & _ & _ & H)|(x & o & Hx & Hnin & Hc & H)]]];
    rewrite H; intros [= <- <-]; [done|].
  split; [done|]. split; [done|]. rewrite addDep_run.
  change (effects (user (set_heap ?h (set_effect e ?y w))) !! e)
    with (<[e := y]> (effects (user w)) !! e).
  rewrite lookup_insert_eq. change (deps (mkEffect ?a ?b ?d ?f)) with d.
  rewrite decide_True; [done|]. apply elem_of_union_l. by apply elem_of_singleton.
Qed.

(** [Dep.depend] with effects as targets. *)
Lemma depend_effect w c :
  depend addDep_ext c w
  = match Dep_target w with
    | object e => ((addDep e c w).1.1, (addDep e c w).1.2, [EvAddDep e c])
    | _ => (Normal tt, w, [])
    end.
Proof.
  unfold depend, bind, gets, call, effect_addDep, untraced.
  destruct (Dep_target w) as [| |e]; cbn; [done|done|].
  by destruct (addDep e c w) as [[??]?].
Qed.

Lemma depend_sound w c : sound w → sound (world_after (depend addDep_ext c w)).
Proof.
  intros Hw. rewrite depend_effect. destruct (Dep_target w) as [| |e]; [done|done|].
  apply (addDep_sound w e c Hw).
Qed.
Lemma cleanup_run w e :
  cleanup e w
  = match effects (user w) !! e with
    | None => (Throw TypeError, w, [])
    | Some x =>
        bind (forEach (elements (deps x)) (λ c, removeSub c e))
          (λ _, modify (set_effect e (mkEffect (eid x) (fn x) ∅ (active x)))) w
    end.
Proof.
  unfold cleanup, bind at 1, get_effect.
  destruct (effects (user w) !! e) as [x|]; [|done].
  by destruct (bind _ _ w) as [[??]?].
Qed.

Lemma removeSubs_sound cs e w :
  sound w → sound (world_after (forEach cs (λ c, removeSub c e) w)).
Proof.
  apply (forEach_invariant sound). intros c w0 _. apply removeSub_sound.
Qed.

Lemma cleanup_sound w e : sound w → sound (world_after (cleanup e w)).
Proof.
  intros Hw. rewrite cleanup_run.
  destruct (effects (user w) !! e) as [x|] eqn:Hx; [|done].
  apply (world_after_bind sound); [by apply removeSubs_sound|].
  intros [] w1 l1 Hrm. pose proof (removeSubs_sound (elements (deps x)) e w Hw) as Hw1.
  rewrite Hrm in Hw1. destruct Hw1 as [Hnd1 Htr1].
  destruct (removeSubs_normal _ _ _ _ _ Hrm) as (_ & _ & _ & Hus & Hheap).
  unfold world_after, modify; cbn. split; [done|].
  intros e' x' c' o'. cbn. rewrite lookup_insert.
  destruct (decide (e = e')) as [<-|Hne]; [|by apply Htr1].
  intros [= <-] Ho' Hin. cbn. exfalso.
  rewrite Hheap in Ho'. destruct (heap w !! c') as [o|] eqn:Ho; [|done].
  cbn in Ho'. destruct (decide (c' ∈ elements (deps x))) as [Hc'|Hc']; simplify_eq.
  - cbn in Hin. by apply elem_of_tombstone in Hin as [_ ?].
  - apply Hc', elem_of_elements. destruct Hw as [_ Htr]. by eapply Htr.
Qed.

(** A [cleanup] that gets through leaves the effect linked to nothing. *)
Lemma cleanup_normal w e x w' l :
  consistent w → effects (user w) !! e = Some x →
  cleanup e w = (Normal tt, w', l) →
  l = [] ∧ consistent w' ∧ Dep_target w' = Dep_target w
  ∧ journal (user w') = journal (user w)
  ∧ effects (user w') = <[e := mkEffect (eid x) (fn x) ∅ (active x)]> (effects (user w)).
Proof.
  intros (Hnd & Htr & Hli) Hx Hrun.
  pose proof (cleanup_sound w e (conj Hnd Htr)) as [Hnd' Htr'].
  rewrite Hrun in Hnd', Htr'. unfold world_after in Hnd', Htr'; cbn in Hnd', Htr'.
  rewrite cleanup_run, Hx in Hrun.
  apply bind_inv_normal in Hrun as ([] & w1 & l1 & l2 & Hrm & Hmod & ->).
  destruct (removeSubs_normal _ _ _ _ _ Hrm) as (-> & _ & Htg & Hus & Hheap).
  unfold modify in Hmod. simplify_eq. split; [done|]. split.
  2:{ split; [done|]. cbn. by rewrite Hus. }
  split; [done|]. split; [done|].
  intros e' x' c'. cbn. rewrite lookup_insert.
  destruct (decide (e = e')) as [<-|Hne].
  - intros [= <-]. cbn. by intros ?%elem_of_empty.
  - rewrite Hus. intros Hx' Hin. destruct (Hli e' x' c' Hx' Hin) as (o & Ho & Hin').
    rewrite Hheap, Ho. cbn. eexists. split; [done|].
    case_decide; [|done]. cbn. apply elem_of_tombstone. split; congruence.
Qed.

(** [Dep.notify] with effects as targets keeps the invariant, if their
    runs do. *)
Lemma notify_sound (upd : ref → extern (World (Store D)) unit) c w :
  (∀ t w0, sound w0 → sound (upd t w0).2) →
  sound w → sound (world_after (notify upd c w)).
Proof.
  intros Hupd Hw. destruct (heap w !! c) as [o|] eqn:Hc.
  - rewrite (notify_dispatch upd w c o Hc).
    apply (dispatch_invariant upd sound); [|done]. intros t w0 _. apply Hupd.
  - by rewrite notify_no_cell.
Qed.

Lemma exec_sound (rerun : ref → M (World (Store D)) event unit) e b w :
  (∀ e' w0, sound w0 → sound (world_after (rerun e' w0))) →
  sound w → sound (world_after (exec rerun e b w)).
Proof.
  intros Hre. revert w.
  induction b as [|x|c k IH|c k IH|e' k IH|k IH|d k IH]; intros w Hw; cbn [exec].
  - done.
  - done.
  - apply (world_after_bind sound); [done|].
    intros a w0 l0 [= <- <-].
    apply (world_after_bind sound); [by apply depend_sound|].
    intros a' w1 l1 Hdep. apply IH.
    pose proof (depend_sound (note (ReadBy e c) w) c Hw) as H. by rewrite Hdep in H.
  - apply (world_after_bind sound).
    + apply notify_sound; [|done]. intros t w0. apply Hre.
    + intros a w1 l1 Hn. apply IH.
      pose proof (notify_sound (λ t, untraced (rerun t)) c w (λ t w0, Hre t w0) Hw) as H.
      by rewrite Hn in H.
  - apply (world_after_bind sound); [by apply Hre|].
    intros a w1 l1 Hr. apply IH. pose proof (Hre e' w Hw) as H. by rewrite Hr in H.
  - apply (world_after_bind sound); [done|].
    intros a w1 l1 [= <- <- <-]. by apply IH.
  - apply (world_after_bind sound); [by apply sound_set_data|].
    intros a w1 l1 [= <- <-]. by apply IH, sound_set_data.
Qed.

Lemma run_run n w e :
  run (S n) e w
  = match effects (user w) !! e with
    | None => (Throw TypeError, w, [])
    | Some x =>
        if active x then
          bind (modify (note (Started e)))
            (λ _, bind (cleanup e)
               (λ _, bind (gets Dep_target)
                  (λ prev, bind (modify (set_target (object e)))
                     (λ _, finally (exec (run n) e (fn x)) (set_target prev))))) w
        else (Normal tt, w, [])
    end.
Proof.
  cbn [run]. unfold bind at 1, get_effect.
  destruct (effects (user w) !! e) as [x|]; [|done].
  destruct (active x); [|done]. by destruct (bind _ _ w) as [[??]?].
Qed.

Lemma run_sound n w e : sound w → sound (world_after (run n e w)).
Proof.
  revert w e. induction n as [|n IH]; intros w e Hw; [done|].
  rewrite run_run.
  destruct (effects (user w) !! e) as [x|] eqn:Hx; [|done].
  destruct (active x); [|done].
  apply (world_after_bind sound); [done|]. intros [] ? ? [= <- <-].
  apply (world_after_bind sound); [by apply cleanup_sound|].
  intros [] w1 l1 Hcl.
  pose proof (cleanup_sound (note (Started e) w) e Hw) as Hw1. rewrite Hcl in Hw1.
  apply (world_after_bind sound); [done|]. intros prev ? ? [= <- <- <-].
  apply (world_after_bind sound); [done|]. intros [] ? ? [= <- <-].
  pose proof (exec_sound (run n) e (fn x) (set_target (object e) w1)
                (λ e' w0 H0, IH w0 e' H0) Hw1) as Hex.
  unfold finally, world_after in *.
  by destruct (exec (run n) e (fn x) (set_target (object e) w1)) as [[??]?].
Qed.

(** What a run that gets through has done to the effects. *)
#[local] Abbreviation gets_through := (λ (rerun : ref → M (World (Store D)) event unit),
  ∀ e' w0 w1 l0, consistent w0 → rerun e' w0 = (Normal tt, w1, l0) →
                 consistent w1 ∧ evolves w0 w1).

Lemma read_evolves e c w w1 l :
  consistent w → Dep_target w = object e →
  depend addDep_ext c (note (ReadBy e c) w) = (Normal tt, w1, l) →
  consistent w1 ∧ evolves w w1.
Proof.
  intros Hw Ht Hdep. rewrite depend_effect in Hdep.
  change (Dep_target (note _ w)) with (Dep_target w) in Hdep. rewrite Ht in Hdep.
  destruct (addDep e c (note (ReadBy e c) w)) as [[r wa] la] eqn:Hadd.
  cbn in Hdep. simplify_eq.
  destruct (effects (user w) !! e) as [x|] eqn:Hx.
  2:{ rewrite addDep_run in Hadd.
      change (effects (user (note _ w))) with (effects (user w)) in Hadd.
      by rewrite Hx in Hadd. }
  destruct (addDep_normal (note (ReadBy e c) w) e c x w1 la Hw Hx Hadd)
    as (_ & Hw1 & Ht1 & Hj1 & He1).
  split; [done|]. split; [done|]. exists [ReadBy e c]. split; [done|].
  intros e' x0 Hx0. rewrite He1. cbn.
  change (effects (user (note _ w))) with (effects (user w)).
  rewrite lookup_insert. destruct (decide (e = e')) as [<-|Hne].
  - simplify_eq. by eexists.
  - by exists x0.
Qed.

Lemma notify_evolves (rerun : ref → M (World (Store D)) event unit) c w w' l :
  gets_through rerun → consistent w →
  notify (λ t, untraced (rerun t)) c w = (Normal tt, w', l) →
  consistent w' ∧ evolves w w'.
Proof.
  intros Hre Hw Hn. destruct (heap w !! c) as [o|] eqn:Hc.
  2:{ by rewrite notify_no_cell in Hn. }
  rewrite (notify_dispatch _ w c o Hc) in Hn. clear Hc.
  revert w l Hw Hn. induction (live (subs o)) as [|t ts IH]; intros w l Hw Hn.
  - injection Hn as <- <-. split; [done|apply evolves_refl].
  - rewrite dispatch_cons in Hn. unfold untraced in Hn at 1.
    destruct (rerun t w) as [[[[]|x] w1] l1] eqn:Er; cbn in Hn; [|done].
    destruct (dispatch (λ t0, untraced (rerun t0)) ts w1) as [[r2 w2] l2] eqn:Ed.
    cbn in Hn. simplify_eq.
    destruct (Hre t w w1 l1 Hw Er) as [Hw1 He1].
    destruct (IH w1 l2 Hw1 Ed) as [Hw2 He2].
    split; [done|]. by eapply evolves_trans.
Qed.

Lemma exec_evolves (rerun : ref → M (World (Store D)) event unit) e b w w' l :
  gets_through rerun → consistent w → Dep_target w = object e →
  exec rerun e b w = (Normal tt, w', l) →
  consistent w' ∧ evolves w w'.
Proof.
  intros Hre. revert w l.
  induction b as [|x|c k IH|c k IH|e' k IH|k IH|d k IH]; intros w l Hw Ht; cbn [exec].
  - intros [= <- <-]. split; [done|apply evolves_refl].
  - done.
  - intros ([] & w0 & l0 & l0' & [= <- <-] & H & ->)%bind_inv_normal.
    apply bind_inv_normal in H as ([] & w1 & l1 & l2 & Hdep & Hk & ->).
    destruct (read_evolves e c w w1 l1 Hw Ht Hdep) as [Hw1 He1].
    destruct (IH w1 l2 Hw1 (eq_trans (proj1 He1) Ht) Hk) as [Hw2 He2].
    split; [done|]. by eapply evolves_trans.
  - intros ([] & w1 & l1 & l2 & Hn & Hk & ->)%bind_inv_normal.
    destruct (notify_evolves rerun c w w1 l1 Hre Hw Hn) as [Hw1 He1].
    destruct (IH w1 l2 Hw1 (eq_trans (proj1 He1) Ht) Hk) as [Hw2 He2].
    split; [done|]. by eapply evolves_trans.
  - intros ([] & w1 & l1 & l2 & Hr & Hk & ->)%bind_inv_normal.
    destruct (Hre e' w w1 l1 Hw Hr) as [Hw1 He1].
    destruct (IH w1 l2 Hw1 (eq_trans (proj1 He1) Ht) Hk) as [Hw2 He2].
    split; [done|]. by eapply evolves_trans.
  - intros (a & w1 & l1 & l2 & [= <- <- <-] & Hk & ->)%bind_inv_normal.
    by apply (IH (data (user w)) w l2).
  - intros (a & w1 & l1 & l2 & [= <- <-] & Hk & ->)%bind_inv_normal.
    destruct (IH (set_data d w) l2 (consistent_set_data d w Hw) Ht Hk) as [Hw2 He2].
    split; [done|]. exact (evolves_trans w (set_data d w) w' (evolves_refl w) He2).
Qed.

(** A run that gets through: cells and effects agree again, and every
    effect has the link set that the journal tells; the lines of this run
    begin with its own start. *)
Lemma run_spec n e w w' l :
  consistent w → run n e w = (Normal tt, w', l) →
  consistent w' ∧ evolves w w'
  ∧ ∀ x, effects (user w) !! e = Some x → active x = true →
      ∃ seg, journal (user w') = journal (user w) ++ Started e :: seg.
Proof.
  revert e w w' l. induction n as [|n IHn]; intros e w w' l Hw; [done|].
  rewrite run_run. destruct (effects (user w) !! e) as [x|] eqn:Hx; [|done].
  destruct (active x) eqn:Hact.
  2:{ intros [= <- <-]. split; [done|]. split; [apply evolves_refl|].
      intros x0 [= <-]. congruence. }
  intros ([] & w0 & l0 & l0' & [= <- <-] & H & ->)%bind_inv_normal.
  apply bind_inv_normal in H as ([] & w1 & l1 & l2 & Hcl & H & ->).
  destruct (cleanup_normal (note (Started e) w) e x w1 l1 Hw Hx Hcl)
    as (-> & Hw1 & Ht1 & Hj1 & He1).
  apply bind_inv_normal in H as (prev & ? & ? & l3 & [= <- <- <-] & H & ->).
  apply bind_inv_normal in H as ([] & ? & ? & l4 & [= <- <-] & H & ->).
  unfold finally in H.
  destruct (exec (run n) e (fn x) (set_target (object e) w1)) as [[r w2] l5] eqn:Hex.
  simplify_eq.
  destruct (exec_evolves (run n) e (fn x) (set_target (object e) w1) w2 _
              (λ e' w0 w3 l0 H0 H1, let H := IHn e' w0 w3 l0 H0 H1 in
                                     conj (proj1 H) (proj1 (proj2 H)))
              (consistent_set_target _ _ Hw1) eq_refl Hex)
    as (Hw2 & Ht2 & seg & Hj2 & He2).
  cbn in Ht2, Hj2, He2.
  assert (journal (user (set_target (Dep_target w1) w2))
          = journal (user w) ++ Started e :: seg) as Hj.
  { cbn. rewrite Hj2, Hj1. cbn. by rewrite <- app_assoc. }
  split; [by apply consistent_set_target|]. split.
  - split; [exact Ht1|]. exists (Started e :: seg). split; [exact Hj|].
    intros e' x0 Hx0. cbn [replay].
    destruct (decide (e = e')) as [<-|Hne].
    + simplify_eq. destruct (He2 e (mkEffect (eid x) (fn x) ∅ (active x))) as (x' & ?).
      { rewrite He1. apply lookup_insert_eq. }
      by exists x'.
    + destruct (He2 e' x0) as (x' & ?); [|by exists x'].
      rewrite He1. rewrite lookup_insert_ne by done. exact Hx0.
  - intros x0 _ _. by exists seg.
Qed.

(** A run that gets through has executed the wrapped function: it ends
    in the world in which the function ended, started with the effect as
    the active target in the world that the clean-up left. *)
Lemma run_executes n e w w1 l1 x :
  consistent w → effects (user w) !! e = Some x → active x = true →
  run n e w = (Normal tt, w1, l1) →
  ∃ n' w0, n = S n'
    ∧ cleanup e (note (Started e) w) = (Normal tt, w0, [])
    ∧ exec (run n') e (fn x) (set_target (object e) w0)
      = (Normal tt, set_target (object e) w1, l1).
Proof.
  intros Hw Hx Hact. destruct n as [|n]; [done|]. rewrite run_run, Hx, Hact.
  intros ([] & w0 & l0 & l0' & [= <- <-] & H & ->)%bind_inv_normal.
  apply bind_inv_normal in H as ([] & w2 & l2 & l3 & Hcl & H & ->).
  destruct (cleanup_normal (note (Started e) w) e x w2 l2 Hw Hx Hcl)
    as (-> & Hw2 & _).
  apply bind_inv_normal in H as (prev & ? & ? & l4 & [= <- <- <-] & H & ->).
  apply bind_inv_normal in H as ([] & ? & ? & l5 & [= <- <-] & H & ->).
  unfold finally in H.
  destruct (exec (run n) e (fn x) (set_target (object e) w2)) as [[r w3] l6] eqn:Hex.
  simplify_eq.
  destruct (exec_evolves (run n) e (fn x) (set_target (object e) w2) w3 _
              (λ e' w4 w5 l0 H0 H1, let H := run_spec n e' w4 w5 l0 H0 H1 in
                                     conj (proj1 H) (proj1 (proj2 H)))
              (consistent_set_target _ _ Hw2) eq_refl Hex)
    as (_ & Ht3 & _).
  exists n, w2. split; [done|]. split; [done|]. cbn [app]. rewrite Hex.
  do 2 f_equal. destruct w3 as [u t h us]. cbn in Ht3. by subst t.
Qed.

End effect_facts.

Lemma scn_reactive_consistent : consistent scn_reactive.
Proof.
  assert (∀ c o, heap scn_reactive !! c = Some o → subs o = []) as Hempty.
  { intros c o Hc. unfold scn_reactive in Hc; cbn in Hc.
    apply lookup_insert_Some in Hc as [[_ <-]|[_ Hc]]; [done|].
    by apply lookup_singleton_Some in Hc as [_ <-]. }
  assert (∀ e x, effects (user scn_reactive) !! e = Some x → deps x = ∅) as Hnone.
  { intros e x Hx. unfold scn_reactive in Hx; cbn in Hx.
    by apply lookup_singleton_Some in Hx as [_ <-]. }
  split; [|split].
  - intros c o Hc. rewrite (Hempty c o Hc). constructor.
  - intros e x c o _ Hc. rewrite (Hempty c o Hc). by intros ?%elem_of_nil.
  - intros e x c Hx. rewrite (Hnone e x Hx). by intros ?%elem_of_empty.
Qed.

Lemma scn_pair_consistent : consistent scn_pair.
Proof.
  split; [|split].
  - intros c o Hc. unfold scn_pair in Hc; cbn in Hc.
    apply lookup_insert_Some in Hc as [[_ <-]|[_ Hc]]; [constructor|].
    apply lookup_singleton_Some in Hc as [_ <-]. apply NoDup_singleton.
  - intros e x c o Hx Hc. unfold scn_pair in Hx, Hc; cbn in Hx, Hc.
    apply lookup_insert_Some in Hc as [[_ <-]|[_ Hc]]; [by intros ?%elem_of_nil|].
    apply lookup_singleton_Some in Hc as [<- <-]. cbn.
    intros [= ->]%list_elem_of_singleton.
    apply lookup_insert_Some in Hx as [[[=] _]|[_ Hx]].
    apply lookup_singleton_Some in Hx as [_ <-]. by apply elem_of_singleton.
  - intros e x c Hx. unfold scn_pair in Hx; cbn in Hx.
    apply lookup_insert_Some in Hx as [[_ <-]|[_ Hx]]; [by intros ?%elem_of_empty|].
    apply lookup_singleton_Some in Hx as [<- <-]. cbn.
    intros ->%elem_of_singleton. eexists. split; [reflexivity|]. cbn.
    by apply list_elem_of_singleton.
Qed.

Lemma scn_self_consistent : consistent scn_self.
Proof.
  assert (∀ c o, heap scn_self !! c = Some o → subs o = []) as Hempty.
  { intros c o Hc. unfold scn_self in Hc; cbn in Hc.
    apply lookup_insert_Some in Hc as [[_ <-]|[_ Hc]]; [done|].
    apply lookup_insert_Some in Hc as [[_ <-]|[_ Hc]]; [done|].
    by apply lookup_singleton_Some in Hc as [_ <-]. }
  assert (∀ e x, effects (user scn_self) !! e = Some x → deps x = ∅) as Hnone.
  { intros e x Hx. unfold scn_self in Hx; cbn in Hx.
    by apply lookup_singleton_Some in Hx as [_ <-]. }
  split; [|split].
  - intros c o Hc. rewrite (Hempty c o Hc). constructor.
  - intros e x c o _ Hc. rewrite (Hempty c o Hc). by intros ?%elem_of_nil.
  - intros e x c Hx. rewrite (Hnone e x Hx). by intros ?%elem_of_empty.
Qed.




(** C2.  In a world in which no target is in two live slots of a cell
    and every effect in a cell's list has the cell in its link set, these
    two facts stay true under every sequence of [depend()] calls, with
    whatever target is active, and under every run of an effect; so a
    subscriber is never in a cell's list twice.  A second [depend()] on
    the same cell under the same target calls [addDep] again and changes
    nothing. *)
Theorem depend_links_at_most_once {D} (w : World (Store D)) :
  no_dup w → tracked w →
  (∀ cs, no_dup (world_after (forEach cs (depend effect_addDep) w))
         ∧ tracked (world_after (forEach cs (depend effect_addDep) w)))
  ∧ (∀ n e, no_dup (world_after (run n e w)) ∧ tracked (world_after (run n e w)))
  ∧ (∀ c w1 l1, depend effect_addDep c w = (Normal tt, w1, l1) →
       depend effect_addDep c w1 = (Normal tt, w1, l1)).
Proof.
  intros Hnd Htr. split; [|split].
  - intros cs. apply (forEach_invariant (λ w, no_dup w ∧ tracked w)); [|done].
    intros c w0 _. apply depend_sound.
  - intros n e. by apply run_sound.
  - intros c w1 l1. rewrite !depend_effect.
    destruct (Dep_target w) as [| |e] eqn:Ht.
    + intros [= <- <-]. by rewrite Ht.
    + intros [= <- <-]. by rewrite Ht.
    + destruct (addDep e c w) as [[r wa] la] eqn:Hadd. cbn. intros [= -> -> <-].
      destruct (addDep_again w e c w1 la Hadd) as (_ & Ht1 & Hagain).
      by rewrite Ht1, Ht, Hagain.
Qed.

Lemma depend_links_at_most_once_witness :
  no_dup scn_tracking
  ∧ tracked scn_tracking
  ∧ heap (world_after
            (forEach [1%positive; 1%positive; 2%positive; 1%positive]
               (depend effect_addDep) scn_tracking))
    = {[ 1%positive := mkDep 0 [Some 7%positive]; 2%positive := mkDep 1 [Some 7%positive] ]}
  ∧ no_dup (world_after
              (forEach [1%positive; 1%positive; 2%positive; 1%positive]
                 (depend effect_addDep) scn_tracking)).
Proof.
  destruct scn_reactive_consistent as (Hnd & Htr & _).
  split; [exact Hnd|]. split; [exact Htr|]. split; [reflexivity|].
  destruct (depend_links_at_most_once scn_tracking Hnd Htr) as (Hseq & _ & _).
  apply (Hseq [1%positive; 1%positive; 2%positive; 1%positive]).
Defined.

(** The scenario of the effect with a flag, end to end: after its first
    run the effect is listed by cell [1], so [notify()] on that cell
    updates it; that second run reads cell [2] instead, after which cell
    [1] holds a tombstone and a [notify()] on it updates nobody. *)
Example notify_reruns_linked_effects :
  calls (notify (effect_update 1) 1%positive (world_after (run 1 7%positive scn_reactive)))
  = [EvUpdate 7%positive]
  ∧ heap (world_after (notify (effect_update 1) 1%positive
                         (world_after (run 1 7%positive scn_reactive))))
    = {[ 1%positive := mkDep 0 [None]; 2%positive := mkDep 1 [Some 7%positive] ]}
  ∧ calls (notify (effect_update 1) 1%positive
             (world_after (notify (effect_update 1) 1%positive
                             (world_after (run 1 7%positive scn_reactive)))))
    = [].
Proof. repeat split; reflexivity. Qed.

(** * Further properties of the source *)

(** ** [Dep.notify] and [Dep.addSub] together, and a throwing [update()] *)

(** X1. [notify()] has no handler around [sub.update()]: when the
    subscribers before [t] have returned and the [update()] of [t] throws,
    [notify()] throws the same value, in the world that this [update()]
    left, having called the subscribers up to [t] and none after it. *)
Theorem notify_stops_at_first_throw {U} (update_of : ref → extern (World U) unit)
    (w w1 w2 : World U) d o pre t post l1 e :
  heap w !! d = Some o →
  live (subs o) = pre ++ t :: post →
  dispatch update_of pre w = (Normal tt, w1, l1) →
  update_of t w1 = (Throw e, w2) →
  notify update_of d w = (Throw e, w2, (EvUpdate <$> pre) ++ [EvUpdate t])
  ∧ ∀ t', t' ∉ pre → t' ≠ t → EvUpdate t' ∉ calls (notify update_of d w).
Proof.
  intros Hd Hsplit Hpre Ht.
  assert (l1 = EvUpdate <$> pre) as ->.
  { destruct (dispatch_trace update_of pre w) as (_ & Hn & _).
    rewrite Hpre in Hn. by apply Hn. }
  assert (notify update_of d w = (Throw e, w2, (EvUpdate <$> pre) ++ [EvUpdate t])) as Heq.
  { rewrite (notify_dispatch update_of w d o Hd), Hsplit, dispatch_app.
    rewrite (bind_normal _ (λ _, dispatch update_of (t :: post)) w tt w1 _ Hpre).
    rewrite dispatch_cons, Ht. done. }
  split; [done|]. intros t' Hpre' Hne. rewrite Heq. unfold calls; cbn.
  rewrite elem_of_app, list_elem_of_fmap, list_elem_of_singleton.
  intros [(t'' & [= <-] & Hin)|[= <-]]; done.
Qed.

Lemma notify_stops_at_first_throw_witness :
  heap scn_three !! 1%positive
  = Some (mkDep 0 [Some 11%positive; None; Some 10%positive; Some 12%positive])
  ∧ notify scn_throwing 1%positive scn_three
    = (Throw "boom"%string, scn_three, [EvUpdate 11%positive; EvUpdate 10%positive])
  ∧ (EvUpdate 12%positive ∉ calls (notify scn_throwing 1%positive scn_three)).
Proof.
  destruct (notify_stops_at_first_throw scn_throwing scn_three scn_three scn_three
              1%positive (mkDep 0 [Some 11%positive; None; Some 10%positive; Some 12%positive])
              [11%positive] 10%positive [12%positive] [EvUpdate 11%positive] "boom"%string)
    as [Heq Hnot]; [reflexivity..|].
  split; [reflexivity|]. split; [exact Heq|].
  apply Hnot; [|discriminate].
  intros H. apply list_elem_of_In in H. destruct H as [H|[]]. discriminate H.
Defined.

(** X2. A target subscribed with [addSub] is notified from then on, and
    after all subscribers that were there before: the calls of a
    [notify()] that follows [addSub(t)] are always an initial part of the
    updates of the earlier live entries followed by [t], and all of them
    when it returns; and what that [notify()] does is these updates, run
    in this order. *)
Theorem addSub_then_notify {U} (update_of : ref → extern (World U) unit)
    (w : World U) d o t :
  heap w !! d = Some o →
  calls (notify update_of d (world_after (addSub d t w)))
    `prefix_of` (EvUpdate <$> (live (subs o) ++ [t]))
  ∧ (outcome (notify update_of d (world_after (addSub d t w))) = Normal tt →
     calls (notify update_of d (world_after (addSub d t w)))
     = (EvUpdate <$> live (subs o)) ++ [EvUpdate t])
  ∧ notify update_of d (world_after (addSub d t w))
    = (outcome (update_each_in_order update_of (live (subs o) ++ [t])
                  (world_after (addSub d t w))),
       world_after (update_each_in_order update_of (live (subs o) ++ [t])
                      (world_after (addSub d t w))),
       EvUpdate <$> calls (update_each_in_order update_of (live (subs o) ++ [t])
                             (world_after (addSub d t w)))).
Proof.
  intros Hd. rewrite (addSub_run w d o t Hd). unfold world_after at 1 2 3 4 6 8; cbn.
  erewrite notify_dispatch; last by (cbn; apply lookup_insert_eq).
  cbn [subs]. rewrite live_snoc.
  destruct (dispatch_trace update_of (live (subs o) ++ [t])
              (set_heap (<[d := mkDep (id o) (subs o ++ [Some t])]> (heap w)) w))
    as (Hp & Hn & _).
  split; [done|]. split.
  - intros Hout. rewrite (Hn Hout), fmap_app. done.
  - apply dispatch_update_each.
Qed.

Lemma addSub_then_notify_witness :
  heap scn_quiet !! 1%positive = Some (mkDep 0 [None; Some 11%positive; None])
  ∧ calls (notify scn_update 1%positive (world_after (addSub 1%positive 13%positive scn_quiet)))
    = [EvUpdate 11%positive; EvUpdate 13%positive].
Proof.
  split; [reflexivity|].
  destruct (addSub_then_notify scn_update scn_quiet 1%positive
              (mkDep 0 [None; Some 11%positive; None]) 13%positive) as (_ & Hall & _);
    [reflexivity|].
  rewrite Hall; reflexivity.
Defined.

(** ** The constructor and the counter *)

(** X3. After [n] constructions from the loaded module the counter is
    [n], capped at [2^53], and the cell constructed next gets exactly this
    number as its id and starts with no subscribers. *)
Theorem uid_after_n_constructions {U} (n : N) (u : U) :
  uid (construct_many n (initial u)) = Z.min (Z.of_N n) Number.two53
  ∧ ∃ d, outcome (new_Dep (construct_many n (initial u))) = Normal d
         ∧ heap (construct_many n (initial u)) !! d = None
         ∧ heap (world_after (new_Dep (construct_many n (initial u)))) !! d
           = Some (mkDep (Z.min (Z.of_N n) Number.two53) []).
Proof.
  split; [apply construct_many_uid|].
  exists (fresh (dom (heap (construct_many n (initial u))))).
  rewrite new_Dep_run. unfold outcome, world_after; cbn.
  split; [done|]. split; [apply new_Dep_fresh|].
  by rewrite lookup_insert_eq, construct_many_uid.
Qed.

(** X4. Along every history the counter stays between [0] and [2^53] and
    never goes down; every cell's id is a non-negative number that is at
    most the counter; and every cell made after a given moment has an id
    that is at least the counter of that moment. *)
Theorem counter_bounds_ids {U} (w w' : World U) :
  reachable w → rtc step w w' →
  0 ≤ uid w ∧ uid w ≤ uid w' ∧ uid w' ≤ Number.two53
  ∧ (∀ r o, heap w' !! r = Some o → 0 ≤ id o ≤ uid w')
  ∧ (∀ r o', heap w !! r = None → heap w' !! r = Some o' → uid w ≤ id o').
Proof.
  intros Hreach Hrtc. pose proof (reachable_inv w Hreach) as Hinv.
  destruct (history_grows w w' Hrtc Hinv) as ((Hu' & Hid' & _) & Hle & _ & Hnew).
  destruct Hinv as (Hu & _ & _).
  split; [lia|]. split; [done|]. split; [lia|]. split; [|done].
  intros r o Ho. by destruct (Hid' r o Ho).
Qed.

Lemma counter_bounds_ids_witness :
  reachable one_cell
  ∧ rtc step one_cell two_cells
  ∧ uid one_cell = 1 ∧ uid two_cells = 2
  ∧ uid one_cell ≤ uid two_cells.
Proof.
  assert (reachable one_cell) as Hreach.
  { exists tt. apply rtc_once. apply step_new. }
  assert (rtc step one_cell two_cells) as Hrtc.
  { apply rtc_once. apply step_new. }
  split; [exact Hreach|]. split; [exact Hrtc|].
  split; [reflexivity|]. split; [reflexivity|].
  destruct (counter_bounds_ids one_cell two_cells Hreach Hrtc) as (_ & Hle & _).
  exact Hle.
Defined.

(** X5. Constructing a cell makes a new object and touches nothing else:
    the reference returned was not a cell before, every cell that was
    there is unchanged, and so are [Dep.target] and what the targets keep.
    The new cell has no subscriber: [notify()] on it returns at once,
    calling nobody and changing nothing. *)
Theorem new_Dep_fresh_and_silent {U} (update_of : ref → extern (World U) unit)
    (w : World U) :
  ∃ d, outcome (new_Dep w) = Normal d
       ∧ heap w !! d = None
       ∧ (∀ r, r ≠ d → heap (world_after (new_Dep w)) !! r = heap w !! r)
       ∧ Dep_target (world_after (new_Dep w)) = Dep_target w
       ∧ user (world_after (new_Dep w)) = user w
       ∧ notify update_of d (world_after (new_Dep w))
         = (Normal tt, world_after (new_Dep w), []).
Proof.
  exists (fresh (dom (heap w))). rewrite new_Dep_run. unfold outcome, world_after; cbn.
  split; [done|]. split; [apply new_Dep_fresh|]. split.
  { intros r Hr. by rewrite lookup_insert_ne. }
  split; [done|]. split; [done|].
  erewrite notify_dispatch; last by (cbn; apply lookup_insert_eq).
  done.
Qed.

Lemma new_Dep_fresh_and_silent_witness :
  ∃ d, outcome (new_Dep scn_idle) = Normal d ∧ heap scn_idle !! d = None.
Proof.
  destruct (new_Dep_fresh_and_silent scn_update scn_idle) as (d & Hd & Hfresh & _).
  exists d. split; assumption.
Defined.

(** X6. [addSub] is a step that leaves the counter and every id alone:
    it changes the [subs] of its own cell and nothing else, so a world
    reached by a program stays one after any [addSub], and what holds of
    ids along histories holds across subscriptions. *)
Theorem addSub_keeps_ids {U} (w : World U) d t :
  step w (world_after (addSub d t w))
  ∧ uid (world_after (addSub d t w)) = uid w
  ∧ Dep_target (world_after (addSub d t w)) = Dep_target w
  ∧ (∀ r, id <$> heap (world_after (addSub d t w)) !! r = id <$> heap w !! r)
  ∧ (∀ r, r ≠ d → heap (world_after (addSub d t w)) !! r = heap w !! r)
  ∧ (reachable w → reachable (world_after (addSub d t w))).
Proof.
  assert (uid (world_after (addSub d t w)) = uid w
          ∧ Dep_target (world_after (addSub d t w)) = Dep_target w
          ∧ (∀ r, id <$> heap (world_after (addSub d t w)) !! r = id <$> heap w !! r)
          ∧ (∀ r, r ≠ d → heap (world_after (addSub d t w)) !! r = heap w !! r))
    as (Hu & Ht & Hid & Hother).
  { destruct (heap w !! d) as [o|] eqn:Hd.
    - rewrite (addSub_run w d o t Hd). unfold world_after; cbn.
      split; [done|]. split; [done|]. split.
      + intros r. rewrite lookup_insert. case_decide as Hr; [|done].
        subst r. by rewrite Hd.
      + intros r Hr. by rewrite lookup_insert_ne.
    - unfold addSub, bind, deref. rewrite Hd. done. }
  assert (step w (world_after (addSub d t w))) as Hstep by (by apply step_other).
  split; [done|]. split; [done|]. split; [done|]. split; [done|]. split; [done|].
  intros [u Hrtc]. exists u. by eapply rtc_r.
Qed.

Lemma addSub_keeps_ids_witness :
  reachable one_cell
  ∧ heap one_cell !! 1%positive = Some (mkDep 0 [])
  ∧ reachable (world_after (addSub 1%positive 13%positive one_cell))
  ∧ heap (world_after (addSub 1%positive 13%positive one_cell)) !! 1%positive
    = Some (mkDep 0 [Some 13%positive])
  ∧ uid (world_after (addSub 1%positive 13%positive one_cell)) = uid one_cell.
Proof.
  assert (reachable one_cell) as H1.
  { exists tt. apply rtc_once. apply step_new. }
  split; [exact H1|]. split; [reflexivity|].
  destruct (addSub_keeps_ids one_cell 1%positive 13%positive)
    as (_ & Hu & _ & _ & _ & Hreach).
  split; [exact (Hreach H1)|]. split; [reflexivity|]. exact Hu.
Defined.

(** ** Rules for [wpe] *)

Section wpe_facts.
Context {W Ev : Type}.
Implicit Types w : W.

Lemma wpe_ret {A} (a : A) (Q : A → W → list Ev → Prop) R w :
  Q a w [] → wpe (ret a) Q R w.
Proof. done. Qed.

Lemma wpe_gets {A} (f : W → A) (Q : A → W → list Ev → Prop) R w :
  Q (f w) w [] → wpe (gets f) Q R w.
Proof. done. Qed.

Lemma wpe_modify (f : W → W) (Q : unit → W → list Ev → Prop) R w :
  Q tt (f w) [] → wpe (modify f) Q R w.
Proof. done. Qed.

Lemma wpe_call {A} ev (f : extern W A) (Q : A → W → list Ev → Prop) R w :
  (∀ a w', f w = (Normal a, w') → Q a w' [ev]) →
  (∀ e w', f w = (Throw e, w') → R e w' [ev]) →
  wpe (call ev f) Q R w.
Proof. unfold wpe, call. destruct (f w) as [[a|e] w']; eauto. Qed.

Lemma wpe_bind {A B} (m : M W Ev A) (k : A → M W Ev B)
    (Q : B → W → list Ev → Prop) (R : exn → W → list Ev → Prop) w :
  wpe m (λ a w1 l1, wpe (k a) (λ b w2 l2, Q b w2 (l1 ++ l2))
                               (λ e w2 l2, R e w2 (l1 ++ l2)) w1) R w →
  wpe (bind m k) Q R w.
Proof.
  unfold wpe, bind. destruct (m w) as [[[a|e] w1] l1]; [|done].
  by destruct (k a w1) as [[[b|e] w2] l2].
Qed.

Lemma wpe_mono {A} (m : M W Ev A) (Q Q' : A → W → list Ev → Prop)
    (R R' : exn → W → list Ev → Prop) w :
  (∀ a w' l, Q a w' l → Q' a w' l) → (∀ e w' l, R e w' l → R' e w' l) →
  wpe m Q R w → wpe m Q' R' w.
Proof. unfold wpe. intros HQ HR. destruct (m w) as [[[a|e] w1] l1]; eauto. Qed.

(** What [wpe] says about a run. *)
Lemma wpe_run {A} (m : M W Ev A) (Q : A → W → list Ev → Prop) R w :
  wpe m Q R w →
  (∀ a, outcome (m w) = Normal a → Q a (world_after (m w)) (calls (m w)))
  ∧ (∀ e, outcome (m w) = Throw e → R e (world_after (m w)) (calls (m w))).
Proof.
  unfold wpe, outcome, world_after, calls.
  destruct (m w) as [[[a|e] w1] l1]; cbn; intros H; split; intros ? [= <-]; done.
Qed.
End wpe_facts.

(** ** The set-up phase as a whole *)

Module ComponentMore.
Import Component ComponentNotions.

Section setup_phase.
Context {X : Type}.
Implicit Types w : World X.
Context (initProps : ref → Value → extern (World X) unit)
        (applyOptions : ref → extern (World X) unit)
        (proxyRefs : Value → extern (World X) Value)
        (isFunction isObject : Value → bool)
        (apply : ref → list Value → extern (World X) Value).

Lemma wpe_deref k s ty cur cmp rv sv w (Q : _ → _ → _ → Prop) R :
  inst_is k s ty cur cmp rv sv w →
  (∀ i, instances w !! k = Some i → type i = ty → Q i w []) →
  wpe (deref k) Q R w.
Proof.
  intros (_ & _ & i & Hi & Hs & Ht & _) HQ. unfold wpe, deref. rewrite Hi. by apply HQ.
Qed.

Lemma wpe_assign k g s ty cur cmp rv sv rv' sv' w (Q : _ → _ → _ → Prop) R :
  inst_is k s ty cur cmp rv sv w →
  (∀ i, type (g i) = type i ∧ scope (g i) = scope i) →
  (∀ i, irender i = rv → setupState i = sv →
        irender (g i) = rv' ∧ setupState (g i) = sv') →
  (∀ w', inst_is k s ty cur cmp rv' sv' w' → Q tt w' []) →
  wpe (assign k g) Q R w.
Proof.
  intros (Hc & Hm & i & Hi & Hs & Ht & Hr & Hv) Hg Hg' HQ. apply wpe_modify, HQ.
  split; [done|]. split; [done|]. exists (g i). cbn. rewrite lookup_alter_eq, Hi. cbn.
  destruct (Hg i) as [-> ->]. destruct (Hg' i Hr Hv) as [-> ->]. done.
Qed.

Lemma wpe_extern {A} (ev : event) (f : extern (World X) A) k s ty cur cmp rv sv w
    (Q : A → World X → list event → Prop) R :
  (∀ w0, keeps w0 (f w0).2) →
  inst_is k s ty cur cmp rv sv w →
  (∀ a w', f w = (Normal a, w') → inst_is k s ty cur cmp rv sv w' → Q a w' [ev]) →
  (∀ e w', inst_is k s ty cur cmp rv sv w' → R e w' [ev]) →
  wpe (call ev f) Q R w.
Proof.
  intros Hf (Hc & Hm & i & Hi & Hs & Ht & Hr & Hv) HQ HR.
  destruct (Hf w) as (Hcur & Hcmp & Hinst).
  destruct (Hinst k i Hi) as (i' & Hi' & Ht' & Hs' & Hr' & Hv').
  assert (inst_is k s ty cur cmp rv sv (f w).2) as Hw'.
  { split; [congruence|]. split; [congruence|]. exists i'.
    split; [done|]. repeat split; congruence. }
  apply wpe_call.
  - intros a w' E. rewrite E in Hw'. by apply HQ.
  - intros e w' E. rewrite E in Hw'. by apply HR.
Qed.

Lemma wpe_setCurrentInstance k s ty cur cmp rv sv w (Q : _ → _ → _ → Prop) R :
  inst_is k s ty cur cmp rv sv w →
  (∀ w', inst_is k s ty (Some k) cmp rv sv w' → Q tt w' [EvScopeOn s]) →
  wpe (setCurrentInstance k) Q R w.
Proof.
  intros (Hc & Hm & i & Hi & Hs & Hrest) HQ. unfold wpe.
  rewrite (ComponentFacts.setCurrentInstance_run w k i Hi), Hs. apply HQ.
  split; [done|]. split; [done|]. exists i. by rewrite Hs.
Qed.

Lemma wpe_unsetCurrentInstance k s ty cmp rv sv w (Q : _ → _ → _ → Prop) R :
  inst_is k s ty (Some k) cmp rv sv w →
  (∀ w', inst_is k s ty None cmp rv sv w' → Q tt w' [EvScopeOff s]) →
  wpe unsetCurrentInstance Q R w.
Proof.
  intros (Hc & Hm & i & Hi & Hs & Hrest) HQ. unfold wpe.
  rewrite (ComponentFacts.unsetCurrentInstance_run w k i Hc Hi), Hs. apply HQ.
  split; [done|]. split; [done|]. exists i. by rewrite Hs.
Qed.

(** Everything [setupComponent] does with outside code that keeps to
    [keeps]: where it ends when it returns, and where when it throws. *)
Lemma setupComponent_full (res : ref → Value) (pr : Value → Value)
    k s ty cur cmp rv sv w :
  externals_keep initProps applyOptions proxyRefs apply →
  (∀ f args, returns_only (apply f args) (res f)) →
  (∀ v, returns_only (proxyRefs v) (pr v)) →
  inst_is k s ty cur cmp rv sv w →
  wpe (setupComponent initProps applyOptions proxyRefs isFunction isObject apply k)
    (λ _ w' l,
       inst_is k s ty None cmp (render_after isFunction res cmp ty rv)
         (setupState_after isFunction isObject res pr ty sv) w'
       ∧ l = [EvInitProps k] ++ setup_part isFunction isObject res s ty
             ++ compile_part cmp ty
             ++ [EvScopeOn s; EvApplyOptions k; EvScopeOff s])
    (λ e w' l,
       (l = [EvInitProps k] ∧ currentInstance w' = cur)
       ∨ (∃ f, setup ty = Some f ∧ currentInstance w' = Some k
               ∧ (l = [EvInitProps k; EvScopeOn s; EvSetup f]
                  ∨ l = [EvInitProps k; EvScopeOn s; EvSetup f; EvProxyRefs]))
       ∨ (∃ c, will_compile cmp ty = Some c
               ∧ currentInstance w' = (if setup ty is Some _ then None else cur)
               ∧ l = [EvInitProps k] ++ setup_part isFunction isObject res s ty
                     ++ [EvCompile c])
       ∨ (currentInstance w' = Some k
          ∧ l = [EvInitProps k] ++ setup_part isFunction isObject res s ty
                ++ compile_part cmp ty ++ [EvScopeOn s; EvApplyOptions k]))
    w.
Proof.
  intros (Ki & Ka & Kp & Kf) Hres Hpr Hw.
  unfold setupComponent.
  apply wpe_bind, (wpe_deref k s ty cur cmp rv sv); [done|]. intros i1 _ _.
  apply wpe_bind, (wpe_extern _ _ k s ty cur cmp rv sv); [done|done| |].
  2:{ intros e w' Hw'. left. split; [done|]. apply Hw'. }
  intros [] w1 _ Hw1.
  apply wpe_bind, (wpe_deref k s ty cur cmp rv sv); [done|]. intros i2 _ Hty.
  apply wpe_bind, (wpe_assign k _ s ty cur cmp rv sv rv sv); [done|done|done|].
  intros w2 Hw2. rewrite Hty.
  apply wpe_bind.
  (* Composition API *)
  apply (wpe_mono _
    (λ _ w' l, inst_is k s ty (if setup ty is Some _ then None else cur) cmp
                 (match setup ty with
                  | Some f => if isFunction (res f) then res f else rv
                  | None => rv
                  end)
                 (setupState_after isFunction isObject res pr ty sv) w'
               ∧ l = setup_part isFunction isObject res s ty)
    _
    (λ e w' l, ∃ f, setup ty = Some f ∧ currentInstance w' = Some k
                    ∧ (l = [EvScopeOn s; EvSetup f]
                       ∨ l = [EvScopeOn s; EvSetup f; EvProxyRefs]))).
  3:{ unfold setup_part, setupState_after. destruct (setup ty) as [f|] eqn:Hsetup.
      2:{ by apply wpe_ret. }
      apply wpe_bind. unfold createSetupContext.
      apply wpe_bind, (wpe_deref k s ty cur cmp rv sv); [done|]. intros i3 _ _.
      apply wpe_ret.
      apply wpe_bind, (wpe_assign k _ s ty cur cmp rv sv rv sv); [done|done|done|].
      intros w3 Hw3.
      apply wpe_bind, (wpe_setCurrentInstance k s ty cur cmp rv sv); [done|].
      intros w4 Hw4.
      apply wpe_bind, (wpe_deref k s ty (Some k) cmp rv sv); [done|]. intros i4 _ _.
      apply wpe_bind, (wpe_extern _ _ k s ty (Some k) cmp rv sv); [done|done| |].
      2:{ intros e w' Hw'. exists f. split; [done|]. split; [apply Hw'|]. by left. }
      intros v w5 Hv Hw5. apply Hres in Hv as ->.
      apply wpe_bind.
      destruct (isFunction (res f)); [|destruct (isObject (res f))].
      - apply (wpe_assign k _ s ty (Some k) cmp rv sv (res f) sv); [done|done|done|].
        intros w6 Hw6.
        apply (wpe_unsetCurrentInstance k s ty cmp (res f) sv); [done|].
        intros w7 Hw7. done.
      - apply wpe_bind, (wpe_extern _ _ k s ty (Some k) cmp rv sv); [done|done| |].
        2:{ intros e w' Hw'. exists f. split; [done|]. split; [apply Hw'|]. by right. }
        intros v w6 Hv Hw6. apply Hpr in Hv as ->.
        apply (wpe_assign k _ s ty (Some k) cmp rv sv rv (pr (res f))); [done|done|done|].
        intros w7 Hw7.
        apply (wpe_unsetCurrentInstance k s ty cmp rv (pr (res f))); [done|].
        intros w8 Hw8. done.
      - apply wpe_ret.
        apply (wpe_unsetCurrentInstance k s ty cmp rv sv); [done|].
        intros w6 Hw6. done. }
  2:{ intros e w' l (f & Hf & Hcur & Hl). right. left. exists f.
      split; [done|]. split; [done|]. cbn. destruct Hl as [-> | ->]; auto. }
  intros [] w3 l3 [Hw3 ->].
  set (cur1 := if setup ty is Some _ then None else cur) in *.
  set (rv1 := match setup ty with
              | Some f => if isFunction (res f) then res f else rv
              | None => rv
              end) in *.
  set (sv1 := setupState_after isFunction isObject res pr ty sv) in *.
  (* the registered compiler *)
  apply wpe_bind, wpe_gets.
  assert (compile w3 = cmp) as -> by apply Hw3.
  apply wpe_bind.
  apply (wpe_mono _
    (λ _ w' l, inst_is k s ty cur1 cmp (render_after isFunction res cmp ty rv) sv1 w'
               ∧ l = compile_part cmp ty)
    _
    (λ e w' l, ∃ c, will_compile cmp ty = Some c
                    ∧ currentInstance w' = cur1 ∧ l = [EvCompile c])).
  3:{ unfold compile_part, render_after, will_compile. fold rv1.
      destruct cmp as [c|]; [|by apply wpe_ret].
      destruct (render ty); [by apply wpe_ret|].
      destruct (nonempty _); [|by apply wpe_ret].
      apply wpe_bind, (wpe_extern _ _ k s ty cur1 (Some c) rv1 sv1); [done|done| |].
      2:{ intros e w' Hw'. exists c. split; [done|]. split; [apply Hw'|done]. }
      intros v w4 Hv Hw4. apply Hres in Hv as ->.
      apply (wpe_assign k _ s ty cur1 (Some c) rv1 sv1 (res c) sv1); [done|done|done|].
      intros w5 Hw5. done. }
  2:{ intros e w' l (c & Hc & Hcur & ->). right. right. left. exists c.
      split; [done|]. split; [done|]. cbn. rewrite <- ?app_assoc. by cbn. }
  intros [] w4 l4 [Hw4 ->].
  (* Options API *)
  set (rv2 := render_after isFunction res cmp ty rv) in *.
  apply wpe_bind, (wpe_setCurrentInstance k s ty cur1 cmp rv2 sv1); [done|].
  intros w5 Hw5.
  apply wpe_bind, (wpe_extern _ _ k s ty (Some k) cmp rv2 sv1); [done|done| |].
  2:{ intros e w' Hw'. right. right. right. split; [apply Hw'|].
      cbn. rewrite <- ?app_assoc. by cbn. }
  intros [] w6 _ Hw6.
  apply (wpe_unsetCurrentInstance k s ty cmp rv2 sv1); [done|]. intros w7 Hw7.
  split; [done|]. cbn. rewrite <- ?app_assoc. by cbn.
Qed.
End setup_phase.

Lemma quiet_keeps {X A} (a : A) (w : World X) : keeps w (quiet a w).2.
Proof. split; [done|]. split; [done|]. intros k i Hi. by exists i. Qed.

Lemma externals_keep_frame {X}
    (initProps : ref → Value → extern (World X) unit)
    (applyOptions : ref → extern (World X) unit)
    (proxyRefs : Value → extern (World X) Value)
    (apply : ref → list Value → extern (World X) Value) :
  externals_keep initProps applyOptions proxyRefs apply →
  externals_respect_frame initProps applyOptions proxyRefs apply.
Proof.
  assert (∀ w w' : World X, keeps w w' → frame w w') as Hkf.
  { intros w w' (Hc & _ & Hi). split; [done|]. intros k i Hk.
    destruct (Hi k i Hk) as (i' & ? & ? & ? & _). by exists i'. }
  intros (Hi & Ha & Hp & Hf). split; [|split; [|split]]; intros; intros w; by apply Hkf.
Qed.

Lemma scn_externals_keep :
  externals_keep scn_initProps scn_applyOptions scn_proxyRefs scn_apply.
Proof. split; [|split; [|split]]; intros; apply quiet_keeps. Qed.

Lemma scn_failing_keep :
  externals_keep scn_initProps scn_applyOptions scn_proxyRefs scn_failing.
Proof.
  split; [|split; [|split]]; intros; try apply quiet_keeps.
  split; [done|]. split; [done|]. intros k i Hi. by exists i.
Qed.

Lemma scn_apply_returns f args : returns_only (scn_apply f args) (VObject 9%positive).
Proof. by intros w a' w' [= <- _]. Qed.

Lemma scn_proxyRefs_returns v : returns_only (scn_proxyRefs v) v.
Proof. by intros w a' w' [= <- _]. Qed.

Lemma inst_is_start {X} (w : World X) k i :
  instances w !! k = Some i →
  inst_is k (scope i) (type i) (currentInstance w) (compile w)
    (irender i) (setupState i) w.
Proof. intros Hi. split; [done|]. split; [done|]. by exists i. Qed.

(** X7. [setCurrentInstance(i)] makes [i] what [getCurrentInstance()]
    returns, after one [scope.on()].  A following [unsetCurrentInstance()]
    calls [scope.off()] of the same scope and leaves [null] in the slot,
    whatever instance was current before the pair: the earlier instance
    is not restored. *)
Theorem set_get_unset {X} (w : World X) k i :
  instances w !! k = Some i →
  outcome ((setCurrentInstance k ;;; getCurrentInstance) w) = Normal (Some k)
  ∧ calls ((setCurrentInstance k ;;; getCurrentInstance) w) = [EvScopeOn (scope i)]
  ∧ outcome ((setCurrentInstance k ;;; unsetCurrentInstance ;;; getCurrentInstance) w)
    = Normal None
  ∧ calls ((setCurrentInstance k ;;; unsetCurrentInstance ;;; getCurrentInstance) w)
    = [EvScopeOn (scope i); EvScopeOff (scope i)]
  ∧ instances (world_after ((setCurrentInstance k ;;; unsetCurrentInstance) w))
    = instances w
  ∧ compile (world_after ((setCurrentInstance k ;;; unsetCurrentInstance) w))
    = compile w.
Proof.
  intros Hi.
  pose proof (ComponentFacts.setCurrentInstance_run w k i Hi) as Hset.
  set (w1 := set_activeEffectScope (Some (scope i)) (set_currentInstance (Some k) w)) in *.
  pose proof (ComponentFacts.unsetCurrentInstance_run w1 k i eq_refl Hi) as Hunset.
  unfold bind. rewrite Hset. cbn -[unsetCurrentInstance]. rewrite Hunset. done.
Qed.

Lemma set_get_unset_witness :
  instances scn_current !! 1%positive = Some scn_instance
  ∧ currentInstance (X:=unit) scn_current = Some 1%positive
  ∧ outcome ((setCurrentInstance 1%positive ;;; unsetCurrentInstance ;;; getCurrentInstance)
               scn_current) = Normal None.
Proof.
  split; [reflexivity|]. split; [reflexivity|].
  destruct (set_get_unset scn_current 1%positive scn_instance) as (_ & _ & H & _);
    [reflexivity|].
  exact H.
Defined.

(** X8. For a component without a [setup] function, [setupComponent]
    opens no scope for the Composition API: when it returns, its calls
    are [initProps], the compilation of the template if one is due, and
    the bracket [scope.on()], [applyOptions], [scope.off()]; [setup] and
    [proxyRefs] are never called and [setupState] is what it was.  What
    it does is [initProps], the proxy, the template, and [applyOptions]
    between [on()] and [off()] of the instance's scope, with what these
    do to the world. *)
Theorem setupComponent_without_setup {X}
    (initProps : ref → Value → extern (World X) unit)
    (applyOptions : ref → extern (World X) unit)
    (proxyRefs : Value → extern (World X) Value)
    (isFunction isObject : Value → bool)
    (apply : ref → list Value → extern (World X) Value)
    (res : ref → Value) (pr : Value → Value)
    (w : World X) (k : ref) (i : ComponentInternalInstance) :
  externals_keep initProps applyOptions proxyRefs apply →
  (∀ f args, returns_only (apply f args) (res f)) →
  (∀ v, returns_only (proxyRefs v) (pr v)) →
  instances w !! k = Some i →
  setup (type i) = None →
  outcome (setupComponent initProps applyOptions proxyRefs isFunction isObject apply k w)
  = Normal tt →
  (calls (setupComponent initProps applyOptions proxyRefs isFunction isObject apply k w)
   = [EvInitProps k] ++ compile_part (compile w) (type i)
     ++ [EvScopeOn (scope i); EvApplyOptions k; EvScopeOff (scope i)]
  ∧ (∀ f, EvSetup f ∉
       calls (setupComponent initProps applyOptions proxyRefs isFunction isObject apply k w))
  ∧ (EvProxyRefs ∉
       calls (setupComponent initProps applyOptions proxyRefs isFunction isObject apply k w))
  ∧ ∃ i', instances
            (world_after
               (setupComponent initProps applyOptions proxyRefs isFunction isObject apply k w))
            !! k = Some i'
          ∧ setupState i' = setupState i)
  ∧ setupComponent initProps applyOptions proxyRefs isFunction isObject apply k w
    = plain_phase_as_described initProps applyOptions apply k i w.
Proof.
  intros Hkeep Hres Hpr Hi Hsetup Hout.
  split.
  2:{ apply ComponentFacts.setupComponent_plain_is_described; [|done|done].
      by apply externals_keep_frame. }
  pose proof (setupComponent_full initProps applyOptions proxyRefs isFunction isObject
                apply res pr k _ _ _ _ _ _ w Hkeep Hres Hpr (inst_is_start w k i Hi)) as H.
  apply wpe_run in H as [Hn _].
  destruct (Hn tt Hout) as [(_ & _ & i' & Hi' & _ & _ & _ & Hst) Hcalls].
  unfold setup_part, setupState_after in *. rewrite Hsetup in *. cbn [app] in Hcalls.
  split; [done|].
  assert (∀ ev, (∀ c, ev ≠ EvCompile c) → ev ≠ EvInitProps k →
                ev ≠ EvScopeOn (scope i) → ev ≠ EvApplyOptions k →
                ev ≠ EvScopeOff (scope i) →
                ev ∉ calls (setupComponent initProps applyOptions proxyRefs isFunction
                              isObject apply k w)) as Hnot.
  { intros ev H1 H2 H3 H4 H5. rewrite Hcalls. unfold compile_part.
    destruct (will_compile _ _) as [c|]; cbn;
      rewrite ?elem_of_cons, elem_of_nil; specialize (H1 c) || idtac; intuition. }
  split; [|split].
  - intros f. by apply Hnot.
  - by apply Hnot.
  - by exists i'.
Qed.

Lemma setupComponent_without_setup_witness :
  externals_keep scn_initProps scn_applyOptions scn_proxyRefs scn_apply
  ∧ instances scn_plain_world !! 1%positive = Some scn_plain_instance
  ∧ setup (type scn_plain_instance) = None
  ∧ calls (setupComponent scn_initProps scn_applyOptions scn_proxyRefs
             scn_isFunction scn_isObject scn_apply 1%positive scn_plain_world)
    = [EvInitProps 1%positive; EvScopeOn 5%positive; EvApplyOptions 1%positive;
       EvScopeOff 5%positive].
Proof.
  split; [exact scn_externals_keep|]. split; [reflexivity|]. split; [reflexivity|].
  destruct (setupComponent_without_setup scn_initProps scn_applyOptions scn_proxyRefs
              scn_isFunction scn_isObject scn_apply (λ _, VObject 9%positive) (λ v, v)
              scn_plain_world 1%positive scn_plain_instance scn_externals_keep
              scn_apply_returns scn_proxyRefs_returns) as [[Hcalls _] _];
    [reflexivity..|].
  rewrite Hcalls. reflexivity.
Defined.

Lemma will_compile_iff cmp ty c :
  will_compile cmp ty = Some c
  ↔ cmp = Some c ∧ render ty = None ∧ ∃ t, template ty = Some t ∧ t ≠ EmptyString.
Proof.
  unfold will_compile.
  destruct cmp as [c0|]; [|by split; [|intros ([=] & _)]].
  destruct (render ty); [by split; [|intros (_ & [=] & _)]|].
  destruct (template ty) as [[|a t]|]; cbn.
  - split; [done|]. by intros (_ & _ & t & [= <-] & Ht).
  - split.
    + intros [= ->]. split; [done|]. split; [done|]. by eexists.
    + by intros ([= ->] & _).
  - split; [done|]. by intros (_ & _ & t & [=] & _).
Qed.

Lemma compile_in_expected_calls isFunction isObject res k s ty cmp c :
  EvCompile c ∈ [EvInitProps k] ++ setup_part isFunction isObject res s ty
                ++ compile_part cmp ty
                ++ [EvScopeOn s; EvApplyOptions k; EvScopeOff s]
  ↔ will_compile cmp ty = Some c.
Proof.
  unfold setup_part, compile_part.
  rewrite !elem_of_app, !elem_of_cons, elem_of_nil.
  destruct (will_compile cmp ty) as [c0|];
    destruct (setup ty) as [f|];
    try destruct (isFunction (res f)); try destruct (isObject (res f));
    rewrite ?elem_of_app, ?elem_of_cons, ?elem_of_nil;
    (split;
     [ intros H; repeat (destruct H as [H|H]); first [done | congruence]
     | intros H; first [discriminate H | injection H as ->; intuition] ]).
Qed.

(** X9. The template is compiled exactly when a compiler is registered,
    the component has no [render] of its own and its template is a
    non-empty string; a component [render], a missing or empty template,
    or no registered compiler each prevent the call.  When it is compiled,
    the result becomes [instance.render], also when [setup] has just
    returned a render function: that one is overwritten. *)
Theorem setupComponent_compiles_template {X}
    (initProps : ref → Value → extern (World X) unit)
    (applyOptions : ref → extern (World X) unit)
    (proxyRefs : Value → extern (World X) Value)
    (isFunction isObject : Value → bool)
    (apply : ref → list Value → extern (World X) Value)
    (res : ref → Value) (pr : Value → Value)
    (w : World X) (k : ref) (i : ComponentInternalInstance) :
  externals_keep initProps applyOptions proxyRefs apply →
  (∀ f args, returns_only (apply f args) (res f)) →
  (∀ v, returns_only (proxyRefs v) (pr v)) →
  instances w !! k = Some i →
  outcome (setupComponent initProps applyOptions proxyRefs isFunction isObject apply k w)
  = Normal tt →
  (∀ c, EvCompile c ∈
          calls (setupComponent initProps applyOptions proxyRefs isFunction isObject apply k w)
        ↔ compile w = Some c ∧ render (type i) = None
          ∧ ∃ t, template (type i) = Some t ∧ t ≠ EmptyString)
  ∧ (∀ c, will_compile (compile w) (type i) = Some c →
       ∃ i', instances
               (world_after
                  (setupComponent initProps applyOptions proxyRefs isFunction isObject apply k w))
               !! k = Some i'
             ∧ irender i' = res c).
Proof.
  intros Hkeep Hres Hpr Hi Hout.
  pose proof (setupComponent_full initProps applyOptions proxyRefs isFunction isObject
                apply res pr k _ _ _ _ _ _ w Hkeep Hres Hpr (inst_is_start w k i Hi)) as H.
  apply wpe_run in H as [Hn _].
  destruct (Hn tt Hout) as [(_ & _ & i' & Hi' & _ & _ & Hr & _) Hcalls].
  split.
  - intros c. by rewrite <- will_compile_iff, Hcalls, compile_in_expected_calls.
  - intros c Hc. exists i'. split; [done|]. rewrite Hr. unfold render_after. by rewrite Hc.
Qed.

Lemma setupComponent_compiles_template_witness :
  externals_keep scn_initProps scn_applyOptions scn_proxyRefs scn_apply
  ∧ instances scn_world !! 1%positive = Some scn_instance
  ∧ will_compile (compile scn_world) (type scn_instance) = Some 40%positive
  ∧ ∃ i', instances
            (world_after
               (setupComponent scn_initProps scn_applyOptions scn_proxyRefs
                  scn_isFunction scn_isObject scn_apply 1%positive scn_world))
            !! 1%positive = Some i'
          ∧ irender i' = VObject 9%positive.
Proof.
  split; [exact scn_externals_keep|]. split; [reflexivity|]. split; [reflexivity|].
  destruct (setupComponent_compiles_template scn_initProps scn_applyOptions scn_proxyRefs
              scn_isFunction scn_isObject scn_apply (λ _, VObject 9%positive) (λ v, v)
              scn_world 1%positive scn_instance scn_externals_keep
              scn_apply_returns scn_proxyRefs_returns) as [_ Hrender];
    [reflexivity..|].
  apply (Hrender 40%positive). reflexivity.
Defined.

(** X10. What becomes of the result [v] of [setup] when no template is
    compiled afterwards: if [isFunction(v)], it is [instance.render] and
    [proxyRefs] is not called; otherwise, if [isObject(v)],
    [instance.setupState] is [proxyRefs(v)] and [render] is untouched;
    otherwise neither field changes.  [proxyRefs] is called exactly in the
    second case. *)
Theorem setupComponent_uses_setup_result {X}
    (initProps : ref → Value → extern (World X) unit)
    (applyOptions : ref → extern (World X) unit)
    (proxyRefs : Value → extern (World X) Value)
    (isFunction isObject : Value → bool)
    (apply : ref → list Value → extern (World X) Value)
    (res : ref → Value) (pr : Value → Value)
    (w : World X) (k : ref) (i : ComponentInternalInstance) (f : ref) :
  externals_keep initProps applyOptions proxyRefs apply →
  (∀ f args, returns_only (apply f args) (res f)) →
  (∀ v, returns_only (proxyRefs v) (pr v)) →
  instances w !! k = Some i →
  setup (type i) = Some f →
  will_compile (compile w) (type i) = None →
  outcome (setupComponent initProps applyOptions proxyRefs isFunction isObject apply k w)
  = Normal tt →
  (EvProxyRefs ∈
     calls (setupComponent initProps applyOptions proxyRefs isFunction isObject apply k w)
   ↔ isFunction (res f) = false ∧ isObject (res f) = true)
  ∧ ∃ i', instances
            (world_after
               (setupComponent initProps applyOptions proxyRefs isFunction isObject apply k w))
            !! k = Some i'
          ∧ irender i' = (if isFunction (res f) then res f else irender i)
          ∧ setupState i'
            = (if isFunction (res f) then setupState i
               else if isObject (res f) then pr (res f) else setupState i).
Proof.
  intros Hkeep Hres Hpr Hi Hsetup Hnocompile Hout.
  pose proof (setupComponent_full initProps applyOptions proxyRefs isFunction isObject
                apply res pr k _ _ _ _ _ _ w Hkeep Hres Hpr (inst_is_start w k i Hi)) as H.
  apply wpe_run in H as [Hn _].
  destruct (Hn tt Hout) as [(_ & _ & i' & Hi' & _ & _ & Hr & Hst) Hcalls].
  unfold render_after, setupState_after, setup_part, compile_part in *.
  rewrite Hsetup, Hnocompile in *. split.
  - rewrite Hcalls.
    destruct (isFunction (res f)); [|destruct (isObject (res f))]; cbn;
      rewrite ?elem_of_cons, elem_of_nil;
      (split;
       [ intros H; repeat (destruct H as [H|H]); first [done | congruence]
       | intros [H1 H2]; first [discriminate H1 | discriminate H2 | intuition] ]).
  - by exists i'.
Qed.

Lemma setupComponent_uses_setup_result_witness :
  externals_keep scn_initProps scn_applyOptions scn_proxyRefs scn_apply
  ∧ instances (set_compile None scn_world) !! 1%positive = Some scn_instance
  ∧ setup (type scn_instance) = Some 20%positive
  ∧ will_compile (compile (X:=unit) (set_compile None scn_world)) (type scn_instance) = None
  ∧ ∃ i', instances
            (world_after
               (setupComponent scn_initProps scn_applyOptions scn_proxyRefs
                  scn_isFunction scn_isObject scn_apply 1%positive
                  (set_compile None scn_world)))
            !! 1%positive = Some i'
          ∧ irender i' = VNull
          ∧ setupState i' = VObject 9%positive.
Proof.
  split; [exact scn_externals_keep|]. split; [reflexivity|]. split; [reflexivity|].
  split; [reflexivity|].
  destruct (setupComponent_uses_setup_result scn_initProps scn_applyOptions scn_proxyRefs
              scn_isFunction scn_isObject scn_apply (λ _, VObject 9%positive) (λ v, v)
              (set_compile None scn_world) 1%positive scn_instance 20%positive
              scn_externals_keep scn_apply_returns scn_proxyRefs_returns)
    as [_ Hfields]; [reflexivity..|].
  exact Hfields.
Defined.

(** X11. [setupComponent] has no handler of its own.  When it throws, the
    call that threw is the last one it made and is one of [initProps],
    [setup], [proxyRefs], the compiler and [applyOptions].  After a throw
    from [setup], [proxyRefs] or [applyOptions] the instance is still the
    current instance, because the [unsetCurrentInstance()] that would
    follow is skipped and the [scope.off()] is never made; after a throw
    from [initProps] the current instance is what it was before. *)
Theorem setupComponent_throws_unwinding_nothing {X}
    (initProps : ref → Value → extern (World X) unit)
    (applyOptions : ref → extern (World X) unit)
    (proxyRefs : Value → extern (World X) Value)
    (isFunction isObject : Value → bool)
    (apply : ref → list Value → extern (World X) Value)
    (res : ref → Value) (pr : Value → Value)
    (w : World X) (k : ref) (i : ComponentInternalInstance) (e : exn) :
  externals_keep initProps applyOptions proxyRefs apply →
  (∀ f args, returns_only (apply f args) (res f)) →
  (∀ v, returns_only (proxyRefs v) (pr v)) →
  instances w !! k = Some i →
  outcome (setupComponent initProps applyOptions proxyRefs isFunction isObject apply k w)
  = Throw e →
  (calls (setupComponent initProps applyOptions proxyRefs isFunction isObject apply k w)
   = [EvInitProps k]
   ∧ currentInstance
       (world_after
          (setupComponent initProps applyOptions proxyRefs isFunction isObject apply k w))
     = currentInstance w)
  ∨ (∃ f, setup (type i) = Some f
          ∧ currentInstance
              (world_after
                 (setupComponent initProps applyOptions proxyRefs isFunction isObject apply k w))
            = Some k
          ∧ (calls (setupComponent initProps applyOptions proxyRefs isFunction isObject apply k w)
             = [EvInitProps k; EvScopeOn (scope i); EvSetup f]
             ∨ calls (setupComponent initProps applyOptions proxyRefs isFunction isObject apply k w)
               = [EvInitProps k; EvScopeOn (scope i); EvSetup f; EvProxyRefs]))
  ∨ (∃ c, will_compile (compile w) (type i) = Some c
          ∧ currentInstance
              (world_after
                 (setupComponent initProps applyOptions proxyRefs isFunction isObject apply k w))
            = (if setup (type i) is Some _ then None else currentInstance w)
          ∧ calls (setupComponent initProps applyOptions proxyRefs isFunction isObject apply k w)
            = [EvInitProps k] ++ setup_part isFunction isObject res (scope i) (type i)
              ++ [EvCompile c])
  ∨ (currentInstance
       (world_after
          (setupComponent initProps applyOptions proxyRefs isFunction isObject apply k w))
     = Some k
     ∧ calls (setupComponent initProps applyOptions proxyRefs isFunction isObject apply k w)
       = [EvInitProps k] ++ setup_part isFunction isObject res (scope i) (type i)
         ++ compile_part (compile w) (type i)
         ++ [EvScopeOn (scope i); EvApplyOptions k]).
Proof.
  intros Hkeep Hres Hpr Hi Hout.
  pose proof (setupComponent_full initProps applyOptions proxyRefs isFunction isObject
                apply res pr k _ _ _ _ _ _ w Hkeep Hres Hpr (inst_is_start w k i Hi)) as H.
  apply wpe_run in H as [_ Ht]. specialize (Ht e Hout).
  destruct Ht as [[H1 H2]|[(f & H1 & H2 & H3)|[(c & H1 & H2 & H3)|[H1 H2]]]].
  - left. done.
  - right. left. by exists f.
  - right. right. left. by exists c.
  - right. right. right. done.
Qed.

Lemma setupComponent_throws_unwinding_nothing_witness :
  externals_keep scn_initProps scn_applyOptions scn_proxyRefs scn_failing
  ∧ instances scn_world !! 1%positive = Some scn_instance
  ∧ setupComponent scn_initProps scn_applyOptions scn_proxyRefs
      scn_isFunction scn_isObject scn_failing 1%positive scn_world
    = (Throw "setup failed"%string,
       mkWorld (Some 1%positive) (Some 40%positive)
         {[ 1%positive :=
              set_setupContext (VSetupContext (VFunction 30%positive))
                (set_proxy (VProxy (VObject 2%positive)) scn_instance) ]}
         (Some 5%positive) {[ 5%positive := mkScope (Some 6%positive) true ]} tt,
       [EvInitProps 1%positive; EvScopeOn 5%positive; EvSetup 20%positive])
  ∧ ∃ f, setup (type scn_instance) = Some f.
Proof.
  split; [exact scn_failing_keep|]. split; [reflexivity|]. split; [reflexivity|].
  destruct (setupComponent_throws_unwinding_nothing scn_initProps scn_applyOptions
              scn_proxyRefs scn_isFunction scn_isObject scn_failing
              (λ _, VNull) (λ v, v) scn_world 1%positive scn_instance
              "setup failed"%string scn_failing_keep)
    as [[H _]|[(f & Hf & _)|[(c & _ & _ & H)|[_ H]]]];
    try reflexivity; try discriminate H.
  - by intros f args w a' w' [=].
  - by intros v w a' w' [= <- _].
  - by exists f.
Defined.

(** X12. [registerRuntimeCompiler] replaces the registered compiler and
    changes nothing else; the set-up phase then uses the compiler
    registered last, and none after [undefined] has been registered. *)
Theorem registerRuntimeCompiler_last_wins {X}
    (initProps : ref → Value → extern (World X) unit)
    (applyOptions : ref → extern (World X) unit)
    (proxyRefs : Value → extern (World X) Value)
    (isFunction isObject : Value → bool)
    (apply : ref → list Value → extern (World X) Value)
    (res : ref → Value) (pr : Value → Value)
    (w : World X) (k : ref) (i : ComponentInternalInstance) (c1 c2 : option ref) :
  externals_keep initProps applyOptions proxyRefs apply →
  (∀ f args, returns_only (apply f args) (res f)) →
  (∀ v, returns_only (proxyRefs v) (pr v)) →
  instances w !! k = Some i →
  outcome ((registerRuntimeCompiler c1 ;;; registerRuntimeCompiler c2 ;;;
            setupComponent initProps applyOptions proxyRefs isFunction isObject apply k) w)
  = Normal tt →
  (registerRuntimeCompiler c1 ;;; registerRuntimeCompiler c2) w
  = (Normal tt, set_compile c2 w, [])
  ∧ ∀ c, EvCompile c ∈
           calls ((registerRuntimeCompiler c1 ;;; registerRuntimeCompiler c2 ;;;
                   setupComponent initProps applyOptions proxyRefs isFunction isObject apply k) w)
         ↔ c2 = Some c ∧ render (type i) = None
           ∧ ∃ t, template (type i) = Some t ∧ t ≠ EmptyString.
Proof.
  intros Hkeep Hres Hpr Hi.
  assert ((registerRuntimeCompiler c1 ;;; registerRuntimeCompiler c2 ;;;
           setupComponent initProps applyOptions proxyRefs isFunction isObject apply k) w
          = setupComponent initProps applyOptions proxyRefs isFunction isObject apply k
              (set_compile c2 w)) as ->.
  { unfold bind at 1 2, registerRuntimeCompiler, modify. cbn.
    change (set_compile c2 (set_compile c1 w)) with (set_compile c2 w).
    by destruct (setupComponent _ _ _ _ _ _ _ _) as [[??]?]. }
  intros Hout. split; [done|].
  pose proof (setupComponent_full initProps applyOptions proxyRefs isFunction isObject
                apply res pr k _ _ _ _ _ _ (set_compile c2 w) Hkeep Hres Hpr
                (inst_is_start (set_compile c2 w) k i Hi)) as H.
  apply wpe_run in H as [Hn _].
  destruct (Hn tt Hout) as [_ Hcalls].
  intros c. by rewrite <- will_compile_iff, Hcalls, compile_in_expected_calls.
Qed.

Lemma registerRuntimeCompiler_last_wins_witness :
  externals_keep scn_initProps scn_applyOptions scn_proxyRefs scn_apply
  ∧ instances scn_world !! 1%positive = Some scn_instance
  ∧ calls ((registerRuntimeCompiler None ;;; registerRuntimeCompiler (Some 41%positive) ;;;
            setupComponent scn_initProps scn_applyOptions scn_proxyRefs
              scn_isFunction scn_isObject scn_apply 1%positive) scn_world)
    = [EvInitProps 1%positive; EvScopeOn 5%positive; EvSetup 20%positive;
       EvProxyRefs; EvScopeOff 5%positive; EvCompile 41%positive;
       EvScopeOn 5%positive; EvApplyOptions 1%positive; EvScopeOff 5%positive]
  ∧ (EvCompile 40%positive ∉
       calls ((registerRuntimeCompiler None ;;; registerRuntimeCompiler (Some 41%positive) ;;;
               setupComponent scn_initProps scn_applyOptions scn_proxyRefs
                 scn_isFunction scn_isObject scn_apply 1%positive) scn_world)).
Proof.
  split; [exact scn_externals_keep|]. split; [reflexivity|]. split; [reflexivity|].
  destruct (registerRuntimeCompiler_last_wins scn_initProps scn_applyOptions scn_proxyRefs
              scn_isFunction scn_isObject scn_apply (λ _, VObject 9%positive) (λ v, v)
              scn_world 1%positive scn_instance None (Some 41%positive)
              scn_externals_keep scn_apply_returns scn_proxyRefs_returns)
    as [_ Hiff]; [reflexivity..|].
  intros Hin. apply Hiff in Hin as [[=] _].
Defined.

End ComponentMore.

(** ** [createComponentInstance] *)

Module CreationFacts.
Import Creation.

Section creation.
Context {X : Type}.
Implicit Types w : World X.
Context (createAppContext new_EffectScope : extern (World X) ref)
        (bound_emit : ref → Component.Value).

Lemma extends_refl w : extends w w.
Proof. done. Qed.

Lemma extends_trans w1 w2 w3 : extends w1 w2 → extends w2 w3 → extends w1 w3.
Proof.
  intros (?&?&?&?) (?&?&?&?). repeat split; by etrans.
Qed.

Lemma extends_used w w' : extends w w' → used w ⊆ used w'.
Proof.
  intros (Hi & Hv & Ha & Ho). unfold used.
  apply subseteq_dom in Hi, Hv, Ha, Ho.
  repeat apply union_mono; done.
Qed.

Lemma used_objects w r o : objects w !! r = Some o → r ∈ used w.
Proof. intros H. unfold used. apply elem_of_union_r, elem_of_dom. eauto. Qed.

Lemma used_instances w r i : instances w !! r = Some i → r ∈ used w.
Proof.
  intros H. unfold used. do 3 apply elem_of_union_l. apply elem_of_dom. eauto.
Qed.

Lemma wpe_new_object o w (Q : ref → World X → list event → Prop) R :
  (∀ r w', r ∉ used w → extends w w' → objects w' !! r = Some o →
           instances w' = instances w → Q r w' []) →
  wpe (new_object o) Q R w.
Proof.
  intros HQ. unfold wpe, new_object. pose proof (is_fresh (used w)) as Hf.
  apply HQ; [done| |by cbn; rewrite lookup_insert_eq|done].
  repeat split; cbn; try done. apply insert_subseteq, not_elem_of_dom.
  intros Hin. apply Hf. unfold used. by apply elem_of_union_r.
Qed.

Lemma wpe_empty_object w (Q : Component.Value → World X → list event → Prop) R :
  (∀ r w', r ∉ used w → extends w w' → objects w' !! r = Some (Obj.mk None []) →
           instances w' = instances w → Q (Component.VObject r) w' []) →
  wpe empty_object Q R w.
Proof.
  intros HQ. unfold empty_object. apply wpe_bind, wpe_new_object.
  intros r w' ? ? ? ?. apply wpe_ret. by apply HQ.
Qed.

Lemma wpe_or_empty_object x w (Q : Component.Value → World X → list event → Prop) R :
  (∀ v w', extends w w' → instances w' = instances w →
           match if_truthy x with
           | Some v0 => v = v0
           | None => ∃ r, v = Component.VObject r ∧ (r ∉ used w)
                          ∧ objects w' !! r = Some (Obj.mk None [])
           end → Q v w' []) →
  wpe (or_empty_object x) Q R w.
Proof.
  intros HQ. unfold if_truthy in HQ.
  destruct x as [v0|]; cbn [or_empty_object]; [destruct (truthy_value v0)|].
  - apply wpe_ret, HQ; done.
  - apply wpe_empty_object. intros r w' ? ? ? ?. apply HQ; eauto.
  - apply wpe_empty_object. intros r w' ? ? ? ?. apply HQ; eauto.
Qed.

Lemma extends_objects w w' r o :
  extends w w' → objects w !! r = Some o → objects w' !! r = Some o.
Proof. intros (_ & _ & _ & Ho) H. by eapply lookup_weaken. Qed.

Lemma extends_instances w w' r i :
  extends w w' → instances w !! r = Some i → instances w' !! r = Some i.
Proof. intros (Hi & _) H. by eapply lookup_weaken. Qed.

Lemma extends_appContexts w w' r a :
  extends w w' → appContexts w !! r = Some a → appContexts w' !! r = Some a.
Proof. intros (_ & _ & Ha & _) H. by eapply lookup_weaken. Qed.

Lemma not_used_mono w w' r : extends w w' → r ∉ used w' → r ∉ used w.
Proof. intros Hext Hr Hin. by apply Hr, (extends_used w w' Hext). Qed.

(** Everything [build] does, for an [EffectScope] constructor that only
    adds objects. *)
Lemma build_spec vnode parent type a w :
  adds_only new_EffectScope →
  match parent with
  | Some p => is_Some (instances w !! p)
  | None => is_Some (appContexts w !! a)
  end →
  wpe (build new_EffectScope bound_emit vnode parent type a)
    (λ r w' l,
       l = [EvNewEffectScope] ∧ extends w w' ∧ (r ∉ used w)
       ∧ ∃ s w1, new_EffectScope w = (Normal s, w1)
                 ∧ made bound_emit (used w) w w' vnode parent type a s r)
    (λ e w' l, new_EffectScope w = (Throw e, w') ∧ l = [EvNewEffectScope])
    w.
Proof.
  intros Hscope Hlive. unfold build.
  apply wpe_bind, wpe_call; [|done].
  intros s w1 Hs. pose proof (Hscope w) as E01. rewrite Hs in E01. cbn in E01.
  apply wpe_bind.
  apply (wpe_mono _
    (λ pvd w2 l, l = [] ∧ extends w1 w2
       ∧ match parent with
         | Some p => ∃ pi, instances w !! p = Some pi ∧ pvd = Instance.provides pi
         | None => ∃ ac, appContexts w !! a = Some ac ∧ (pvd ∉ used w1)
                         ∧ objects w2 !! pvd
                           = Some (Obj.mk (Some (AppContext.provides ac)) [])
         end) _ (λ _ _ _, False)).
  3:{ destruct parent as [p|].
      - destruct Hlive as [pi Hpi]. apply wpe_bind. unfold wpe, deref_instance.
        rewrite (extends_instances w w1 p pi E01 Hpi). apply wpe_ret.
        split; [done|]. split; [done|]. by exists pi.
      - destruct Hlive as [ac Hac]. apply wpe_bind. unfold wpe at 1, deref_appContext.
        rewrite (extends_appContexts w w1 a ac E01 Hac).
        apply wpe_new_object. intros r w2 Hr E12 Ho _.
        split; [done|]. split; [done|]. by exists ac. }
  2:{ done. }
  intros pvd w2 l2 (-> & E12 & Hprov).
  apply wpe_bind, wpe_or_empty_object. intros po w3 E23 _ Hpo.
  apply wpe_bind, wpe_or_empty_object. intros eo w4 E34 _ Heo.
  apply wpe_bind, wpe_empty_object. intros c0 w5 _ E45 _ _.
  apply wpe_bind, wpe_empty_object. intros dv w6 Hdv E56 Hdo _.
  apply wpe_bind, wpe_empty_object. intros pv w7 Hpv E67 Hpo' _.
  apply wpe_bind, wpe_empty_object. intros sv w8 Hsv E78 Hso _.
  pose proof (extends_trans _ _ _ E01 E12) as E02.
  pose proof (extends_trans _ _ _ E02 E23) as E03.
  pose proof (extends_trans _ _ _ E03 E34) as E04.
  pose proof (extends_trans _ _ _ E04 E45) as E05.
  pose proof (extends_trans _ _ _ E05 E56) as E06.
  pose proof (extends_trans _ _ _ E06 E67) as E07.
  pose proof (extends_trans _ _ _ E07 E78) as E08.
  (* the instance object, [ctx] and [emit] *)
  unfold wpe, bind, new_object, modify, ret. cbn.
  set (r := fresh (used w8)).
  set (I0 := Instance.mk type vnode a _ _ _ s _ _ _ pvd _ po eo _ _ _ _ _ _ _ _).
  set (w9 := set_instances (<[r := I0]> (instances w8)) w8).
  set (cv := fresh (used w9)).
  rewrite !alter_insert_eq. cbn.
  assert (r ∉ used w8) as Hr by apply is_fresh.
  assert (cv ∉ used w9) as Hcv by apply is_fresh.
  assert (instances w8 !! r = None) as Hrnone.
  { apply not_elem_of_dom. intros Hin. apply Hr. unfold used.
    by do 3 apply elem_of_union_l. }
  assert (extends w8 w9) as E89.
  { repeat split; cbn; try done. by apply insert_subseteq. }
  assert (cv ∉ used w8) as Hcv8 by (by apply (not_used_mono w8 w9)).
  assert (objects w8 !! cv = None) as Hcnone.
  { apply not_elem_of_dom. intros Hin. apply Hcv8. unfold used.
    by apply elem_of_union_r. }
  assert (∀ x o, objects w8 !! x = Some o →
                 <[cv := Obj.mk None [("_"%string, Component.VObject r)]]> (objects w8) !! x
                 = Some o) as Hkeep.
  { intros x o Hx. rewrite lookup_insert_ne; [done|]. intros ->. congruence. }
  assert (∀ x o, objects w8 !! x = Some o → x ≠ cv) as Hne by (intros x o Hx ->; congruence).
  split; [done|]. split.
  { eapply extends_trans; [exact E08|]. repeat split; cbn; try done;
      by apply insert_subseteq. }
  split; [by apply (not_used_mono w w8)|].
  pose proof (extends_trans _ _ _ E67 E78) as E68.
  pose proof (extends_trans _ _ _ E56 E68) as E58.
  pose proof (extends_trans _ _ _ E45 E58) as E48.
  pose proof (extends_trans _ _ _ E34 E48) as E38.
  pose proof (extends_trans _ _ _ E23 E38) as E28.
  pose proof (extends_objects _ _ _ _ E68 Hdo) as Hd8.
  pose proof (extends_objects _ _ _ _ E78 Hpo') as Hp8.
  exists s, w1. split; [done|].
  exists pvd, po, eo, cv, dv, pv, sv. cbn.
  split; [by rewrite lookup_insert_eq|].
  split; [by rewrite lookup_insert_eq|].
  split; [by apply Hkeep|]. split; [by apply Hkeep|]. split; [by apply Hkeep|].
  split.
  { repeat constructor; rewrite ?elem_of_cons, ?elem_of_nil.
    - intros [E|[E|[E|[]]]]; symmetry in E; revert E.
      + by apply (Hne dv _ Hd8).
      + by apply (Hne pv _ Hp8).
      + by apply (Hne sv _ Hso).
    - intros [->|[->|[]]].
      + apply Hpv. eapply used_objects, Hdo.
      + apply Hsv, (extends_used _ _ E67). eapply used_objects, Hdo.
    - intros [->|[]]. apply Hsv. eapply used_objects, Hpo'.
    - intros []. }
  split.
  { repeat constructor.
    - by apply (not_used_mono w w8).
    - by apply (not_used_mono w w5).
    - by apply (not_used_mono w w6).
    - by apply (not_used_mono w w7). }
  split; [|split].
  - destruct parent as [p|]; [done|].
    destruct Hprov as (ac & Hac & Hfresh & Hobj). exists ac.
    split; [done|]. split; [by apply (not_used_mono w w1)|].
    apply Hkeep. by apply (extends_objects w2 w8).
  - destruct (if_truthy (Options.props type)); [done|].
    destruct Hpo as (o & -> & Hfresh & Hobj). exists o.
    split; [done|]. split; [by apply (not_used_mono w w2)|].
    apply Hkeep. by apply (extends_objects w3 w8).
  - destruct (if_truthy (Options.emits type)); [done|].
    destruct Heo as (o & -> & Hfresh & Hobj). exists o.
    split; [done|]. split; [by apply (not_used_mono w w3)|].
    apply Hkeep. by apply (extends_objects w4 w8).
Qed.
Lemma made_weaken u u' w0 w' vnode parent type a s r :
  u' ⊆ u →
  made bound_emit u w0 w' vnode parent type a s r →
  made bound_emit u' w0 w' vnode parent type a s r.
Proof.
  intros Hu (pvd & po & eo & cv & dv & pv & sv & Hi & Hc & Hd & Hp & Hs & Hnd & Hfr
             & Hprov & Hpo & Heo).
  assert (∀ x, x ∉ u → x ∉ u') as Hmono by (intros x Hx Hin; by apply Hx, Hu).
  exists pvd, po, eo, cv, dv, pv, sv. repeat (split; [done|]).
  split; [by eapply Forall_impl|].
  split; [|split].
  - destruct parent; [done|]. destruct Hprov as (ac & ? & ? & ?). exists ac. auto.
  - destruct (if_truthy (Options.props type)); [done|]. destruct Hpo as (o & ? & ? & ?).
    exists o. auto.
  - destruct (if_truthy (Options.emits type)); [done|]. destruct Heo as (o & ? & ? & ?).
    exists o. auto.
Qed.

(** Everything [createComponentInstance] does, for constructors that only
    add objects. *)
Lemma createComponentInstance_spec vnode parent vn w :
  adds_only createAppContext → adds_only new_EffectScope →
  makes_appContext createAppContext w →
  vnodes w !! vnode = Some vn → ready w parent vn →
  wpe (createComponentInstance createAppContext new_EffectScope bound_emit vnode parent)
    (λ r w' l,
       ∃ a w0 l0 s w1,
         resolved createAppContext w parent vn a w0 l0
         ∧ new_EffectScope w0 = (Normal s, w1)
         ∧ l = l0 ++ [EvNewEffectScope]
         ∧ extends w w0 ∧ extends w0 w' ∧ (r ∉ used w)
         ∧ made bound_emit (used w) w0 w' vnode parent (VNode.type vn) a s r)
    (λ e w' l,
       (parent = None ∧ VNode.appContext vn = None
        ∧ createAppContext w = (Throw e, w') ∧ l = [EvCreateAppContext])
       ∨ ∃ a w0 l0, resolved createAppContext w parent vn a w0 l0
                    ∧ new_EffectScope w0 = (Throw e, w')
                    ∧ l = l0 ++ [EvNewEffectScope])
    w.
Proof.
  intros Hca Hsc Hmk Hvn Hready. unfold createComponentInstance.
  apply wpe_bind. unfold wpe at 1, deref_vnode. rewrite Hvn.
  apply wpe_bind. unfold ready in Hready.
  destruct parent as [p|].
  - destruct Hready as [pi Hpi]. apply wpe_bind. unfold wpe at 1, deref_instance.
    rewrite Hpi. apply wpe_ret, wpe_bind, wpe_ret. cbn [app].
    assert (resolved createAppContext w (Some p) vn (Instance.appContext pi) w [])
      as Hres by (by exists pi).
    eapply wpe_mono; [| |apply build_spec; [done|by exists pi]].
    + intros r w' l (-> & E & Hr & s & w1 & Hs & Hmade).
      exists (Instance.appContext pi), w, [], s, w1. by repeat (split; [done|]).
    + intros e w' l [Hs ->]. right. by exists (Instance.appContext pi), w, [].
  - apply wpe_ret. cbn [app]. destruct (VNode.appContext vn) as [a|] eqn:Ha.
    + apply wpe_bind, wpe_ret. cbn [app].
      assert (resolved createAppContext w None vn a w []) as Hres
        by (unfold resolved; by rewrite Ha).
      eapply wpe_mono; [| |apply build_spec; [done|exact Hready]].
      * intros r w' l (-> & E & Hr & s & w1 & Hs & Hmade).
        exists a, w, [], s, w1. by repeat (split; [done|]).
      * intros e w' l [Hs ->]. right. by exists a, w, [].
    + apply wpe_bind, wpe_call.
      * intros a w0 Hc. pose proof (Hca w) as E0. rewrite Hc in E0. cbn in E0.
        assert (resolved createAppContext w None vn a w0 [EvCreateAppContext]) as Hres
          by (unfold resolved; by rewrite Ha).
        eapply wpe_mono; [| |apply build_spec; [done|by eapply Hmk]].
        -- intros r w' l (-> & E & Hr & s & w1 & Hs & Hmade).
           exists a, w0, [EvCreateAppContext], s, w1. repeat (split; [done|]).
           split; [by apply (not_used_mono w w0)|].
           eapply made_weaken; [|exact Hmade]. by apply extends_used.
        -- intros e w' l [Hs ->]. right. by exists a, w0, [EvCreateAppContext].
      * intros e w' Hc. by left.
Qed.

(** X13. The new instance takes the app context of the parent if there
    is a parent, else the vnode's if it has one; [createAppContext] is
    called only when there is neither, once and before the constructor of
    [EffectScope], which is called exactly once in every case. *)
Theorem createComponentInstance_appContext vnode parent vn w r :
  adds_only createAppContext → adds_only new_EffectScope →
  makes_appContext createAppContext w →
  vnodes w !! vnode = Some vn → ready w parent vn →
  outcome (createComponentInstance createAppContext new_EffectScope bound_emit vnode parent w) = Normal r →
  ∃ i, instances (world_after (createComponentInstance createAppContext new_EffectScope bound_emit vnode parent w)) !! r = Some i
    ∧ match parent with
      | Some p =>
          ∃ pi, instances w !! p = Some pi
                ∧ Instance.appContext i = Instance.appContext pi
                ∧ calls (createComponentInstance createAppContext new_EffectScope bound_emit vnode parent w) = [EvNewEffectScope]
      | None =>
          match VNode.appContext vn with
          | Some a =>
              Instance.appContext i = a
              ∧ calls (createComponentInstance createAppContext new_EffectScope bound_emit vnode parent w) = [EvNewEffectScope]
          | None =>
              (createAppContext w).1 = Normal (Instance.appContext i)
              ∧ calls (createComponentInstance createAppContext new_EffectScope bound_emit vnode parent w) = [EvCreateAppContext; EvNewEffectScope]
          end
      end.
Proof.
  intros Hca Hsc Hmk Hvn Hready Hout.
  pose proof (createComponentInstance_spec vnode parent vn w Hca Hsc Hmk Hvn Hready) as H.
  apply wpe_run in H as [Hn _].
  destruct (Hn r Hout) as (a & w0 & l0 & s & w1 & Hres & Hs & Hcalls & E0 & E1 & Hr & Hmade).
  destruct Hmade as (pvd & po & eo & cv & dv & pv & sv & Hi & Hc & Hd & Hp & Hst & Hnd & Hfr
                     & Hprov & Hpo & Heo).
  eexists. split; [exact Hi|]. cbn [Instance.appContext].
  unfold resolved in Hres. destruct parent as [p|].
  - destruct Hres as (pi & Hpi & -> & -> & ->). by exists pi.
  - destruct (VNode.appContext vn) as [a'|].
    + by destruct Hres as (-> & -> & ->).
    + destruct Hres as [Hca' ->]. by rewrite Hca'.
Qed.

(** X14. A child shares the [provides] object of its parent: the new
    instance holds the same reference, and the parent is as it was.  A
    root gets an object of its own, new and without own properties,
    whose prototype is the [provides] object of its app context. *)
Theorem createComponentInstance_provides vnode parent vn w r :
  adds_only createAppContext → adds_only new_EffectScope →
  makes_appContext createAppContext w →
  vnodes w !! vnode = Some vn → ready w parent vn →
  outcome (createComponentInstance createAppContext new_EffectScope bound_emit vnode parent w) = Normal r →
  ∃ i, instances (world_after (createComponentInstance createAppContext new_EffectScope bound_emit vnode parent w)) !! r = Some i
    ∧ match parent with
      | Some p =>
          ∃ pi, instances w !! p = Some pi
                ∧ Instance.provides i = Instance.provides pi
                ∧ instances (world_after (createComponentInstance createAppContext new_EffectScope bound_emit vnode parent w)) !! p = Some pi
      | None =>
          (Instance.provides i ∉ used w)
          ∧ ∃ ac, appContexts (world_after (createComponentInstance createAppContext new_EffectScope bound_emit vnode parent w)) !! Instance.appContext i = Some ac
                  ∧ objects (world_after (createComponentInstance createAppContext new_EffectScope bound_emit vnode parent w)) !! Instance.provides i
                    = Some (Obj.mk (Some (AppContext.provides ac)) [])
      end.
Proof.
  intros Hca Hsc Hmk Hvn Hready Hout.
  pose proof (createComponentInstance_spec vnode parent vn w Hca Hsc Hmk Hvn Hready) as H.
  apply wpe_run in H as [Hn _].
  destruct (Hn r Hout) as (a & w0 & l0 & s & w1 & Hres & Hs & Hcalls & E0 & E1 & Hr & Hmade).
  destruct Hmade as (pvd & po & eo & cv & dv & pv & sv & Hi & Hc & Hd & Hp & Hst & Hnd & Hfr
                     & Hprov & Hpo & Heo).
  eexists. split; [exact Hi|]. cbn [Instance.provides Instance.appContext].
  pose proof (extends_trans _ _ _ E0 E1) as E.
  destruct parent as [p|].
  - destruct Hprov as (pi & Hpi & ->). exists pi.
    unfold resolved in Hres. destruct Hres as (pi' & Hpi' & _ & -> & _).
    split; [congruence|]. split; [done|].
    by apply (extends_instances _ _ _ _ E).
  - destruct Hprov as (ac & Hac & Hfresh & Hobj). split; [done|]. exists ac.
    split; [|done]. by apply (extends_appContexts _ _ _ _ E1).
Qed.

(** X15. The instance is a new object: its reference was not in use,
    and every instance, vnode, app context and object that was there is
    there unchanged.  It is an instance of the vnode's type for that
    vnode, not yet mounted; [ctx] is a new object whose one property [_]
    is the instance itself, [emit] is [emit] bound to the instance, and
    the fields that the renderer fills later are [null]. *)
Theorem createComponentInstance_new_instance vnode parent vn w r :
  adds_only createAppContext → adds_only new_EffectScope →
  makes_appContext createAppContext w →
  vnodes w !! vnode = Some vn → ready w parent vn →
  outcome (createComponentInstance createAppContext new_EffectScope bound_emit vnode parent w) = Normal r →
  (r ∉ used w)
  ∧ extends w (world_after (createComponentInstance createAppContext new_EffectScope bound_emit vnode parent w))
  ∧ ∃ i c, instances (world_after (createComponentInstance createAppContext new_EffectScope bound_emit vnode parent w)) !! r = Some i
      ∧ Instance.type i = VNode.type vn ∧ Instance.vnode i = vnode
      ∧ Instance.isMounted i = false
      ∧ Instance.ctx i = Component.VObject c ∧ (c ∉ used w)
      ∧ objects (world_after (createComponentInstance createAppContext new_EffectScope bound_emit vnode parent w)) !! c
        = Some (Obj.mk None [("_"%string, Component.VObject r)])
      ∧ Instance.emit i = bound_emit r
      ∧ Forall (λ v, v = Component.VNull)
          [Instance.next i; Instance.proxy i; Instance.effect i; Instance.subTree i;
           Instance.update i; Instance.render i; Instance.components i;
           Instance.setupContext i; Instance.m i].
Proof.
  intros Hca Hsc Hmk Hvn Hready Hout.
  pose proof (createComponentInstance_spec vnode parent vn w Hca Hsc Hmk Hvn Hready) as H.
  apply wpe_run in H as [Hn _].
  destruct (Hn r Hout) as (a & w0 & l0 & s & w1 & Hres & Hs & Hcalls & E0 & E1 & Hr & Hmade).
  destruct Hmade as (pvd & po & eo & cv & dv & pv & sv & Hi & Hc & Hd & Hp & Hst & Hnd & Hfr
                     & Hprov & Hpo & Heo).
  split; [done|]. split; [by apply (extends_trans _ _ _ E0 E1)|].
  eexists. exists cv. split; [exact Hi|]. cbn.
  repeat (split; [done|]).
  split; [by apply Forall_cons_1 in Hfr as [? _]|].
  split; [done|]. split; [done|]. by repeat constructor.
Qed.

(** X16. [data], [props] and [setupState] are three new empty objects,
    different from each other and from [ctx]; none of the four was in
    use before. *)
Theorem createComponentInstance_own_objects vnode parent vn w r :
  adds_only createAppContext → adds_only new_EffectScope →
  makes_appContext createAppContext w →
  vnodes w !! vnode = Some vn → ready w parent vn →
  outcome (createComponentInstance createAppContext new_EffectScope bound_emit vnode parent w) = Normal r →
  ∃ i c d p s,
    instances (world_after (createComponentInstance createAppContext new_EffectScope bound_emit vnode parent w)) !! r = Some i
    ∧ Instance.ctx i = Component.VObject c ∧ Instance.data i = Component.VObject d
    ∧ Instance.props i = Component.VObject p
    ∧ Instance.setupState i = Component.VObject s
    ∧ NoDup [c; d; p; s]
    ∧ Forall (λ x, x ∉ used w) [c; d; p; s]
    ∧ Forall (λ x, objects (world_after (createComponentInstance createAppContext new_EffectScope bound_emit vnode parent w)) !! x = Some (Obj.mk None [])) [d; p; s].
Proof.
  intros Hca Hsc Hmk Hvn Hready Hout.
  pose proof (createComponentInstance_spec vnode parent vn w Hca Hsc Hmk Hvn Hready) as H.
  apply wpe_run in H as [Hn _].
  destruct (Hn r Hout) as (a & w0 & l0 & s & w1 & Hres & Hs & Hcalls & E0 & E1 & Hr & Hmade).
  destruct Hmade as (pvd & po & eo & cv & dv & pv & sv & Hi & Hc & Hd & Hp & Hst & Hnd & Hfr
                     & Hprov & Hpo & Heo).
  eexists. exists cv, dv, pv, sv. split; [exact Hi|]. cbn.
  repeat (split; [done|]). by repeat constructor.
Qed.

(** X17. [propsOptions] and [emitsOptions] are the [props] and [emits]
    of the vnode's type where these are truthy, the very same values;
    where the type has none, or a falsy one ([undefined], [null],
    [false], [0], the empty string), each is a new empty object. *)
Theorem createComponentInstance_options_defaults vnode parent vn w r :
  adds_only createAppContext → adds_only new_EffectScope →
  makes_appContext createAppContext w →
  vnodes w !! vnode = Some vn → ready w parent vn →
  outcome (createComponentInstance createAppContext new_EffectScope bound_emit vnode parent w) = Normal r →
  ∃ i, instances (world_after (createComponentInstance createAppContext new_EffectScope bound_emit vnode parent w)) !! r = Some i
    ∧ match if_truthy (Options.props (VNode.type vn)) with
      | Some v => Instance.propsOptions i = v
      | None =>
          ∃ o, Instance.propsOptions i = Component.VObject o ∧ (o ∉ used w)
               ∧ objects (world_after (createComponentInstance createAppContext new_EffectScope bound_emit vnode parent w)) !! o = Some (Obj.mk None [])
      end
    ∧ match if_truthy (Options.emits (VNode.type vn)) with
      | Some v => Instance.emitsOptions i = v
      | None =>
          ∃ o, Instance.emitsOptions i = Component.VObject o ∧ (o ∉ used w)
               ∧ objects (world_after (createComponentInstance createAppContext new_EffectScope bound_emit vnode parent w)) !! o = Some (Obj.mk None [])
      end.
Proof.
  intros Hca Hsc Hmk Hvn Hready Hout.
  pose proof (createComponentInstance_spec vnode parent vn w Hca Hsc Hmk Hvn Hready) as H.
  apply wpe_run in H as [Hn _].
  destruct (Hn r Hout) as (a & w0 & l0 & s & w1 & Hres & Hs & Hcalls & E0 & E1 & Hr & Hmade).
  destruct Hmade as (pvd & po & eo & cv & dv & pv & sv & Hi & Hc & Hd & Hp & Hst & Hnd & Hfr
                     & Hprov & Hpo & Heo).
  eexists. split; [exact Hi|]. by cbn.
Qed.

(** X18. Creation fails only where a constructor fails.  If
    [createComponentInstance] throws, the exception is that of
    [createAppContext], and then no [EffectScope] was constructed, or it
    is that of the constructor of [EffectScope]; either way the world is
    as the failing constructor left it, with nothing made after it. *)
Theorem createComponentInstance_throws vnode parent vn w e :
  adds_only createAppContext → adds_only new_EffectScope →
  makes_appContext createAppContext w →
  vnodes w !! vnode = Some vn → ready w parent vn →
  outcome (createComponentInstance createAppContext new_EffectScope bound_emit vnode parent w) = Throw e →
  (parent = None ∧ VNode.appContext vn = None
   ∧ createAppContext w = (Throw e, world_after (createComponentInstance createAppContext new_EffectScope bound_emit vnode parent w))
   ∧ calls (createComponentInstance createAppContext new_EffectScope bound_emit vnode parent w) = [EvCreateAppContext])
  ∨ ∃ a w0 l0,
      resolved createAppContext w parent vn a w0 l0
      ∧ new_EffectScope w0 = (Throw e, world_after (createComponentInstance createAppContext new_EffectScope bound_emit vnode parent w))
      ∧ calls (createComponentInstance createAppContext new_EffectScope bound_emit vnode parent w) = l0 ++ [EvNewEffectScope].
Proof.
  intros Hca Hsc Hmk Hvn Hready Hout.
  pose proof (createComponentInstance_spec vnode parent vn w Hca Hsc Hmk Hvn Hready) as H.
  apply wpe_run in H as [_ Ht]. exact (Ht e Hout).
Qed.

End creation.

Lemma scn_adds_only {A} (a : completion A) :
  adds_only (λ w : World unit, (a, w)).
Proof. intros w. apply extends_refl. Qed.

Lemma scn_makes_appContext : makes_appContext scn_createAppContext scn_world.
Proof. intros a w' [= <- <-]. by eexists. Qed.

Lemma scn_ready_child : ready scn_world (Some 5%positive) scn_vnode.
Proof. by eexists. Qed.

Lemma createComponentInstance_appContext_witness :
  makes_appContext scn_createAppContext scn_world
  ∧ vnodes scn_world !! 1%positive = Some scn_vnode
  ∧ ready scn_world None scn_vnode
  ∧ outcome (createComponentInstance scn_createAppContext scn_new_EffectScope scn_bound_emit 1%positive None scn_world) = Normal 20%positive
  ∧ calls (createComponentInstance scn_createAppContext scn_new_EffectScope scn_bound_emit 1%positive None scn_world) = [EvCreateAppContext; EvNewEffectScope].
Proof.
  split; [exact scn_makes_appContext|]. split; [reflexivity|]. split; [exact I|].
  split; [reflexivity|].
  destruct (createComponentInstance_appContext scn_createAppContext scn_new_EffectScope
              scn_bound_emit 1%positive None scn_vnode scn_world 20%positive
              (scn_adds_only _) (scn_adds_only _) scn_makes_appContext)
    as (i & _ & _ & Hcalls); [reflexivity|exact I|reflexivity|].
  exact Hcalls.
Defined.

Lemma createComponentInstance_provides_witness :
  vnodes scn_world !! 2%positive = Some scn_vnode
  ∧ ready scn_world (Some 5%positive) scn_vnode
  ∧ outcome (createComponentInstance scn_createAppContext scn_new_EffectScope scn_bound_emit 2%positive (Some 5%positive) scn_world) = Normal 19%positive
  ∧ ∃ i, instances (world_after (createComponentInstance scn_createAppContext scn_new_EffectScope scn_bound_emit 2%positive (Some 5%positive) scn_world)) !! 19%positive = Some i
         ∧ Instance.provides i = 6%positive.
Proof.
  split; [reflexivity|]. split; [exact scn_ready_child|]. split; [reflexivity|].
  destruct (createComponentInstance_provides scn_createAppContext scn_new_EffectScope
              scn_bound_emit 2%positive (Some 5%positive) scn_vnode scn_world 19%positive
              (scn_adds_only _) (scn_adds_only _) scn_makes_appContext)
    as (i & Hi & pi & Hpi & Hprov & _); [reflexivity|exact scn_ready_child|reflexivity|].
  exists i. split; [exact Hi|]. rewrite Hprov.
  injection Hpi as <-. reflexivity.
Defined.

Lemma createComponentInstance_new_instance_witness :
  vnodes scn_world !! 1%positive = Some scn_vnode
  ∧ ready scn_world None scn_vnode
  ∧ outcome (createComponentInstance scn_createAppContext scn_new_EffectScope scn_bound_emit 1%positive None scn_world) = Normal 20%positive
  ∧ (20%positive ∉ used scn_world)
  ∧ extends scn_world (world_after (createComponentInstance scn_createAppContext scn_new_EffectScope scn_bound_emit 1%positive None scn_world)).
Proof.
  split; [reflexivity|]. split; [exact I|]. split; [reflexivity|].
  destruct (createComponentInstance_new_instance scn_createAppContext scn_new_EffectScope
              scn_bound_emit 1%positive None scn_vnode scn_world 20%positive
              (scn_adds_only _) (scn_adds_only _) scn_makes_appContext)
    as (Hfresh & Hext & _); [reflexivity|exact I|reflexivity|].
  split; [exact Hfresh|exact Hext].
Defined.

Lemma createComponentInstance_own_objects_witness :
  vnodes scn_world !! 2%positive = Some scn_vnode
  ∧ ready scn_world (Some 5%positive) scn_vnode
  ∧ outcome (createComponentInstance scn_createAppContext scn_new_EffectScope scn_bound_emit 2%positive (Some 5%positive) scn_world) = Normal 19%positive
  ∧ ∃ i c d p s,
      instances (world_after (createComponentInstance scn_createAppContext scn_new_EffectScope scn_bound_emit 2%positive (Some 5%positive) scn_world)) !! 19%positive = Some i
      ∧ Instance.ctx i = Component.VObject c ∧ Instance.data i = Component.VObject d
      ∧ Instance.props i = Component.VObject p
      ∧ Instance.setupState i = Component.VObject s
      ∧ NoDup [c; d; p; s].
Proof.
  split; [reflexivity|]. split; [exact scn_ready_child|]. split; [reflexivity|].
  destruct (createComponentInstance_own_objects scn_createAppContext scn_new_EffectScope
              scn_bound_emit 2%positive (Some 5%positive) scn_vnode scn_world 19%positive
              (scn_adds_only _) (scn_adds_only _) scn_makes_appContext)
    as (i & c & d & p & s & Hi & Hc & Hd & Hp & Hs & Hnd & _);
    [reflexivity|exact scn_ready_child|reflexivity|].
  exists i, c, d, p, s. repeat (split; [assumption|]). exact Hnd.
Defined.

Lemma createComponentInstance_options_defaults_witness :
  vnodes scn_world !! 1%positive = Some scn_vnode
  ∧ ready scn_world None scn_vnode
  ∧ outcome (createComponentInstance scn_createAppContext scn_new_EffectScope scn_bound_emit 1%positive None scn_world) = Normal 20%positive
  ∧ Options.props (VNode.type scn_vnode) = Some Component.VNull
  ∧ ∃ i, instances (world_after (createComponentInstance scn_createAppContext scn_new_EffectScope scn_bound_emit 1%positive None scn_world)) !! 20%positive = Some i
         ∧ (∃ o, Instance.propsOptions i = Component.VObject o ∧ (o ∉ used scn_world)
                 ∧ objects (world_after (createComponentInstance scn_createAppContext scn_new_EffectScope scn_bound_emit 1%positive None scn_world)) !! o = Some (Obj.mk None []))
         ∧ Instance.emitsOptions i = Component.VObject 7%positive.
Proof.
  split; [reflexivity|]. split; [exact I|]. split; [reflexivity|]. split; [reflexivity|].
  destruct (createComponentInstance_options_defaults scn_createAppContext
              scn_new_EffectScope scn_bound_emit 1%positive None scn_vnode scn_world
              20%positive (scn_adds_only _) (scn_adds_only _) scn_makes_appContext)
    as (i & Hi & Hprops & Hemits); [reflexivity|exact I|reflexivity|].
  exists i. split; [exact Hi|]. split; [exact Hprops|exact Hemits].
Defined.

Lemma createComponentInstance_throws_witness :
  vnodes scn_world !! 2%positive = Some scn_vnode
  ∧ ready scn_world (Some 5%positive) scn_vnode
  ∧ outcome (createComponentInstance scn_createAppContext scn_failing_EffectScope scn_bound_emit 2%positive (Some 5%positive) scn_world) = Throw "no scope"%string
  ∧ ∃ a w0 l0,
      resolved scn_createAppContext scn_world (Some 5%positive) scn_vnode a w0 l0
      ∧ scn_failing_EffectScope w0 = (Throw "no scope"%string, world_after (createComponentInstance scn_createAppContext scn_failing_EffectScope scn_bound_emit 2%positive (Some 5%positive) scn_world))
      ∧ calls (createComponentInstance scn_createAppContext scn_failing_EffectScope scn_bound_emit 2%positive (Some 5%positive) scn_world) = l0 ++ [EvNewEffectScope].
Proof.
  split; [reflexivity|]. split; [exact scn_ready_child|]. split; [reflexivity|].
  destruct (createComponentInstance_throws scn_createAppContext scn_failing_EffectScope
              scn_bound_emit 2%positive (Some 5%positive) scn_vnode scn_world
              "no scope"%string
              (scn_adds_only _) (scn_adds_only _) scn_makes_appContext)
    as [(Hp & _)|H]; [reflexivity|exact scn_ready_child|reflexivity| |].
  - discriminate Hp.
  - exact H.
Defined.

End CreationFacts.
